(** * PerfSpect event-definition pipeline: a shallow embedding

    The development follows [cmd/metrics]: the Go [strings] functions the
    loaders use, the record parser, the name abbreviator, the collectability
    filter, the uncore group expander and the two catalog loaders.  Go
    strings are byte strings and are modelled as [string]; a Go function
    that can panic returns a [result]; a Go [error] is the message it
    carries. *)

From Stdlib Require Import ZArith Ascii String List Bool Lia.
From Stdlib Require Import DecimalString DecimalZ.
From stdpp Require Import base option list gmap sets strings.


Local Open Scope Z_scope.

(** ** Outcomes of Go code *)

(** A Go call either returns its values or panics. *)
Inductive result (A : Type) : Type :=
| Ret (a : A)
| Panic.
Arguments Ret {A} a.
Arguments Panic {A}.

#[global] Instance result_ret : MRet result := fun A a => Ret a.

#[global] Instance result_bind : MBind result := fun A B k r =>
  match r with
  | Ret a => k a
  | Panic => Panic
  end.

(** A Go [error] value, identified with its message; [None] is [nil]. *)
Definition error : Type := string.

(** ** The Go [strings] package, on byte strings *)

Module GoStrings.

(** [len(s)] as a Go [int]. *)
Definition len (s : string) : Z := Z.of_nat (String.length s).

(** [strings.HasPrefix(s, prefix)] *)
Definition HasPrefix (s p : string) : bool := String.prefix p s.

(** [strings.Contains(s, substr)] *)
Fixpoint Contains (s sub : string) : bool :=
  if String.prefix sub s then true
  else match s with
       | EmptyString => false
       | String _ t => Contains t sub
       end.

(** [strings.Split(s, sep)] for a one-byte separator, which is what every
    call site passes.  The result always has at least one field. *)
Fixpoint Split (s : string) (sep : ascii) : list string :=
  match s with
  | EmptyString => [EmptyString]
  | String c t =>
      if Ascii.eqb c sep then EmptyString :: Split t sep
      else match Split t sep with
           | f :: fs => String c f :: fs
           | [] => [String c EmptyString]
           end
  end.

(** [strings.Replace(s, old, new, -1)] for a non-empty [old]: the
    non-overlapping occurrences of [old] are replaced from the left.
    [skip] counts the bytes of a matched occurrence still to be dropped. *)
Fixpoint replace_from (old new : string) (skip : nat) (s : string) : string :=
  match s with
  | EmptyString => EmptyString
  | String c t =>
      match skip with
      | S k => replace_from old new k t
      | O =>
          if String.prefix old s
          then new +:+ replace_from old new (Nat.pred (String.length old)) t
          else String c (replace_from old new O t)
      end
  end.

(** With an empty [old], Go inserts [new] before every character and at
    the end. *)
Fixpoint intersperse_all (new s : string) : string :=
  match s with
  | EmptyString => new
  | String c t => new +:+ String c (intersperse_all new t)
  end.

Definition Replace (s old new : string) : string :=
  match old with
  | EmptyString => intersperse_all new s
  | String _ _ => replace_from old new O s
  end.

(** *** Runes: the packages [unicode/utf8] and [unicode]

    [strings.TrimSpace] trims white space as Unicode defines it, so the
    bytes of a string are decoded as UTF-8 where they are not ASCII. *)

Definition RuneError : Z := 0xFFFD.
Definition RuneSelf : Z := 0x80.
Definition UTFMax : nat := 4.

(** A byte as a number. *)
Definition byteOf (c : ascii) : Z := Z.of_N (N_of_ascii c).

(** The byte [s[i]] where the callers read it, inside the string. *)
Definition byteZ (s : string) (i : Z) : Z :=
  if i <? 0 then 0
  else match String.get (Z.to_nat i) s with
       | Some c => byteOf c
       | None => 0
       end.

(** The slice [s[lo:hi]] where the callers take it, inside the string. *)
Definition substr (s : string) (lo hi : Z) : string :=
  String.substring (Z.to_nat lo) (Z.to_nat (hi - lo)) s.

(** The continuation bytes. *)
Definition locb : Z := 0x80.
Definition hicb : Z := 0xBF.

(** The table [first] with [acceptRanges], for the first byte of a rune
    of several bytes: the size of the rune and the range accepted for
    its second byte.  [None] stands for the entries of the ASCII bytes
    and of the bytes that start no rune. *)
Definition utf8_first (s0 : Z) : option (Z * (Z * Z)) :=
  if (0xC2 <=? s0) && (s0 <=? 0xDF) then Some (2, (locb, hicb))
  else if s0 =? 0xE0 then Some (3, (0xA0, hicb))
  else if (0xE1 <=? s0) && (s0 <=? 0xEC) then Some (3, (locb, hicb))
  else if s0 =? 0xED then Some (3, (locb, 0x9F))
  else if (0xEE <=? s0) && (s0 <=? 0xEF) then Some (3, (locb, hicb))
  else if s0 =? 0xF0 then Some (4, (0x90, hicb))
  else if (0xF1 <=? s0) && (s0 <=? 0xF3) then Some (4, (locb, hicb))
  else if s0 =? 0xF4 then Some (4, (locb, 0x8F))
  else None.

Definition maskx : Z := 0x3F.
Definition mask2 : Z := 0x1F.
Definition mask3 : Z := 0x0F.
Definition mask4 : Z := 0x07.

(** [utf8.DecodeRuneInString(s)]: the first rune of [s] and its width in
    bytes; [(RuneError, 1)] for an encoding that is not valid. *)
Definition DecodeRuneInString (s : string) : Z * Z :=
  match s with
  | EmptyString => (RuneError, 0)
  | String c0 t0 =>
      let s0 := byteOf c0 in
      match utf8_first s0 with
      | None => (if s0 <? RuneSelf then s0 else RuneError, 1)
      | Some (sz, (lo, hi)) =>
          if len s <? sz then (RuneError, 1)
          else
            match t0 with
            | EmptyString => (RuneError, 1)
            | String c1 t1 =>
                let s1 := byteOf c1 in
                if (s1 <? lo) || (hi <? s1) then (RuneError, 1)
                else if sz <=? 2 then
                  (Z.lor (Z.shiftl (Z.land s0 mask2) 6) (Z.land s1 maskx), 2)
                else
                  match t1 with
                  | EmptyString => (RuneError, 1)
                  | String c2 t2 =>
                      let s2 := byteOf c2 in
                      if (s2 <? locb) || (hicb <? s2) then (RuneError, 1)
                      else if sz <=? 3 then
                        (Z.lor (Z.shiftl (Z.land s0 mask3) 12)
                           (Z.lor (Z.shiftl (Z.land s1 maskx) 6)
                              (Z.land s2 maskx)), 3)
                      else
                        match t2 with
                        | EmptyString => (RuneError, 1)
                        | String c3 _ =>
                            let s3 := byteOf c3 in
                            if (s3 <? locb) || (hicb <? s3)
                            then (RuneError, 1)
                            else
                              (Z.lor (Z.shiftl (Z.land s0 mask4) 18)
                                 (Z.lor (Z.shiftl (Z.land s1 maskx) 12)
                                    (Z.lor (Z.shiftl (Z.land s2 maskx) 6)
                                       (Z.land s3 maskx))), 4)
                        end
                  end
            end
      end
  end.

(** [utf8.RuneStart(b)]: the byte is not a continuation byte. *)
Definition RuneStart (b : Z) : bool := negb (Z.land b 0xC0 =? 0x80).

(** The loop [for start--; start >= lim; start--] of
    [DecodeLastRuneInString], entered at [start]: it stops at the first
    byte that can start a rune, or below [lim]. *)
Fixpoint runeStartLoop (fuel : nat) (s : string) (lim start : Z) : Z :=
  match fuel with
  | O => start
  | S fuel =>
      if lim <=? start then
        if RuneStart (byteZ s start) then start
        else runeStartLoop fuel s lim (start - 1)
      else start
  end.

(** [utf8.DecodeLastRuneInString(s)]: the last rune of [s] and its
    width.  The loop looks at three bytes at most, so [UTFMax] rounds
    are enough. *)
Definition DecodeLastRuneInString (s : string) : Z * Z :=
  let end_ := len s in
  if end_ =? 0 then (RuneError, 0)
  else
    let start := end_ - 1 in
    let r := byteZ s start in
    if r <? RuneSelf then (r, 1)
    else
      let lim := Z.max (end_ - Z.of_nat UTFMax) 0 in
      let start := runeStartLoop UTFMax s lim (start - 1) in
      let start := Z.max start 0 in
      let (r, size) := DecodeRuneInString (substr s start end_) in
      if negb (start + size =? end_) then (RuneError, 1) else (r, size).

(** [unicode.IsSpace(r)]: the Latin-1 white space, and beyond Latin-1
    the ranges of the property [White_Space]. *)
Definition IsSpace (r : Z) : bool :=
  if r <=? 0xFF then
    (r =? 9) || (r =? 10) || (r =? 11) || (r =? 12) || (r =? 13)
    || (r =? 32) || (r =? 0x85) || (r =? 0xA0)
  else
    (r =? 0x1680) || ((0x2000 <=? r) && (r <=? 0x200A))
    || ((0x2028 <=? r) && (r <=? 0x2029)) || (r =? 0x202F)
    || (r =? 0x205F) || (r =? 0x3000).

(** The table [asciiSpace] of the package [strings]. *)
Definition asciiSpace (c : Z) : bool :=
  (c =? 9) || (c =? 10) || (c =? 11) || (c =? 12) || (c =? 13) || (c =? 32).

(** *** Trimming *)

(** [indexFunc(s, f, truth)]: the offset of the first rune on which [f]
    answers [truth], or [-1].  The loop is [for i, r := range s], which
    decodes as [DecodeRuneInString] does; it is entered at offset [i],
    and every round moves on by one byte at least, so [len(s)] rounds
    are enough. *)
Fixpoint indexLoop (fuel : nat) (s : string) (f : Z -> bool) (truth : bool)
    (i : Z) : Z :=
  match fuel with
  | O => -1
  | S fuel =>
      if i <? len s then
        let (r, size) := DecodeRuneInString (substr s i (len s)) in
        if Bool.eqb (f r) truth then i
        else indexLoop fuel s f truth (i + size)
      else -1
  end.

Definition indexFunc (s : string) (f : Z -> bool) (truth : bool) : Z :=
  indexLoop (String.length s) s f truth 0.

(** [lastIndexFunc(s, f, truth)]: the loop [for i := len(s); i > 0; ],
    entered at [i]. *)
Fixpoint lastIndexLoop (fuel : nat) (s : string) (f : Z -> bool)
    (truth : bool) (i : Z) : Z :=
  match fuel with
  | O => -1
  | S fuel =>
      if 0 <? i then
        let (r, size) := DecodeLastRuneInString (substr s 0 i) in
        let i := i - size in
        if Bool.eqb (f r) truth then i
        else lastIndexLoop fuel s f truth i
      else -1
  end.

Definition lastIndexFunc (s : string) (f : Z -> bool) (truth : bool) : Z :=
  lastIndexLoop (String.length s) s f truth (len s).

(** [strings.TrimLeftFunc(s, f)] *)
Definition TrimLeftFunc (s : string) (f : Z -> bool) : string :=
  let i := indexFunc s f false in
  if i =? -1 then EmptyString else substr s i (len s).

(** [strings.TrimRightFunc(s, f)] *)
Definition TrimRightFunc (s : string) (f : Z -> bool) : string :=
  let i := lastIndexFunc s f false in
  let i :=
    if (0 <=? i) && (RuneSelf <=? byteZ s i)
    then i + (DecodeRuneInString (substr s i (len s))).2
    else i + 1 in
  substr s 0 i.

(** [strings.TrimFunc(s, f)] *)
Definition TrimFunc (s : string) (f : Z -> bool) : string :=
  TrimRightFunc (TrimLeftFunc s f) f.

(** The second loop of [strings.TrimSpace], [for ; stop > start; stop--],
    entered at [stop]. *)
Fixpoint trimStop (fuel : nat) (s : string) (start stop : Z) : string :=
  match fuel with
  | O => substr s start stop
  | S fuel =>
      if start <? stop then
        let c := byteZ s (stop - 1) in
        if RuneSelf <=? c then TrimRightFunc (substr s start stop) IsSpace
        else if negb (asciiSpace c) then substr s start stop
        else trimStop fuel s start (stop - 1)
      else substr s start stop
  end.

(** The first loop of [strings.TrimSpace], [for ; start < len(s); start++],
    entered at [start]. *)
Fixpoint trimStart (fuel : nat) (s : string) (start : Z) : string :=
  match fuel with
  | O => trimStop (String.length s) s start (len s)
  | S fuel =>
      if start <? len s then
        let c := byteZ s start in
        if RuneSelf <=? c then TrimFunc (substr s start (len s)) IsSpace
        else if negb (asciiSpace c)
        then trimStop (String.length s) s start (len s)
        else trimStart fuel s (start + 1)
      else trimStop (String.length s) s start (len s)
  end.

(** [strings.TrimSpace(s)]: [s] without the white space, as Unicode
    defines it, at its two ends.  The two loops take the ASCII bytes and
    hand over to [TrimFunc] and [TrimRightFunc] at the first byte that
    is not ASCII. *)
Definition TrimSpace (s : string) : string :=
  trimStart (String.length s) s 0.

Definition lowerByte (c : ascii) : ascii :=
  let n := nat_of_ascii c in
  if ((65 <=? n) && (n <=? 90))%nat then ascii_of_nat (n + 32) else c.

(** [strings.ToLower(s)] on the bytes of the ASCII letters; the bytes of
    the other runes are kept as they are (Go maps those runes through
    the Unicode case tables, which are not part of the embedding).  The
    two agree on every ASCII string, and on whether the result ends in
    [.json]. *)
Fixpoint ToLower (s : string) : string :=
  match s with
  | EmptyString => EmptyString
  | String c t => String (lowerByte c) (ToLower t)
  end.

(** The slice expression [s[lo:hi]]: a run-time panic unless
    [0 <= lo <= hi <= len(s)]. *)
Definition slice (s : string) (lo hi : Z) : result string :=
  if (0 <=? lo) && (lo <=? hi) && (hi <=? len s)
  then Ret (String.substring (Z.to_nat lo) (Z.to_nat (hi - lo)) s)
  else Panic.

(** The index expression [s[i]]. *)
Definition byteAt (s : string) (i : Z) : result ascii :=
  if (0 <=? i) && (i <? len s)
  then match String.get (Z.to_nat i) s with
       | Some c => Ret c
       | None => Panic
       end
  else Panic.

(** [fmt.Sprintf("%d", n)] *)
Definition itoa (n : Z) : string := NilEmpty.string_of_int (Z.to_int n).

End GoStrings.

Import GoStrings.

(** The index expression [xs[i]] on a slice. *)
Definition index {A : Type} (xs : list A) (i : Z) : result A :=
  if (0 <=? i) && (i <? Z.of_nat (length xs))
  then match nth_error xs (Z.to_nat i) with
       | Some x => Ret x
       | None => Panic
       end
  else Panic.

(** ** Data model *)

(** [EventDefinition] represents a single perf event. *)
Record EventDefinition : Type := mkEvent {
  Raw : string;
  Name : string;
  Device : string;
  Description : string
}.

(** [GroupDefinition] represents a group of perf events. *)
Definition GroupDefinition : Type := list EventDefinition.

(** [ARM64Event] is one record of an ARM PMU event JSON file. *)
Record ARM64Event : Type := mkArmEvent {
  ArchStdEvent : string;
  PublicDescription : string
}.

(** The fields of [Metadata] the pipeline reads.  [UncoreDeviceIDs] is a Go
    [map[string][]int]. *)
Record Metadata : Type := mkMetadata {
  Architecture : string;
  Vendor : string;
  Microarchitecture : string;
  SupportsFixedTMA : bool;
  SupportsPEBS : bool;
  SupportsOCR : bool;
  SupportsUncore : bool;
  SupportsRefCycles : bool;
  PerfSupportedEvents : string;
  UncoreDeviceIDs : gmap string (list Z)
}.

(** The collection scope held by the package variable [flagScope]; the
    functions below receive it as an argument. *)
Inductive Scope : Type := scopeSystem | scopeProcess | scopeCgroup.

Definition processOrCgroup (flagScope : Scope) : bool :=
  match flagScope with
  | scopeSystem => false
  | scopeProcess | scopeCgroup => true
  end.

(** [slices.Contains] on strings. *)
Definition slices_Contains (xs : list string) (x : string) : bool :=
  existsb (String.eqb x) xs.

(** ** parseEventDefinition *)

(** The first element of [strings.Split(s, sep)], which always exists. *)
Definition firstField (s : string) (sep : ascii) : string :=
  match Split s sep with
  | f :: _ => f
  | [] => EmptyString
  end.

(** [parseEventDefinition] parses one line of the event definition file.
    It returns the pair [(eventDef, err)] of the Go function. *)
Definition parseEventDefinition (line : string)
  : result (EventDefinition * option error) :=
  let fields := Split line "," in
  let n := Z.of_nat (length fields) in
  if n =? 1 then
    name ← index fields 0;
    Ret (mkEvent line name "" "", None)
  else if 1 <? n then
    nameField ← index fields (n - 1);
    pre ← slice nameField 0 5;
    if negb (String.eqb pre "name=") then
      Ret (mkEvent line "" "" "",
           Some ("unrecognized event format, name field not found: " +:+ line))
    else
      name ← slice nameField 6 (len nameField - 2);
      first ← index fields 0;
      Ret (mkEvent line name (firstField first "/") "", None)
  else
    Ret (mkEvent line "" "" "", Some ("unrecognized event format: " +:+ line)).

(** ** abbreviateEventName *)

Definition abbreviations : list (string * string) :=
  [ ("UNC_CHA_TOR_INSERTS", "UNCCTI");
    ("UNC_CHA_TOR_OCCUPANCY", "UNCCTO");
    ("UNC_CHA_CLOCKTICKS", "UNCCCT");
    ("UNC_M_CAS_COUNT_SCH", "UNCMCC");
    ("IA_MISS_DRD_REMOTE", "IMDR");
    ("IA_MISS_DRD_LOCAL", "IMDL");
    ("IA_MISS_LLCPREFDATA", "IMLP");
    ("IA_MISS_LLCPREFRFO", "IMLR");
    ("IA_MISS_DRD_PREF_LOCAL", "IMDPL");
    ("IA_MISS_DRD_PREF_REMOTE", "IMDRP");
    ("IA_MISS_CRD_PREF", "IMCP");
    ("IA_MISS_RFO_PREF", "IMRP");
    ("IA_MISS_RFO", "IMRF");
    ("IA_MISS_CRD", "IMC");
    ("IA_MISS_DRD", "IMD");
    ("IO_PCIRDCUR", "IPCI");
    ("IO_ITOMCACHENEAR", "IITN");
    ("IO_ITOM", "IITO");
    ("IMD_OPT", "IMDO") ].

(** The loop [for _, abbr := range table { event = Replace(event, ...) }]. *)
Definition abbreviateWith (table : list (string * string)) (event : string)
  : string :=
  fold_left (fun ev abbr => Replace ev (fst abbr) (snd abbr)) table event.

(** [abbreviateEventName] replaces long event names with abbreviations. *)
Definition abbreviateEventName (event : string) : string :=
  abbreviateWith abbreviations event.

(** ** isCollectableEvent *)

Definition pebsEventNames : list string :=
  ["INT_MISC.UNKNOWN_BRANCH_CYCLES"; "UOPS_RETIRED.MS"].

(** The keys of the inventory, as collected by [for k := range m]. *)
Definition deviceTypes (metadata : Metadata) : list string :=
  (map_to_list (UncoreDeviceIDs metadata)).*1.

Definition isOffcore (name : string) : bool :=
  HasPrefix name "OCR" || HasPrefix name "OFFCORE_REQUESTS_OUTSTANDING".

(** [isCollectableEvent] confirms if the given event can be collected on
    the platform.  Each [if ... return] of the source is one branch. *)
Definition isCollectableEvent (event : EventDefinition) (metadata : Metadata)
    (flagScope : Scope) : bool :=
  (* fixed-counter TMA *)
  if negb (SupportsFixedTMA metadata)
     && (String.eqb (Name event) "TOPDOWN.SLOTS"
         || HasPrefix (Name event) "PERF_METRICS.")
  then false
  (* PEBS events *)
  else if negb (SupportsPEBS metadata)
          && slices_Contains pebsEventNames (Name event)
  then false
  (* short-circuit for cpu events that aren't off-core response events *)
  else if String.eqb (Device event) "cpu" && negb (isOffcore (Name event))
  then true
  (* off-core response events *)
  else if String.eqb (Device event) "cpu" && isOffcore (Name event)
  then
    if negb (SupportsOCR metadata && SupportsUncore metadata) then false
    else if processOrCgroup flagScope then false
    else true
  (* uncore events *)
  else if negb (SupportsUncore metadata) && HasPrefix (Name event) "UNC"
  then false
  (* uncore events need their device and the system-wide scope *)
  else if negb (String.eqb (Device event) "cpu")
          && negb (String.eqb (Device event) "")
  then
    if processOrCgroup flagScope then false
    else
      let deviceExists := slices_Contains (deviceTypes metadata) (Device event) in
      if negb deviceExists then false
      else if negb (Contains (Raw event) "umask")
              && negb (Contains (Raw event) "event")
      then false
      else true
  (* event.Device is empty *)
  else if negb (SupportsRefCycles metadata)
          && Contains (Name event) "ref-cycles"
  then false
  else if processOrCgroup flagScope
          && (Contains (Name event) "cstate_"
              || Contains (Name event) "power/energy")
  then false
  else
    let name := firstField (Name event) ":" in
    if negb (Contains (PerfSupportedEvents metadata) name) then false
    else true.

(** ** The regular expression of the expander *)

Module GoRegexp.

(** The pieces a pattern is made of: a literal, a greedy repetition of a
    character class (one or more, zero or more), and the two ends of a
    capture group. *)
Inductive piece : Type :=
| Lit (s : string)
| Plus (cl : ascii -> bool)
| Star (cl : ascii -> bool)
| Open (n : nat)
| Close (n : nat).

Definition Regexp : Type := list piece.

(** Positions recorded so far: group, is-end, offset. *)
Definition marks : Type := list (nat * bool * nat).

Fixpoint dropPrefix (p s : string) : option string :=
  match p, s with
  | EmptyString, _ => Some s
  | String a p', String b s' =>
      if Ascii.eqb a b then dropPrefix p' s' else None
  | String _ _, EmptyString => None
  end.

(** Greedy repetition: the longest run first, then shorter ones. *)
Fixpoint greedy {R : Type} (cl : ascii -> bool)
    (k : string -> nat -> marks -> option R)
    (s : string) (pos : nat) (ms : marks) : option R :=
  match s with
  | EmptyString => k s pos ms
  | String c t =>
      if cl c then
        match greedy cl k t (S pos) ms with
        | Some r => Some r
        | None => k s pos ms
        end
      else k s pos ms
  end.

(** A backtracking run of the pattern at offset [pos]; it answers the
    end offset and the marks of the first match in priority order. *)
Fixpoint exec (prog : Regexp) (s : string) (pos : nat) (ms : marks)
  : option (nat * marks) :=
  match prog with
  | [] => Some (pos, ms)
  | Lit l :: k =>
      match dropPrefix l s with
      | Some rest => exec k rest (pos + String.length l)%nat ms
      | None => None
      end
  | Plus cl :: k =>
      match s with
      | String c t =>
          if cl c then greedy cl (exec k) t (S pos) ms else None
      | EmptyString => None
      end
  | Star cl :: k => greedy cl (exec k) s pos ms
  | Open n :: k => exec k s pos ((n, false, pos) :: ms)
  | Close n :: k => exec k s pos ((n, true, pos) :: ms)
  end.

(** The leftmost match: start offset, end offset, marks. *)
Fixpoint search (prog : Regexp) (s : string) (pos : nat)
  : option (nat * nat * marks) :=
  match exec prog s pos [] with
  | Some (e, ms) => Some (pos, e, ms)
  | None =>
      match s with
      | EmptyString => None
      | String _ t => search prog t (S pos)
      end
  end.

Fixpoint markOf (n : nat) (isEnd : bool) (ms : marks) : nat :=
  match ms with
  | [] => O
  | (m, b, p) :: rest =>
      if Nat.eqb m n && Bool.eqb b isEnd then p else markOf n isEnd rest
  end.

Definition capture (subject : string) (ms : marks) (n : nat) : string :=
  let b := markOf n false ms in
  let e := markOf n true ms in
  String.substring b (e - b) subject.

(** [re.FindStringSubmatch(s)] for a pattern with [groups] capture
    groups: the whole match followed by the captures, or the empty slice
    when there is no match. *)
Definition FindStringSubmatch (groups : nat) (re : Regexp) (s : string)
  : list string :=
  match search re s O with
  | None => []
  | Some (b, e, ms) =>
      String.substring b (e - b) s
      :: List.map (capture s ms) (List.seq 1 groups)
  end.

Definition inRange (lo hi : nat) (c : ascii) : bool :=
  let n := nat_of_ascii c in ((lo <=? n) && (n <=? hi))%nat.

(** [\w] *)
Definition wordClass (c : ascii) : bool :=
  inRange 48 57 c || inRange 65 90 c || inRange 97 122 c
  || Ascii.eqb c "_".

(** [[0-9,a-f,A-F]]: the commas are members of the class. *)
Definition hexClass (c : ascii) : bool :=
  inRange 48 57 c || Ascii.eqb c "," || inRange 97 102 c
  || inRange 65 70 c.

(** [.]: any character but a line feed. *)
Definition dotClass (c : ascii) : bool := negb (Ascii.eqb c "010").

End GoRegexp.

Import GoRegexp.

(** The pattern compiled by [regexp.MustCompile] in [expandUncoreGroups],
    piece by piece: group 1 is a run of word characters; then [/event=];
    group 2 is [0x] and a run of the hexadecimal class; then [,umask=];
    group 3 is [0x], a run of the hexadecimal class and any further
    characters; then [,name='], group 4 of any characters, and a closing
    quote. *)
Definition uncoreRe : Regexp :=
  [ Open 1; Plus wordClass; Close 1;
    Lit "/event=";
    Open 2; Lit "0x"; Plus hexClass; Close 2;
    Lit ",umask=";
    Open 3; Lit "0x"; Plus hexClass; Star dotClass; Close 3;
    Lit ",name='";
    Open 4; Star dotClass; Close 4;
    Lit "'" ].

(** ** expandUncoreGroup *)

(** The body of the inner loop: the rewritten event, or the format error. *)
Definition expandEvent (re : Regexp) (vendor : string) (deviceID : Z)
    (event : EventDefinition) : EventDefinition + error :=
  let m := FindStringSubmatch 4 re (Raw event) in
  if (length m =? 0)%nat then
    inr ("unexpected raw event format: " +:+ Raw event)
  else
    let m1 := nth 1 m "" in
    let m2 := nth 2 m "" in
    let m3 := nth 3 m "" in
    let m4 := nth 4 m "" in
    if String.eqb vendor "AuthenticAMD" then
      let name := m4 in
      inl (mkEvent
             ("amd_" +:+ m1 +:+ "/event=" +:+ m2 +:+ ",umask=" +:+ m3
              +:+ ",name='" +:+ name +:+ "'/")
             name (Device event) "")
    else
      let name := m4 +:+ "." +:+ itoa deviceID in
      inl (mkEvent
             ("uncore_" +:+ m1 +:+ "_" +:+ itoa deviceID +:+ "/event=" +:+ m2
              +:+ ",umask=" +:+ m3 +:+ ",name='" +:+ name +:+ "'/")
             name (Device event) "").

(** The inner loop [for _, event := range group]. *)
Fixpoint expandEvents (re : Regexp) (vendor : string) (deviceID : Z)
    (group : GroupDefinition) (newGroup : GroupDefinition)
  : GroupDefinition + error :=
  match group with
  | [] => inl newGroup
  | event :: rest =>
      match expandEvent re vendor deviceID event with
      | inr err => inr err
      | inl newEvent => expandEvents re vendor deviceID rest (newGroup ++ [newEvent])
      end
  end.

(** The outer loop [for _, deviceID := range ids], with the groups built so
    far. *)
Fixpoint expandIds (group : GroupDefinition) (ids : list Z) (re : Regexp)
    (vendor : string) (groups : list GroupDefinition)
  : list GroupDefinition * option error :=
  match ids with
  | [] => (groups, None)
  | deviceID :: rest =>
      match expandEvents re vendor deviceID group [] with
      | inr err => (groups, Some err)
      | inl newGroup => expandIds group rest re vendor (groups ++ [newGroup])
      end
  end.

(** [expandUncoreGroup] expands a perf event group into a list of groups
    where each group is associated with an uncore device. *)
Definition expandUncoreGroup (group : GroupDefinition) (ids : list Z)
    (re : Regexp) (vendor : string)
  : list GroupDefinition * option error :=
  expandIds group ids re vendor [].

(** ** expandUncoreGroups *)

(** [metadata.UncoreDeviceIDs[device]]: the [nil] slice for a missing key. *)
Definition deviceIDs (metadata : Metadata) (device : string) : list Z :=
  default [] (UncoreDeviceIDs metadata !! device).

(** The loop [for _, group := range groups] with [expandedGroups] so far. *)
Fixpoint expandLoop (metadata : Metadata) (re : Regexp)
    (groups : list GroupDefinition) (expandedGroups : list GroupDefinition)
  : result (list GroupDefinition * option error) :=
  match groups with
  | [] => Ret (expandedGroups, None)
  | group :: rest =>
      first ← index group 0;
      let device := Device first in
      if slices_Contains (deviceTypes metadata) device then
        if (length (deviceIDs metadata device) =? 0)%nat then
          expandLoop metadata re rest expandedGroups
        else
          match expandUncoreGroup group (deviceIDs metadata device) re
                  (Vendor metadata) with
          | (_, Some err) => Ret (expandedGroups, Some err)
          | (newGroups, None) =>
              expandLoop metadata re rest (expandedGroups ++ newGroups)
          end
      else expandLoop metadata re rest (expandedGroups ++ [group])
  end.

(** [expandUncoreGroups] expands groups with uncore events to include
    events for all uncore devices. *)
Definition expandUncoreGroups (groups : list GroupDefinition)
    (metadata : Metadata) : result (list GroupDefinition * option error) :=
  expandLoop metadata uncoreRe groups [].

(** ** The file system the loaders read *)

(** An opened catalog file as [bufio.Scanner] presents it: the texts of
    [scanner.Text()] in order, and the value of [scanner.Err()]. *)
Record File : Type := mkFile {
  Lines : list string;
  ScanErr : option error
}.

(** What reading and decoding one ARM event file gives: [ReadFile] fails,
    [json.Unmarshal] fails, or the records of the JSON array. *)
Inductive ArmFile : Type :=
| Unreadable (err : error)
| Undecodable (err : error)
| Decoded (armEvents : list ARM64Event).

(** An [fs.DirEntry] together with the content behind it. *)
Record DirEntry : Type := mkEntry {
  EntryName : string;
  EntryIsDir : bool;
  EntryFile : ArmFile
}.

(** The operating system ([os]) and the embedded [resources]. *)
Record FileSystem : Type := mkFS {
  os_Open : string -> File + error;
  resources_Open : string -> File + error;
  os_Stat : string -> bool + error;
  os_ReadDir : string -> list DirEntry + error;
  resources_ReadDir : string -> list DirEntry + error
}.

(** [filepath.Join]: the non-empty elements separated by a slash (the
    cleaning of the joined path is not modelled). *)
Fixpoint filepath_Join (elems : list string) : string :=
  match elems with
  | [] => ""
  | e :: rest =>
      if String.eqb e "" then filepath_Join rest
      else match filepath_Join rest with
           | EmptyString => e
           | r => e +:+ "/" +:+ r
           end
  end.

(** [strings.HasSuffix(s, suffix)] *)
Definition HasSuffix (s suffix : string) : bool :=
  (String.length suffix <=? String.length s)%nat
  && String.eqb
       (String.substring (String.length s - String.length suffix)
          (String.length suffix) s)
       suffix.

(** The values a loader returns: [(groups, uncollectableEvents, err)]. *)
Definition Loaded : Type :=
  (list GroupDefinition * list string * option error)%type.

(** ** LoadArmEventGroups *)

Definition lookupArmVariant (metadata : Metadata) : string + error :=
  if String.eqb (Microarchitecture metadata) "Neoverse V2"
  then inl "neoverse-n2-v2"
  else inr ("unknown ARM variant: " +:+ Microarchitecture metadata).

(** The variables the loop over the directory entries updates: [groups],
    the [uncollectable] set and the named result [err]. *)
Record ArmState : Type := mkArmState {
  armGroups : list GroupDefinition;
  armUncollectable : gset string;
  armErr : option error
}.

Definition armEventOf (armEvent : ARM64Event) : EventDefinition :=
  mkEvent (ArchStdEvent armEvent) (ArchStdEvent armEvent) "cpu"
    (PublicDescription armEvent).

(** The loop [for _, armEvent := range armEvents]. *)
Fixpoint armEventsLoop (metadata : Metadata) (flagScope : Scope)
    (armEvents : list ARM64Event) (currentGroup : GroupDefinition)
    (uncollectable : gset string) : GroupDefinition * gset string :=
  match armEvents with
  | [] => (currentGroup, uncollectable)
  | armEvent :: rest =>
      let event := armEventOf armEvent in
      if isCollectableEvent event metadata flagScope
      then armEventsLoop metadata flagScope rest (currentGroup ++ [event])
             uncollectable
      else armEventsLoop metadata flagScope rest currentGroup
             ({[ Name event ]} ∪ uncollectable)
  end.

(** One iteration of [for _, fileEntry := range eventFiles]. *)
Definition armFileStep (metadata : Metadata) (flagScope : Scope)
    (st : ArmState) (fileEntry : DirEntry) : ArmState :=
  if negb (EntryIsDir fileEntry)
     && HasSuffix (ToLower (EntryName fileEntry)) ".json"
  then
    match EntryFile fileEntry with
    | Unreadable err =>
        (* fileData, err = ReadFile(filePath); continue *)
        mkArmState (armGroups st) (armUncollectable st) (Some err)
    | Undecodable err =>
        (* err = json.Unmarshal(fileData, &armEvents); continue *)
        mkArmState (armGroups st) (armUncollectable st) (Some err)
    | Decoded armEvents =>
        let '(currentGroup, uncollectable) :=
          armEventsLoop metadata flagScope armEvents [] (armUncollectable st) in
        if (0 <? length currentGroup)%nat
        then mkArmState (armGroups st ++ [currentGroup]) uncollectable None
        else mkArmState (armGroups st) uncollectable None
    end
  else st.

(** The loop over the directory listing, from the state the prologue
    leaves: no group, an empty set, and [err] nil after a successful
    [ReadDir].  The result [uncollectableEvents] is never assigned. *)
Definition loadArmFiles (metadata : Metadata) (flagScope : Scope)
    (eventFiles : list DirEntry) : Loaded :=
  let st := fold_left (armFileStep metadata flagScope) eventFiles
              (mkArmState [] ∅ None) in
  (armGroups st, [], armErr st).

Definition LoadArmEventGroups (fsys : FileSystem) (flagScope : Scope)
    (eventDefinitionOverridePath : string) (metadata : Metadata) : Loaded :=
  if negb (String.eqb eventDefinitionOverridePath "") then
    match os_Stat fsys eventDefinitionOverridePath with
    | inr statErr =>
        ([], [], Some ("failed to stat eventDefinitionOverridePath '"
                       +:+ eventDefinitionOverridePath +:+ "': " +:+ statErr))
    | inl isDir =>
        if negb isDir then
          ([], [], Some ("ARM64 eventDefinitionOverridePath '"
                         +:+ eventDefinitionOverridePath
                         +:+ "' is not a directory"))
        else
          let eventDirPath := eventDefinitionOverridePath in
          match os_ReadDir fsys eventDirPath with
          | inr err =>
              ([], [], Some ("failed to read override event directory '"
                             +:+ eventDirPath +:+ "': " +:+ err))
          | inl eventFiles => loadArmFiles metadata flagScope eventFiles
          end
    end
  else
    match lookupArmVariant metadata with
    | inr err => ([], [], Some ("failed to lookup ARM variant: " +:+ err))
    | inl microarchitectureVariant =>
        let eventDirPath :=
          filepath_Join ["resources"; "events"; Architecture metadata;
                         microarchitectureVariant] in
        match resources_ReadDir fsys eventDirPath with
        | inr err =>
            ([], [], Some ("failed to read ARM event directory '"
                           +:+ eventDirPath +:+ "': " +:+ err))
        | inl eventFiles => loadArmFiles metadata flagScope eventFiles
        end
    end.

(** ** LoadEventGroups *)

(** The variables of the scanning loop: the flushed [groups], the current
    [group] and the [uncollectable] set. *)
Record ScanState : Type := mkScan {
  scanGroups : list GroupDefinition;
  scanGroup : GroupDefinition;
  scanUncollectable : gset string
}.

(** How the body of the loop leaves: to the next line, or out of the
    function with the error of [parseEventDefinition]. *)
Inductive Step : Type :=
| Next (st : ScanState)
| Abort (groups : list GroupDefinition) (err : error).

(** The two assignments [event.Name = abbreviateEventName(event.Name)] and
    [event.Raw = abbreviateEventName(event.Raw)]. *)
Definition abbreviateEvent (event : EventDefinition) : EventDefinition :=
  mkEvent (abbreviateEventName (Raw event)) (abbreviateEventName (Name event))
    (Device event) (Description event).

(** A line the loop skips: blank after trimming, or a comment. *)
Definition skipped (line : string) : bool :=
  match line with
  | EmptyString => true
  | String c _ => Ascii.eqb c "#"
  end.

(** The body of [for scanner.Scan()], on the text of one line. *)
Definition scanStep (metadata : Metadata) (flagScope : Scope)
    (st : ScanState) (text : string) : result Step :=
  let line := TrimSpace text in
  if skipped line then Ret (Next st)
  else
    record ← slice line 0 (len line - 1);
    parsed ← parseEventDefinition record;
    match parsed with
    | (_, Some err) => Ret (Abort (scanGroups st) err)
    | (event, None) =>
        let event := abbreviateEvent event in
        let st :=
          if isCollectableEvent event metadata flagScope
          then mkScan (scanGroups st) (scanGroup st ++ [event])
                 (scanUncollectable st)
          else mkScan (scanGroups st) (scanGroup st)
                 ({[ Name event ]} ∪ scanUncollectable st) in
        last ← byteAt line (len line - 1);
        if Ascii.eqb last ";" then
          if (0 <? length (scanGroup st))%nat
          then Ret (Next (mkScan (scanGroups st ++ [scanGroup st]) []
                            (scanUncollectable st)))
          else Ret (Next (mkScan (scanGroups st) [] (scanUncollectable st)))
        else Ret (Next st)
    end.

(** The loop [for scanner.Scan()]. *)
Fixpoint scanLoop (metadata : Metadata) (flagScope : Scope)
    (texts : list string) (st : ScanState) : result Step :=
  match texts with
  | [] => Ret (Next st)
  | text :: rest =>
      step ← scanStep metadata flagScope st text;
      match step with
      | Next st' => scanLoop metadata flagScope rest st'
      | Abort groups err => Ret (Abort groups err)
      end
  end.

(** The x86 path of [LoadEventGroups] once the catalog file is open. *)
Definition loadFile (metadata : Metadata) (flagScope : Scope) (file : File)
  : result Loaded :=
  step ← scanLoop metadata flagScope (Lines file) (mkScan [] [] ∅);
  match step with
  | Abort groups err => Ret (groups, [], Some err)
  | Next st =>
      match ScanErr file with
      | Some err => Ret (scanGroups st, [], Some err)
      | None =>
          let uncollectableEvents := elements (scanUncollectable st) in
          expanded ← expandUncoreGroups (scanGroups st) metadata;
          Ret (expanded.1, uncollectableEvents, expanded.2)
      end
  end.

(** The name of the packaged x86 catalog. *)
Definition eventFileName (metadata : Metadata) : string :=
  let uarch := ToLower (firstField (Microarchitecture metadata) "_") in
  let uarch := firstField uarch " " in
  let alternate :=
    if (String.eqb uarch "icx" || String.eqb uarch "spr"
        || String.eqb uarch "emr")
       && negb (SupportsFixedTMA metadata)
    then "_nofixedtma" else "" in
  uarch +:+ alternate +:+ ".txt".

(** The catalog file the x86 path opens: the override file when a path is
    given, the packaged resource otherwise. *)
Definition openCatalog (fsys : FileSystem)
    (eventDefinitionOverridePath : string) (metadata : Metadata)
  : File + error :=
  if negb (String.eqb eventDefinitionOverridePath "")
  then os_Open fsys eventDefinitionOverridePath
  else resources_Open fsys
         (filepath_Join ["resources"; "events"; Architecture metadata;
                         Vendor metadata; eventFileName metadata]).

Definition isArm (metadata : Metadata) : bool :=
  String.eqb (Architecture metadata) "arm64"
  || String.eqb (Architecture metadata) "aarch64".

(** [LoadEventGroups] reads the events defined in the architecture specific
    event definition file, then expands them to include the per-device
    uncore events. *)
Definition LoadEventGroups (fsys : FileSystem) (flagScope : Scope)
    (eventDefinitionOverridePath : string) (metadata : Metadata)
  : result Loaded :=
  if isArm metadata
  then Ret (LoadArmEventGroups fsys flagScope eventDefinitionOverridePath
              metadata)
  else
    match openCatalog fsys eventDefinitionOverridePath metadata with
    | inr err => Ret ([], [], Some err)
    | inl file => loadFile metadata flagScope file
    end.

(** ** transformConditional

    The transformer is specified in section 4.6 of the specification and
    exercised by [TestTransformConditional]; the helpers below serve the
    definition of [transformConditional] that follows them. *)

Module Conditional.

(** A character of an identifier; a keyword is delimited by characters
    that are not. *)
Definition isIdent (c : ascii) : bool := wordClass c.

Definition boundary (c : option ascii) : bool :=
  match c with
  | None => true
  | Some c => negb (isIdent c)
  end.

Definition headOf (s : string) : option ascii :=
  match s with
  | EmptyString => None
  | String c _ => Some c
  end.

(** Is the keyword [kw] at the head of [s], after the character [prev]? *)
Definition keywordAt (kw : string) (prev : option ascii) (s : string) : bool :=
  boundary prev
  && match dropPrefix kw s with
     | Some rest => boundary (headOf rest)
     | None => false
     end.

(** The scan for the innermost [if] token: [best] is the depth and the
    offset of the deepest token met so far, and a token takes its place
    only if it lies deeper, so that the first of the deepest is found. *)
Fixpoint deepestIf (prev : option ascii) (s : string) (depth pos : nat)
    (best : option (nat * nat)) : option (nat * nat) :=
  let best :=
    if keywordAt "if" prev s then
      match best with
      | Some (d, _) => if (d <? depth)%nat then Some (depth, pos) else best
      | None => Some (depth, pos)
      end
    else best in
  match s with
  | EmptyString => best
  | String c t =>
      let depth :=
        if Ascii.eqb c "(" then S depth
        else if Ascii.eqb c ")" then Nat.pred depth
        else depth in
      deepestIf (Some c) t depth (S pos) best
  end.

(** The offset of the [if] token to rewrite: the innermost one. *)
Definition findIf (s : string) : option nat :=
  option_map snd (deepestIf None s 0 0 None).

(** The offset of the [else] token at the parenthesis depth of the [if]:
    [depth] counts the parentheses opened since; a closing parenthesis at
    depth zero ends the scope of the [if]. *)
Fixpoint findElse (prev : option ascii) (s : string) (depth pos : nat)
  : option nat :=
  if Nat.eqb depth 0 && keywordAt "else" prev s then Some pos
  else match s with
       | EmptyString => None
       | String c t =>
           if Ascii.eqb c "(" then findElse (Some c) t (S depth) (S pos)
           else if Ascii.eqb c ")" then
             match depth with
             | O => None
             | S d => findElse (Some c) t d (S pos)
             end
           else findElse (Some c) t depth (S pos)
       end.

(** The offset at which the rewritten span ends: just after the first
    unmatched closing parenthesis, the one that closes the scope of the
    conditional, or the end of the text. *)
Fixpoint scopeEnd (s : string) (depth pos : nat) : nat :=
  match s with
  | EmptyString => pos
  | String c t =>
      if Ascii.eqb c "(" then scopeEnd t (S depth) (S pos)
      else if Ascii.eqb c ")" then
        match depth with
        | O => S pos
        | S d => scopeEnd t d (S pos)
        end
      else scopeEnd t depth (S pos)
  end.

(** Scanning leftwards over the reversed text before the [if]: the number
    of characters back to the nearest unmatched opening parenthesis, or
    to the start of the text. *)
Fixpoint scopeBack (rev : list ascii) (depth n : nat) : nat :=
  match rev with
  | [] => n
  | c :: t =>
      if Ascii.eqb c ")" then scopeBack t (S depth) (S n)
      else if Ascii.eqb c "(" then
        match depth with
        | O => n
        | S d => scopeBack t d (S n)
        end
      else scopeBack t depth (S n)
  end.

(** The blank that sets the rewritten span off from a text next to it. *)
Definition spaceBy (text : string) : string :=
  match text with
  | EmptyString => ""
  | String _ _ => " "
  end.

(** One rewrite, of the innermost [if] token. *)
Definition rewriteFirst (s : string) : option (string + error) :=
  match findIf s with
  | None => None
  | Some idxIf =>
      let before := String.substring 0 idxIf s in
      let afterIf := String.substring (idxIf + 2) (String.length s) s in
      match findElse (Some "f"%char) afterIf 0 0 with
      | None => Some (inr ("if without else in expression: " +:+ s))
      | Some offElse =>
          let condition := TrimSpace (String.substring 0 offElse afterIf) in
          let afterElse :=
            String.substring (offElse + 4) (String.length afterIf) afterIf in
          let endElse := scopeEnd afterElse 0 0 in
          let startThen :=
            (idxIf - scopeBack (List.rev (list_ascii_of_string before)) 0 0)%nat in
          let expression0 := String.substring 0 startThen s in
          let expression1 :=
            TrimRightFunc (String.substring startThen (idxIf - startThen) s)
              IsSpace in
          let expression2 :=
            TrimLeftFunc (String.substring 0 endElse afterElse) IsSpace in
          let expression3 :=
            String.substring endElse (String.length afterElse) afterElse in
          Some (inl (expression0 +:+ spaceBy expression0 +:+ condition
                     +:+ " ? " +:+ expression1 +:+ " : " +:+ expression2
                     +:+ spaceBy expression3 +:+ expression3))
      end
  end.

(** Rewrites repeated while an [if] token is left; each rewrite removes
    one, so [fuel] bounds their number. *)
Fixpoint rewriteAll (fuel : nat) (s : string) : string + error :=
  match fuel with
  | O => inl s
  | S n =>
      match rewriteFirst s with
      | None => inl s
      | Some (inr err) => inr err
      | Some (inl s') => rewriteAll n s'
      end
  end.

End Conditional.

(** Modelled from the spec: [transformConditional], whose definition is not
    among the source files (only [TestTransformConditional] is).  Following
    section 4.6: a formula without an [if] token is returned unchanged; an
    [if] without an [else] at its parenthesis depth is a syntax error; the
    condition is the trimmed text between the two; a conditional inside
    parentheses is rewritten before the one around it.  Where the section
    and the reference outputs of the test differ, the outputs decide: the
    then-operand is the whole text from the start of the enclosing scope
    (the nearest unmatched opening parenthesis, or the start of the
    formula) to the [if], also after a closing parenthesis; the
    else-operand runs through the parenthesis that closes that scope;
    the white space is dropped next to the keywords only, so the
    then-operand keeps the blank that follows the opening parenthesis;
    and one blank sets the rewritten span off from a text before it and
    from a text after it (the extra blanks of the nested reference
    outputs). *)
Definition transformConditional (origIn : string) : string + error :=
  Conditional.rewriteAll (String.length origIn) origIn.

(** ** The perf command *)

(** [strings.Join(elems, sep)] *)
Fixpoint Join (elems : list string) (sep : string) : string :=
  match elems with
  | [] => ""
  | [e] => e
  | e :: rest => e +:+ sep +:+ Join rest sep
  end.

(** A Go [int] of 64 bits: the result of an arithmetic operation wraps
    around. *)
Definition maxInt : Z := 2 ^ 63 - 1.
Definition minInt : Z := - 2 ^ 63.
Definition wrapInt (z : Z) : Z := (z + 2 ^ 63) mod 2 ^ 64 - 2 ^ 63.

(** The double quote that [strconv] puts around the text it could not
    parse (the escaping of special characters in that text is not
    modelled). *)
Definition dquote : string := String (Ascii.ascii_of_nat 34) EmptyString.

(** [strconv.Atoi(s)]: an optional sign and decimal digits; the value with
    a nil error, zero with a syntax error, or the nearest bound with a
    range error. *)
Definition Atoi (s : string) : Z * option error :=
  let parsing := "strconv.Atoi: parsing " +:+ dquote +:+ s +:+ dquote in
  let syntax := Some (parsing +:+ ": invalid syntax") in
  let range := Some (parsing +:+ ": value out of range") in
  let '(negative, digits) :=
    match s with
    | String "-" t => (true, t)
    | String "+" t => (false, t)
    | _ => (false, s)
    end in
  match digits with
  | EmptyString => (0, syntax)
  | _ =>
      match NilEmpty.uint_of_string digits with
      | None => (0, syntax)
      | Some d =>
          let v := if negative : bool then - Z.of_uint d else Z.of_uint d in
          if maxInt <? v then (maxInt, range)
          else if v <? minInt then (minInt, range)
          else (v, None)
      end
  end.

(** The granularity held by the package variable [flagGranularity]. *)
Inductive Granularity : Type :=
| granularitySystem
| granularitySocket
| granularityCPU.

(** The other package variables the command assembly reads. *)
Record Flags : Type := mkFlags {
  flagPerfPrintInterval : Z;
  flagGranularity : Granularity;
  argsApplication : list string;
  flagDuration : Z;
  flagRefresh : Z;
  flagPidList : list string
}.

(** The argument of [-e]: the raw tokens of each group between braces. *)
Definition eventsArgument (eventGroups : list GroupDefinition) : string :=
  "'" +:+ Join (List.map (fun group =>
                            "{" +:+ Join (List.map Raw group) "," +:+ "}")
                  eventGroups) ","
  +:+ "'".

Definition isCgroup (flagScope : Scope) : bool :=
  match flagScope with
  | scopeCgroup => true
  | _ => false
  end.

(** [getPerfCommandArgs] returns the command arguments for the
    [perf stat] command.  The loop that compares the size of each group
    with the available counters only writes to the log and is left out. *)
Definition getPerfCommandArgs (flags : Flags) (flagScope : Scope)
    (pids cgroups : list string) (timeout : Z)
    (eventGroups : list GroupDefinition) (numGPCounters : Z)
  : list string * option error :=
  let args :=
    ["stat"; "-I"; itoa (wrapInt (flagPerfPrintInterval flags * 1000)); "-j"] in
  let args :=
    match flagScope with
    | scopeSystem =>
        let args := args ++ ["-a"] in
        match flagGranularity flags with
        | granularityCPU | granularitySocket => args ++ ["-A"]
        | granularitySystem => args
        end
    | scopeProcess => args ++ ["-p"; Join pids ","]
    | scopeCgroup => args ++ ["--for-each-cgroup"; Join cgroups ","]
    end in
  let args := args ++ ["-e"] in
  let args := args ++ [eventsArgument eventGroups] in
  let args :=
    if (0 <? length (argsApplication flags))%nat then
      (args ++ ["--"]) ++ argsApplication flags
    else if negb (isCgroup flagScope) && negb (timeout =? 0)
    then args ++ ["sleep"; itoa timeout]
    else args in
  (args, None).

(** An [exec.Cmd] as [exec.Command(name, arg...)] makes it. *)
Record Cmd : Type := mkCmd {
  cmdName : string;
  cmdArgs : list string
}.

(** The [duration] that [getPerfCommand] hands on as the timeout. *)
Definition perfDuration (flags : Flags) (flagScope : Scope) : Z :=
  match flagScope with
  | scopeSystem => flagDuration flags
  | scopeProcess =>
      if 0 <? flagDuration flags then flagDuration flags
      else if (length (flagPidList flags) =? 0)%nat then flagRefresh flags
      else 0
  | scopeCgroup => 0
  end.

(** [getPerfCommand] is responsible for assembling the command that will
    be executed to collect event data. *)
Definition getPerfCommand (flags : Flags) (flagScope : Scope)
    (perfPath : string) (eventGroups : list GroupDefinition)
    (pids cids : list string) (numGPCounters : Z)
  : option Cmd * option error :=
  let duration := perfDuration flags flagScope in
  match getPerfCommandArgs flags flagScope pids cids duration eventGroups
          numGPCounters with
  | (_, Some err) => (None, Some ("failed to assemble perf args: " +:+ err))
  | (args, None) => (Some (mkCmd perfPath args), None)
  end.

(** ** getPerfPath *)

(** What [getPerfPath] asks of a [target.Target]: whether it is the local
    one, the output and the error of running [perf --version] on it, its
    temporary directory, and the outcome of pushing a file to it. *)
Record Target : Type := mkTarget {
  IsLocalTarget : bool;
  RunPerfVersion : string * option error;
  GetTempDirectory : string;
  PushFile : string -> string -> option error
}.

(** The test made of the output of [perf --version]: is it version 6.1 or
    later? *)
Definition hasPerf (output : string) (err : option error) : result bool :=
  match err with
  | Some _ => Ret false
  | None =>
      if Contains output "perf version" then
        version ← index (Split (TrimSpace output) " ") 2;
        let versionParts := Split version "." in
        if 2 <=? Z.of_nat (length versionParts) then
          majorText ← index versionParts 0;
          minorText ← index versionParts 1;
          let major := (Atoi majorText).1 in
          let minor := (Atoi minorText).1 in
          Ret ((6 <? major) || ((major =? 6) && (1 <=? minor)))
        else Ret false
      else Ret false
  end.

Section PerfPath.

(** [path.Join] of two elements. *)
Variable path_Join : string -> string -> string.

(** The branch that pushes the local binary to the target. *)
Definition pushPerf (myTarget : Target) (localPerfPath : string)
  : result (string * option error) :=
  let targetTempDir := GetTempDirectory myTarget in
  if String.eqb targetTempDir "" then Panic
  else
    match PushFile myTarget localPerfPath targetTempDir with
    | Some err => Ret ("", Some err)
    | None => Ret (path_Join targetTempDir "perf", None)
    end.

(** [getPerfPath] determines the path to the [perf] binary for the given
    target. *)
Definition getPerfPath (myTarget : Target) (localPerfPath : string)
  : result (string * option error) :=
  if IsLocalTarget myTarget then Ret (localPerfPath, None)
  else
    usable ← hasPerf (RunPerfVersion myTarget).1 (RunPerfVersion myTarget).2;
    if usable : bool then Ret ("perf", None)
    else pushPerf myTarget localPerfPath.

End PerfPath.

(** * The vocabulary of the properties *)

(** ** Predicates *)

(** No long form of the table occurs in the event. *)
Definition noLongForm (table : list (string * string)) (event : string)
  : bool :=
  forallb (fun abbr => negb (Contains event (fst abbr))) table.

(** Every short form is shorter than its long form. *)
Definition shortening (table : list (string * string)) : bool :=
  forallb (fun abbr =>
             (String.length (snd abbr) <? String.length (fst abbr))%nat)
    table.

(** The entries the ARM loop reads: regular files named [*.json]. *)
Definition isJsonFile (fileEntry : DirEntry) : bool :=
  negb (EntryIsDir fileEntry)
  && HasSuffix (ToLower (EntryName fileEntry)) ".json".

(** The error reading and decoding a file leaves in [err]. *)
Definition fileError (file : ArmFile) : option error :=
  match file with
  | Unreadable err | Undecodable err => Some err
  | Decoded _ => None
  end.

(** The raw token of the event fits the pattern. *)
Definition matchesRe (re : Regexp) (event : EventDefinition) : bool :=
  negb (length (FindStringSubmatch 4 re (Raw event)) =? 0)%nat.

(** What one input group becomes in the output of the expansion: itself
    when the device of its first event is not a device type of the
    inventory; otherwise one clone per instance id of that type, in the
    order of the ids. *)
Definition placed (metadata : Metadata) (re : Regexp)
    (group : GroupDefinition) (part : list GroupDefinition) : Prop :=
  exists first, head group = Some first
    /\ if slices_Contains (deviceTypes metadata) (Device first)
       then Forall2 (fun deviceID newGroup =>
                       expandEvents re (Vendor metadata) deviceID group []
                       = inl newGroup)
              (deviceIDs metadata (Device first)) part
       else part = [group].

(** The record a line hands to the parser: the trimmed line without its
    last byte, unless the line is skipped. *)
Definition dataLine (text : string) : option string :=
  let line := TrimSpace text in
  if skipped line then None
  else Some (String.substring 0 (String.length line - 1) line).

(** The event passes the filter. *)
Definition collectable (metadata : Metadata) (flagScope : Scope)
    (event : EventDefinition) : Prop :=
  isCollectableEvent event metadata flagScope = true.

(** [event] is what the scanning loop makes of the line [text]: the parsed
    record with its name and raw token abbreviated. *)
Definition parsedFrom (text : string) (event : EventDefinition) : Prop :=
  exists record parsed,
    dataLine text = Some record
    /\ parseEventDefinition record = Ret (parsed, None)
    /\ event = abbreviateEvent parsed.

(** An event of the catalog: parsed from a line that was read, and
    accepted by the filter. *)
Definition catalogEvent (metadata : Metadata) (flagScope : Scope)
    (seen : string -> Prop) (event : EventDefinition) : Prop :=
  collectable metadata flagScope event
  /\ exists text, seen text /\ parsedFrom text event.

(** The invariant of the scanning loop; [seen] holds of the lines read. *)
Definition scanned (metadata : Metadata) (flagScope : Scope)
    (seen : string -> Prop) (st : ScanState) : Prop :=
  Forall (Forall (catalogEvent metadata flagScope seen)) (scanGroups st)
  /\ Forall (catalogEvent metadata flagScope seen) (scanGroup st)
  /\ forall name, name ∈ scanUncollectable st ->
       exists text event,
         seen text /\ parsedFrom text event /\ Name event = name
         /\ isCollectableEvent event metadata flagScope = false.

(** ** Platforms and catalogs of the examples *)

(** An inventory with two CHA units. *)
Definition chaInventory : gmap string (list Z) := {[ "cha" := [0; 1] ]}.

(** A platform with all capabilities, on which [perf list] reports
    [instructions] and [cycles]. *)
Definition intelMetadata : Metadata :=
  mkMetadata "x86_64" "GenuineIntel" "SPR" true true true true true
    "instructions,cycles" chaInventory.

(** The same platform without the fixed TMA counters. *)
Definition noFixedTMAMetadata : Metadata :=
  mkMetadata "x86_64" "GenuineIntel" "SPR" false true true true true
    "instructions,cycles" chaInventory.

(** The platform of [newArmMetadata("Neoverse V2")]. *)
Definition armMetadata : Metadata :=
  mkMetadata "aarch64" "ARM" "Neoverse V2" false false false false false
    "CPU_CYCLES,CNT_CYCLES" ∅.

(** A well-formed ARM event file. *)
Definition generalJson : DirEntry :=
  mkEntry "general.json" false
    (Decoded [mkArmEvent "CPU_CYCLES" "Counts CPU clock cycles."]).

(** An ARM event file that is not JSON. *)
Definition brokenJson : DirEntry :=
  mkEntry "retired.json" false (Undecodable "unexpected end of JSON input").

(** Embedded resources holding the Neoverse V2 directory with the given
    listing. *)
Definition armResources (eventFiles : list DirEntry) : FileSystem :=
  mkFS (fun _ => inr "file does not exist")
       (fun _ => inr "file does not exist")
       (fun _ => inr "file does not exist")
       (fun _ => inr "file does not exist")
       (fun dir =>
          if String.eqb dir "resources/events/aarch64/neoverse-n2-v2"
          then inl eventFiles else inr "file does not exist").

(** An x86 catalog given as the override file [events.txt]. *)
Definition overrideFile (texts : list string) : FileSystem :=
  mkFS (fun path =>
          if String.eqb path "events.txt" then inl (mkFile texts None)
          else inr "file does not exist")
       (fun _ => inr "file does not exist")
       (fun _ => inr "file does not exist")
       (fun _ => inr "file does not exist")
       (fun _ => inr "file does not exist").

(** A group of two CHA events, as the scan leaves it. *)
Definition chaGroup : GroupDefinition :=
  [ mkEvent "cha/event=0x35,umask=0xc80ffe01,name='UNCCTI.IMC'/"
      "UNCCTI.IMC" "cha" "";
    mkEvent "cha/event=0x1,umask=0x0,name='UNCCCT'/" "UNCCCT" "cha" "" ].

(** The CHA group between two groups of core events, and its expansion. *)
Definition mixedGroups : list GroupDefinition :=
  [ [mkEvent "instructions" "instructions" "" ""];
    chaGroup;
    [mkEvent "cycles" "cycles" "" ""] ].

Definition mixedExpanded : list GroupDefinition :=
  [ [mkEvent "instructions" "instructions" "" ""];
    [ mkEvent "uncore_cha_0/event=0x35,umask=0xc80ffe01,name='UNCCTI.IMC.0'/"
        "UNCCTI.IMC.0" "cha" "";
      mkEvent "uncore_cha_0/event=0x1,umask=0x0,name='UNCCCT.0'/"
        "UNCCCT.0" "cha" "" ];
    [ mkEvent "uncore_cha_1/event=0x35,umask=0xc80ffe01,name='UNCCTI.IMC.1'/"
        "UNCCTI.IMC.1" "cha" "";
      mkEvent "uncore_cha_1/event=0x1,umask=0x0,name='UNCCCT.1'/"
        "UNCCCT.1" "cha" "" ];
    [mkEvent "cycles" "cycles" "" ""] ].


(** * Further vocabulary *)

(** The byte [c] occurs in [s]. *)
Fixpoint hasByte (c : ascii) (s : string) : bool :=
  match s with
  | EmptyString => false
  | String b t => Ascii.eqb b c || hasByte c t
  end.

(** The last element of a slice, [xs[len(xs)-1]]. *)
Definition lastField (fields : list string) : string :=
  List.last fields EmptyString.


(** A row of the table can neither remove nor create the prefix [UNC]:
    neither form begins with [N] or [C], and either none begins with [U]
    or both begin with [UNC]. *)
Definition keepsUNC (abbr : string * string) : bool :=
  match fst abbr, snd abbr with
  | String c _, String d _ =>
      negb (Ascii.eqb c "N") && negb (Ascii.eqb c "C")
      && negb (Ascii.eqb d "N") && negb (Ascii.eqb d "C")
      && ((negb (Ascii.eqb c "U") && negb (Ascii.eqb d "U"))
          || (String.prefix "UNC" (fst abbr) && String.prefix "UNC" (snd abbr)))
  | _, _ => false
  end.


(** Case analysis on the first atomic test of a condition, and on the
    conditions of a chain of [if]s in turn. *)
Ltac split_cond c :=
  lazymatch c with
  | andb ?a _ => split_cond a
  | orb ?a _ => split_cond a
  | negb ?a => split_cond a
  | true => fail
  | false => fail
  | _ => destruct c eqn:?
  end.

Ltac filter_step :=
  match goal with
  | |- context [if ?c then _ else _] =>
      split_cond c; cbn [andb orb negb] in *
  | H : context [if ?c then _ else _] |- _ =>
      split_cond c; cbn [andb orb negb] in *
  end.

Ltac filter_cases := repeat filter_step; try done; try congruence.

(** The capabilities of [big] include those of [small]; the two platforms
    agree on the [perf list] output and on the uncore inventory. *)
Definition capabilitiesLe (small big : Metadata) : Prop :=
  (SupportsFixedTMA small = true -> SupportsFixedTMA big = true)
  /\ (SupportsPEBS small = true -> SupportsPEBS big = true)
  /\ (SupportsOCR small = true -> SupportsOCR big = true)
  /\ (SupportsUncore small = true -> SupportsUncore big = true)
  /\ (SupportsRefCycles small = true -> SupportsRefCycles big = true)
  /\ PerfSupportedEvents small = PerfSupportedEvents big
  /\ UncoreDeviceIDs small = UncoreDeviceIDs big.

(** The same platform with all five capabilities. *)
Definition fullCapabilities (metadata : Metadata) : Metadata :=
  mkMetadata (Architecture metadata) (Vendor metadata)
    (Microarchitecture metadata) true true true true true
    (PerfSupportedEvents metadata) (UncoreDeviceIDs metadata).


(** What a clone keeps of the event it is made from: the device, and a
    raw token that names both fields [event] and [umask] and the clone's
    own name; the description is not carried over. *)
Definition cloneOf (event clone : EventDefinition) : Prop :=
  Device clone = Device event
  /\ Description clone = ""
  /\ Contains (Raw clone) "event" = true
  /\ Contains (Raw clone) "umask" = true
  /\ Contains (Raw clone) (",name='" +:+ Name clone +:+ "'/") = true.

(** The device of the first event of the group is not in the inventory. *)
Definition foreignGroup (metadata : Metadata) (group : GroupDefinition)
  : Prop :=
  exists first, head group = Some first
    /\ slices_Contains (deviceTypes metadata) (Device first) = false.



(** The line closes a group: its last byte, once trimmed, is a
    semicolon. *)
Definition endsGroup (text : string) : bool :=
  let line := TrimSpace text in
  match byteAt line (len line - 1) with
  | Ret c => Ascii.eqb c ";"
  | Panic => false
  end.

(** The group one directory entry contributes to the ARM catalog: the
    records of a decoded [*.json] file that pass the filter, in their
    order, if there is any. *)
Definition armGroupOf (metadata : Metadata) (flagScope : Scope)
    (fileEntry : DirEntry) : option GroupDefinition :=
  if isJsonFile fileEntry then
    match EntryFile fileEntry with
    | Decoded armEvents =>
        let group :=
          List.filter (fun e => isCollectableEvent e metadata flagScope)
            (List.map armEventOf armEvents) in
        if (0 <? length group)%nat then Some group else None
    | _ => None
    end
  else None.

(** The version test passes: 6.1 or later. *)
Definition atLeast61 (major minor : Z) : bool :=
  (6 <? major) || ((major =? 6) && (1 <=? minor)).

(** The line feed that ends the output of a command. *)
Definition newline : string := String "010" EmptyString.

(** The device of an event a loader can return: none, the core, or, in
    the system-wide scope, a device type of the inventory. *)
Definition deviceAllowed (metadata : Metadata) (flagScope : Scope)
    (event : EventDefinition) : Prop :=
  Device event = "" \/ Device event = "cpu"
  \/ (flagScope = scopeSystem
      /\ is_Some (UncoreDeviceIDs metadata !! Device event)).

(** The platform under another microarchitecture label. *)
Definition withMicroarchitecture (metadata : Metadata) (label : string)
  : Metadata :=
  mkMetadata (Architecture metadata) (Vendor metadata) label
    (SupportsFixedTMA metadata) (SupportsPEBS metadata)
    (SupportsOCR metadata) (SupportsUncore metadata)
    (SupportsRefCycles metadata) (PerfSupportedEvents metadata)
    (UncoreDeviceIDs metadata).

(** The name falls under a rule of the filter that rejects by name on a
    platform without the capability: the fixed TMA counters, PEBS, or the
    uncore devices. *)
Definition nameExcluded (metadata : Metadata) (name : string) : bool :=
  negb (SupportsFixedTMA metadata)
  && (String.eqb name "TOPDOWN.SLOTS" || HasPrefix name "PERF_METRICS.")
  || negb (SupportsPEBS metadata) && slices_Contains pebsEventNames name
  || negb (SupportsUncore metadata) && HasPrefix name "UNC".

(** The event is on an uncore device: its device is neither the core nor
    empty. *)
Definition onUncoreDevice (event : EventDefinition) : bool :=
  negb (String.eqb (Device event) "cpu")
  && negb (String.eqb (Device event) "").

(** [clones] is the clone, made by the expansion for one instance id of
    the device type of its first event, of a group of the catalog. *)
Definition cloneOfCatalogGroup (metadata : Metadata) (flagScope : Scope)
    (seen : string -> Prop) (clones : GroupDefinition) : Prop :=
  exists group first deviceID,
    Forall (catalogEvent metadata flagScope seen) group
    /\ head group = Some first
    /\ deviceID ∈ deviceIDs metadata (Device first)
    /\ expandEvents uncoreRe (Vendor metadata) deviceID group [] = inl clones.

(** An ASCII byte that is not white space. *)
Definition graphic (c : ascii) : bool :=
  (byteOf c <? RuneSelf) && negb (asciiSpace (byteOf c)).

(** The text begins, or ends, with such a byte. *)
Definition firstGraphic (s : string) : bool :=
  match s with
  | EmptyString => false
  | String c _ => graphic c
  end.

Definition lastGraphic (s : string) : bool :=
  match String.get (String.length s - 1) s with
  | Some c => graphic c
  | None => false
  end.

(** An operand of a plain conditional: a text without parentheses and
    without the letters of the keyword [if], with no white space at its
    two ends. *)
Definition plainOperand (s : string) : bool :=
  firstGraphic s && lastGraphic s
  && negb (hasByte "(" s) && negb (hasByte ")" s)
  && negb (Contains s "if").

(** The plain conditional [a if b else c], and its text after the [if]. *)
Definition afterPlainIf (b c : string) : string :=
  String " " (b +:+ String " " ("else" +:+ String " " c)).

Definition plainConditional (a b c : string) : string :=
  a +:+ String " " ("if" +:+ afterPlainIf b c).


(** The no-break space U+00A0 and the ideographic space U+3000, in
    UTF-8. *)
Definition noBreakSpace : string := String "194" (String "160" "").
Definition ideographicSpace : string :=
  String "227" (String "128" (String "128" "")).

(** * Properties *)

(** ** Strings *)

Section StringFacts.

Lemma prefix_nil (s : string) : String.prefix "" s = true.
Proof. by destruct s. Qed.

Lemma prefix_length (p s : string) :
  String.prefix p s = true -> (String.length p <= String.length s)%nat.
Proof.
  revert s; induction p as [|a p IH]; intros [|b s]; simpl; try lia; try done.
  destruct (ascii_dec a b); [|done].
  intros H; apply IH in H; lia.
Qed.

Lemma Contains_nil (s : string) : Contains s "" = true.
Proof. destruct s; reflexivity. Qed.

Lemma Contains_cons (c : ascii) (t sub : string) :
  Contains (String c t) sub = false ->
  String.prefix sub (String c t) = false /\ Contains t sub = false.
Proof.
  cbn [Contains]. destruct (String.prefix sub (String c t)); [done|auto].
Qed.

Lemma str_app_cons (c : ascii) (s t : string) :
  String c s +:+ t = String c (s +:+ t).
Proof. reflexivity. Qed.

Lemma str_length_app (s t : string) :
  String.length (s +:+ t) = (String.length s + String.length t)%nat.
Proof.
  induction s as [|c s IH]; [done|].
  rewrite str_app_cons. simpl. by rewrite IH.
Qed.

(** Two texts of one length in front of equal wholes are equal. *)
Lemma str_app_inj_length (a b x y : string) :
  String.length a = String.length b -> a +:+ x = b +:+ y -> a = b /\ x = y.
Proof.
  revert b; induction a as [|c a IH]; intros [|d b]; try done.
  rewrite !str_app_cons. simpl.
  intros Hl Heq. injection Heq as -> Heq. injection Hl as Hl.
  destruct (IH b Hl Heq) as [-> ->]. done.
Qed.

(** A line without the separator is a single field. *)
Lemma Split_absent (s : string) (sep : ascii) :
  Contains s (String sep "") = false -> Split s sep = [s].
Proof.
  induction s as [|c t IH]; [done|].
  intros H. apply Contains_cons in H as [Hp Hc].
  simpl in Hp. cbn [Split].
  destruct (Ascii.eqb_spec c sep) as [->|Hne].
  - destruct (ascii_dec sep sep); [|done]. by rewrite prefix_nil in Hp.
  - by rewrite (IH Hc).
Qed.

Lemma Split_nonempty (s : string) (sep : ascii) : Split s sep <> [].
Proof.
  destruct s as [|c t]; [done|]. cbn [Split].
  destruct (Ascii.eqb c sep); [done|]. by destruct (Split t sep).
Qed.

(** ** Replace *)

Lemma replace_from_absent (old new s : string) :
  Contains s old = false -> replace_from old new O s = s.
Proof.
  induction s as [|c t IH]; [done|].
  intros H. apply Contains_cons in H as [Hp Hc].
  cbn [replace_from]. rewrite Hp. by rewrite (IH Hc).
Qed.

Lemma Replace_absent (s old new : string) :
  Contains s old = false -> Replace s old new = s.
Proof.
  destruct old as [|a old]; [by rewrite Contains_nil|].
  apply replace_from_absent.
Qed.

(** A replacement by a text no longer than the one it replaces never
    lengthens the event; [skip] bytes are dropped first. *)
Lemma replace_from_length (old new : string) (skip : nat) (s : string) :
  (String.length new <= String.length old)%nat ->
  (skip <= String.length s)%nat ->
  (String.length (replace_from old new skip s) + skip <= String.length s)%nat.
Proof.
  intros Hn. revert skip.
  induction s as [|c t IH]; intros skip Hk; [simpl in *; lia|].
  destruct skip as [|k]; cbn [replace_from].
  - destruct (String.prefix old (String c t)) eqn:Hp.
    + apply prefix_length in Hp. cbn [String.length] in *.
      rewrite str_length_app.
      pose proof (IH (Nat.pred (String.length old)) ltac:(lia)). lia.
    + cbn [String.length] in *. pose proof (IH O ltac:(lia)). lia.
  - cbn [String.length] in *. pose proof (IH k ltac:(lia)). lia.
Qed.

(** A replacement by a shorter text shortens an event that holds the
    long form. *)
Lemma replace_from_shorter (old new s : string) :
  (String.length new < String.length old)%nat ->
  Contains s old = true ->
  (String.length (replace_from old new O s) < String.length s)%nat.
Proof.
  intros Hn. induction s as [|c t IH]; intros H.
  - simpl in H. destruct old; simpl in *; [lia|done].
  - cbn [Contains] in H. cbn [replace_from].
    destruct (String.prefix old (String c t)) eqn:Hp.
    + apply prefix_length in Hp. cbn [String.length] in *.
      rewrite str_length_app.
      pose proof (replace_from_length old new
                    (Nat.pred (String.length old)) t ltac:(lia) ltac:(lia)).
      lia.
    + cbn [String.length]. specialize (IH H). lia.
Qed.

End StringFacts.

(** ** The abbreviation table *)

Section Abbreviation.

Lemma abbreviateWith_fixed (table : list (string * string)) (event : string) :
  noLongForm table event = true -> abbreviateWith table event = event.
Proof.
  induction table as [|[old new] table IH]; [done|].
  cbn [noLongForm forallb fst]. intros [Hc Hrest]%andb_prop.
  apply negb_true_iff in Hc.
  unfold abbreviateWith. cbn [fold_left fst snd].
  rewrite (Replace_absent _ _ _ Hc). apply IH, Hrest.
Qed.

Lemma Replace_length (s old new : string) :
  (String.length new < String.length old)%nat ->
  (String.length (Replace s old new) <= String.length s)%nat.
Proof.
  intros Hn. destruct old as [|a old]; [simpl in Hn; lia|].
  unfold Replace.
  pose proof (replace_from_length (String a old) new O s
                ltac:(lia) ltac:(lia)). lia.
Qed.

Lemma abbreviateWith_length (table : list (string * string)) (event : string) :
  shortening table = true ->
  (String.length (abbreviateWith table event) <= String.length event)%nat.
Proof.
  revert event. induction table as [|[old new] table IH]; intros event;
    [simpl; lia|].
  cbn [shortening forallb fst snd]. intros [Hn Hrest]%andb_prop.
  apply Nat.ltb_lt in Hn.
  unfold abbreviateWith. cbn [fold_left fst snd].
  pose proof (IH (Replace event old new) Hrest) as H1.
  pose proof (Replace_length event old new Hn). unfold abbreviateWith in H1.
  lia.
Qed.

Lemma abbreviateWith_shorter (table : list (string * string)) (event : string) :
  shortening table = true ->
  noLongForm table event = false ->
  (String.length (abbreviateWith table event) < String.length event)%nat.
Proof.
  revert event. induction table as [|[old new] table IH]; intros event;
    [done|].
  cbn [shortening noLongForm forallb fst snd].
  intros [Hn Hrest]%andb_prop Hno. apply Nat.ltb_lt in Hn.
  unfold abbreviateWith. cbn [fold_left fst snd].
  destruct (Contains event old) eqn:Hc.
  - pose proof (abbreviateWith_length table (Replace event old new) Hrest) as H1.
    unfold abbreviateWith in H1.
    assert (String.length (Replace event old new) < String.length event)%nat.
    { destruct old as [|a old]; [simpl in Hn; lia|].
      by apply replace_from_shorter. }
    lia.
  - rewrite (Replace_absent _ _ _ Hc). apply IH; [done|]. exact Hno.
Qed.

(** The events one pass leaves alone are those without a long form. *)
Lemma abbreviateWith_fixed_iff (table : list (string * string)) (event : string) :
  shortening table = true ->
  abbreviateWith table event = event <-> noLongForm table event = true.
Proof.
  intros Hs. split; [|apply abbreviateWith_fixed].
  intros Heq. destruct (noLongForm table event) eqn:Hno; [done|].
  pose proof (abbreviateWith_shorter table event Hs Hno) as Hlt.
  rewrite Heq in Hlt. lia.
Qed.

End Abbreviation.

(** C8 (as stated, refuted): abbreviating twice differs from abbreviating
    once on [IO_PCIRDCURA_MISS_RFO]: the first pass gives [IPCIA_MISS_RFO],
    in which the short form [IPCI] and the text after it make up the long
    form [IA_MISS_RFO] of an earlier row, and the second pass gives
    [IPCIMRF]. *)
Lemma abbreviateEventName_not_idempotent :
  abbreviateEventName "IO_PCIRDCURA_MISS_RFO" = "IPCIA_MISS_RFO"
  /\ abbreviateEventName (abbreviateEventName "IO_PCIRDCURA_MISS_RFO")
     = "IPCIMRF"
  /\ abbreviateEventName (abbreviateEventName "IO_PCIRDCURA_MISS_RFO")
     <> abbreviateEventName "IO_PCIRDCURA_MISS_RFO".
Proof. repeat split; try by vm_compute. Qed.

(** C8 (amended): applying the abbreviation twice gives the same result as
    once exactly for the inputs whose abbreviation holds no long form of
    the table. *)
Theorem abbreviateEventName_idempotent_iff (s : string) :
  abbreviateEventName (abbreviateEventName s) = abbreviateEventName s
  <-> noLongForm abbreviations (abbreviateEventName s) = true.
Proof. apply abbreviateWith_fixed_iff. by vm_compute. Qed.

(** ** parseEventDefinition *)

(** C9: a line without a comma is a single-field record: the parse
    succeeds with [Name] and [Raw] equal to the line and an empty
    [Device]. *)
Theorem parseEventDefinition_single_field (line : string) :
  Contains line "," = false ->
  parseEventDefinition line = Ret (mkEvent line line "" "", None).
Proof.
  intros H. unfold parseEventDefinition.
  rewrite (Split_absent line "," H). reflexivity.
Qed.

Lemma parseEventDefinition_single_field_witness :
  Contains "instructions" "," = false
  /\ parseEventDefinition "instructions"
     = Ret (mkEvent "instructions" "instructions" "" "", None).
Proof.
  split; [reflexivity|].
  apply parseEventDefinition_single_field. reflexivity.
Defined.

(** The slice [nameField[:5]] of a last field shorter than five bytes
    panics, whatever the other fields are. *)
Lemma slice_short_panics (nameField : string) :
  len nameField < 5 -> slice nameField 0 5 = Panic.
Proof.
  intros H. unfold slice.
  destruct (5 <=? len nameField) eqn:E; [lia|].
  by rewrite andb_false_r.
Qed.

(** The slice [nameField[6:len-2]] panics below eight bytes. *)
Lemma slice_name_panics (nameField : string) :
  len nameField < 8 -> slice nameField 6 (len nameField - 2) = Panic.
Proof.
  intros H. unfold slice.
  destruct (6 <=? len nameField - 2) eqn:E; [lia|].
  by rewrite andb_false_r.
Qed.

(** C10: the parse is not total on lines of several fields: on ["a,b"] the
    last field ["b"] is shorter than the five bytes of [nameField[:5]], and
    on ["a,name="] the last field passes the prefix test and is too short
    for [nameField[6:len-2]]; both calls panic instead of returning the
    format error. *)
Theorem parseEventDefinition_panics :
  (Split "a,b" "," = ["a"; "b"] /\ slice "b" 0 5 = Panic
   /\ parseEventDefinition "a,b" = Panic)
  /\ (Split "a,name=" "," = ["a"; "name="]
      /\ slice "name=" 0 5 = Ret "name="
      /\ slice "name=" 6 (len "name=" - 2) = Panic
      /\ parseEventDefinition "a,name=" = Panic).
Proof. repeat split; reflexivity. Qed.

(** ** isCollectableEvent *)

Section Filter.

Variable metadata : Metadata.

Lemma deviceTypes_spec (device : string) :
  slices_Contains (deviceTypes metadata) device = true
  <-> is_Some (UncoreDeviceIDs metadata !! device).
Proof.
  unfold slices_Contains, deviceTypes. rewrite existsb_exists. split.
  - intros (d & Hin & Heq). apply String.eqb_eq in Heq as <-.
    apply list_elem_of_In, list_elem_of_fmap in Hin as ([k v] & -> & Hkv).
    apply elem_of_map_to_list in Hkv. by exists v.
  - intros [v Hv]. exists device. split; [|apply String.eqb_refl].
    apply list_elem_of_In, list_elem_of_fmap. exists (device, v).
    split; [done|]. by apply elem_of_map_to_list.
Qed.

(** An event on a device other than the core is rejected in the
    per-process and per-cgroup scopes, whatever its raw token. *)
Lemma uncore_rejected_outside_system (event : EventDefinition)
    (flagScope : Scope) :
  Device event <> "" -> Device event <> "cpu" ->
  processOrCgroup flagScope = true ->
  isCollectableEvent event metadata flagScope = false.
Proof.
  intros Hne Hncpu Hscope. unfold isCollectableEvent.
  apply String.eqb_neq in Hne, Hncpu. rewrite Hne, Hncpu, Hscope. simpl.
  repeat match goal with |- context [if ?b then _ else _] => destruct b end;
    reflexivity.
Qed.

(** In the system-wide scope such an event is accepted only if its
    device is in the inventory and its raw token holds ["umask"] or
    ["event"]: one of the two is enough. *)
Lemma uncore_accepted_system (event : EventDefinition) :
  Device event <> "" -> Device event <> "cpu" ->
  isCollectableEvent event metadata scopeSystem = true ->
  slices_Contains (deviceTypes metadata) (Device event) = true
  /\ Contains (Raw event) "umask" || Contains (Raw event) "event" = true.
Proof.
  intros Hne Hncpu. unfold isCollectableEvent.
  apply String.eqb_neq in Hne, Hncpu. rewrite Hne, Hncpu. simpl.
  destruct (slices_Contains (deviceTypes metadata) (Device event));
    destruct (Contains (Raw event) "umask");
    destruct (Contains (Raw event) "event"); simpl;
    repeat match goal with |- context [if ?b then _ else _] => destruct b end;
    done.
Qed.

End Filter.

(** C1 (the filter at the failing input): in the system-wide scope, with
    the device [cha] in the inventory, an event whose raw token holds
    ["umask"] and no ["event"] is accepted: the test of the source rejects
    only a token that lacks both. *)
Theorem isCollectableEvent_accepts_umask_alone :
  let event := mkEvent "cha/umask=0x1,name='X'/" "X" "cha" "" in
  parseEventDefinition "cha/umask=0x1,name='X'/" = Ret (event, None)
  /\ slices_Contains (deviceTypes intelMetadata) (Device event) = true
  /\ Contains (Raw event) "umask" = true
  /\ Contains (Raw event) "event" = false
  /\ isCollectableEvent event intelMetadata scopeSystem = true.
Proof. repeat split; vm_compute; reflexivity. Qed.

(** The event the filter accepted without an ["event"] field does not fit
    the pattern of the expander, which then fails the expansion. *)
Lemma umask_alone_fails_expansion :
  expandUncoreGroups [[mkEvent "cha/umask=0x1,name='X'/" "X" "cha" ""]]
    intelMetadata
  = Ret ([], Some "unexpected raw event format: cha/umask=0x1,name='X'/").
Proof. vm_compute. reflexivity. Qed.

(** ** LoadArmEventGroups *)

Section ArmLoader.

Variables (metadata : Metadata) (flagScope : Scope).

Lemma armFileStep_err (st : ArmState) (fileEntry : DirEntry) :
  armErr (armFileStep metadata flagScope st fileEntry)
  = if isJsonFile fileEntry then fileError (EntryFile fileEntry)
    else armErr st.
Proof.
  unfold armFileStep, isJsonFile.
  destruct (negb (EntryIsDir fileEntry)
            && HasSuffix (ToLower (EntryName fileEntry)) ".json"); [|done].
  destruct (EntryFile fileEntry) as [err|err|armEvents]; try done.
  destruct (armEventsLoop _ _ _ _ _) as [currentGroup uncollectable].
  by destruct (0 <? length currentGroup)%nat.
Qed.

(** The error the loader returns is the one of the last [*.json] file of
    the listing: a failure is forgotten only when a later file is read. *)
Lemma loadArmFiles_err_last (eventFiles : list DirEntry)
    (fileEntry : DirEntry) :
  isJsonFile fileEntry = true ->
  (loadArmFiles metadata flagScope (eventFiles ++ [fileEntry])).2
  = fileError (EntryFile fileEntry).
Proof.
  intros Hj. unfold loadArmFiles. rewrite fold_left_app. cbn [fold_left snd].
  by rewrite armFileStep_err, Hj.
Qed.

(** The events the inner loop keeps satisfy the filter. *)
Lemma armEventsLoop_collectable (armEvents : list ARM64Event)
    (currentGroup : GroupDefinition) (uncollectable : gset string) :
  Forall (fun e => isCollectableEvent e metadata flagScope = true)
    currentGroup ->
  Forall (fun e => isCollectableEvent e metadata flagScope = true)
    (armEventsLoop metadata flagScope armEvents currentGroup uncollectable).1.
Proof.
  revert currentGroup uncollectable.
  induction armEvents as [|armEvent rest IH]; intros g u Hg; [done|].
  cbn [armEventsLoop].
  destruct (isCollectableEvent (armEventOf armEvent) metadata flagScope)
    eqn:Hc.
  - apply IH. apply Forall_app. split; [done|]. by constructor.
  - by apply IH.
Qed.

Lemma armFileStep_collectable (st : ArmState) (fileEntry : DirEntry) :
  Forall (Forall (fun e => isCollectableEvent e metadata flagScope = true))
    (armGroups st) ->
  Forall (Forall (fun e => isCollectableEvent e metadata flagScope = true))
    (armGroups (armFileStep metadata flagScope st fileEntry)).
Proof.
  intros Hst. unfold armFileStep.
  destruct (negb (EntryIsDir fileEntry)
            && HasSuffix (ToLower (EntryName fileEntry)) ".json"); [|done].
  destruct (EntryFile fileEntry) as [err|err|armEvents]; try done.
  pose proof (armEventsLoop_collectable armEvents [] (armUncollectable st)
                ltac:(constructor)) as Hg.
  destruct (armEventsLoop _ _ _ _ _) as [currentGroup uncollectable].
  destruct (0 <? length currentGroup)%nat; [|done].
  cbn [armGroups]. apply Forall_app. split; [done|]. by constructor.
Qed.

Lemma loadArmFiles_collectable (eventFiles : list DirEntry) :
  Forall (Forall (fun e => isCollectableEvent e metadata flagScope = true))
    (loadArmFiles metadata flagScope eventFiles).1.1.
Proof.
  unfold loadArmFiles. cbn [fst].
  assert (forall st,
    Forall (Forall (fun e => isCollectableEvent e metadata flagScope = true))
      (armGroups st) ->
    Forall (Forall (fun e => isCollectableEvent e metadata flagScope = true))
      (armGroups (fold_left (armFileStep metadata flagScope) eventFiles st)))
    as H.
  { induction eventFiles as [|f fs IH]; intros st Hst; [done|].
    cbn [fold_left]. by apply IH, armFileStep_collectable. }
  apply H. constructor.
Qed.

Lemma loadArmFiles_uncollectable (eventFiles : list DirEntry) :
  (loadArmFiles metadata flagScope eventFiles).1.2 = [].
Proof. reflexivity. Qed.

End ArmLoader.

(** C2 (the loader at the failing input): with the undecodable file last
    in the listing, the load returns the group of the well-formed file
    together with the decoding error of the bad one; with the same two
    files in the other order it returns the same group and no error. *)
Theorem LoadArmEventGroups_keeps_last_error :
  LoadEventGroups (armResources [generalJson; brokenJson]) scopeSystem ""
    armMetadata
  = Ret ([[mkEvent "CPU_CYCLES" "CPU_CYCLES" "cpu" "Counts CPU clock cycles."]],
         [], Some "unexpected end of JSON input")
  /\ LoadEventGroups (armResources [brokenJson; generalJson]) scopeSystem ""
       armMetadata
     = Ret ([[mkEvent "CPU_CYCLES" "CPU_CYCLES" "cpu"
                "Counts CPU clock cycles."]],
            [], None).
Proof. split; vm_compute; reflexivity. Qed.

(** ** expandUncoreGroup *)

Lemma itoa_inj (a b : Z) : itoa a = itoa b -> a = b.
Proof.
  unfold itoa. intros H. apply DecimalZ.to_int_inj.
  apply (f_equal NilEmpty.int_of_string) in H.
  rewrite !NilEmpty.isi in H. congruence.
Qed.

Lemma index_head {A : Type} (x : A) (xs : list A) : index (x :: xs) 0 = Ret x.
Proof.
  unfold index.
  destruct (Z.ltb_spec 0 (Z.of_nat (length (x :: xs)))) as [_|Hle];
    [reflexivity|].
  cbn [length] in Hle. lia.
Qed.

Section Expander.

Variables (re : Regexp) (vendor : string).

Lemma expandEvent_matches (deviceID : Z) (event : EventDefinition) :
  matchesRe re event = true ->
  exists newEvent, expandEvent re vendor deviceID event = inl newEvent.
Proof.
  unfold matchesRe, expandEvent. intros H%negb_true_iff. rewrite H.
  destruct (String.eqb vendor "AuthenticAMD"); eauto.
Qed.

Lemma expandEvent_inl (deviceID : Z) (event newEvent : EventDefinition) :
  expandEvent re vendor deviceID event = inl newEvent ->
  matchesRe re event = true.
Proof.
  unfold matchesRe, expandEvent.
  by destruct (length (FindStringSubmatch 4 re (Raw event)) =? 0)%nat.
Qed.

(** The inner loop rewrites the events one by one, in order. *)
Lemma expandEvents_inl (deviceID : Z) (group newGroup acc : GroupDefinition) :
  expandEvents re vendor deviceID group acc = inl newGroup ->
  exists clones,
    newGroup = acc ++ clones
    /\ Forall2 (fun event newEvent =>
                  expandEvent re vendor deviceID event = inl newEvent)
         group clones.
Proof.
  revert acc. induction group as [|event rest IH]; intros acc; cbn [expandEvents].
  - intros [= <-]. exists []. by rewrite app_nil_r.
  - destruct (expandEvent re vendor deviceID event) as [newEvent|err] eqn:He;
      [|done].
    intros (clones & -> & Hc)%IH. exists (newEvent :: clones).
    rewrite <- app_assoc. split; [done|]. by constructor.
Qed.

Lemma expandEvents_matches (deviceID : Z) (group acc : GroupDefinition) :
  Forall (fun e => matchesRe re e = true) group ->
  exists newGroup, expandEvents re vendor deviceID group acc = inl newGroup.
Proof.
  revert acc. induction group as [|event rest IH]; intros acc Hm;
    cbn [expandEvents]; [eauto|].
  apply Forall_cons in Hm as [Hm Hrest].
  destruct (expandEvent_matches deviceID event Hm) as [newEvent ->].
  by apply IH.
Qed.

(** The outer loop, when it ends without an error, has appended one
    clone per device id, in the order of the ids. *)
Lemma expandIds_None (group : GroupDefinition) (ids : list Z)
    (acc out : list GroupDefinition) :
  expandIds group ids re vendor acc = (out, None) ->
  exists clones,
    out = acc ++ clones
    /\ Forall2 (fun deviceID newGroup =>
                  expandEvents re vendor deviceID group [] = inl newGroup)
         ids clones.
Proof.
  revert acc. induction ids as [|deviceID rest IH]; intros acc; cbn [expandIds].
  - intros [= <-]. exists []. by rewrite app_nil_r.
  - destruct (expandEvents re vendor deviceID group []) as [newGroup|err] eqn:He;
      [|done].
    intros (clones & -> & Hc)%IH. exists (newGroup :: clones).
    rewrite <- app_assoc. split; [done|]. by constructor.
Qed.

Lemma expandIds_matches (group : GroupDefinition) (ids : list Z)
    (acc : list GroupDefinition) :
  Forall (fun e => matchesRe re e = true) group ->
  exists out, expandIds group ids re vendor acc = (out, None).
Proof.
  intros Hm. revert acc. induction ids as [|deviceID rest IH]; intros acc;
    cbn [expandIds]; [eauto|].
  destruct (expandEvents_matches deviceID group [] Hm) as [newGroup ->].
  apply IH.
Qed.

(** The two clones of one event for two device ids, outside AMD, differ
    in name and in raw token. *)
Lemma expandEvent_distinct (a b : Z) (event ea eb : EventDefinition) :
  vendor <> "AuthenticAMD" -> a <> b ->
  expandEvent re vendor a event = inl ea ->
  expandEvent re vendor b event = inl eb ->
  Name ea <> Name eb /\ Raw ea <> Raw eb.
Proof.
  intros Hv%String.eqb_neq Hab. unfold expandEvent.
  destruct (length (FindStringSubmatch 4 re (Raw event)) =? 0)%nat; [done|].
  rewrite Hv. intros [= <-] [= <-]. cbn [Name Raw]. split.
  - intros H. do 2 apply String.app_inj in H. by apply itoa_inj in H.
  - intros H. do 3 apply String.app_inj in H.
    assert (String.length (itoa a) = String.length (itoa b)) as Hl.
    { apply (f_equal String.length) in H. rewrite !str_length_app in H.
      cbn [String.length] in H. lia. }
    by destruct (str_app_inj_length _ _ _ _ Hl H) as [?%itoa_inj _].
Qed.

(** Under AMD the device id does not enter the clone. *)
Lemma expandEvent_amd (a b : Z) (event : EventDefinition) :
  vendor = "AuthenticAMD" ->
  expandEvent re vendor a event = expandEvent re vendor b event.
Proof. intros ->. reflexivity. Qed.

Lemma expandEvents_amd (a b : Z) (group acc : GroupDefinition) :
  vendor = "AuthenticAMD" ->
  expandEvents re vendor a group acc = expandEvents re vendor b group acc.
Proof.
  intros Hv. revert acc. induction group as [|event rest IH]; intros acc;
    cbn [expandEvents]; [done|].
  rewrite (expandEvent_amd a b event Hv).
  destruct (expandEvent re vendor b event); [apply IH|done].
Qed.

End Expander.

(** C5 (as stated, refuted): for the vendor [AuthenticAMD] the two clones of
    a group for the device ids 0 and 1 are the same group, with the same
    names and raw tokens. *)
Lemma expandUncoreGroup_amd_clones_equal :
  expandUncoreGroup
    [mkEvent "df/event=0x1f,umask=0x7fe,name='local_socket_outbound'/"
       "local_socket_outbound" "df" ""]
    [0; 1] uncoreRe "AuthenticAMD"
  = (let clone :=
       [mkEvent "amd_df/event=0x1f,umask=0x7fe,name='local_socket_outbound'/"
          "local_socket_outbound" "df" ""] in
     [clone; clone], None).
Proof. vm_compute. reflexivity. Qed.

(** C5 (amended): for a group whose raw tokens all fit the pattern and [k]
    instance ids, for every vendor, [expandUncoreGroup] returns exactly [k]
    groups without an error, each with as many events as the input group;
    for a vendor other than AMD and distinct ids, the two clones of any
    event in two different output groups differ in name and in raw token;
    for AMD all output groups are equal. *)
Theorem expandUncoreGroup_clones (group : GroupDefinition) (ids : list Z)
    (re : Regexp) (vendor : string) :
  Forall (fun e => matchesRe re e = true) group ->
  exists groups,
    expandUncoreGroup group ids re vendor = (groups, None)
    /\ length groups = length ids
    /\ Forall (fun g => length g = length group) groups
    /\ (vendor <> "AuthenticAMD" -> NoDup ids ->
        forall (i j p : nat) (gi gj : GroupDefinition) (ei ej : EventDefinition),
          i <> j -> groups !! i = Some gi -> groups !! j = Some gj ->
          gi !! p = Some ei -> gj !! p = Some ej ->
          Name ei <> Name ej /\ Raw ei <> Raw ej)
    /\ (vendor = "AuthenticAMD" ->
        forall gi gj, gi ∈ groups -> gj ∈ groups -> gi = gj).
Proof.
  intros Hm. unfold expandUncoreGroup.
  destruct (expandIds_matches re vendor group ids [] Hm) as [groups Hg].
  exists groups. split; [done|].
  apply expandIds_None in Hg as (clones & -> & Hc). cbn [app].
  assert (forall deviceID newGroup,
            expandEvents re vendor deviceID group [] = inl newGroup ->
            Forall2 (fun event newEvent =>
                       expandEvent re vendor deviceID event = inl newEvent)
              group newGroup) as Hev.
  { intros deviceID newGroup (cl & -> & H)%expandEvents_inl. done. }
  split; [symmetry; by eapply Forall2_length|].
  split; [|split].
  - apply Forall_lookup. intros i g Hi.
    destruct (Forall2_lookup_r _ _ _ _ _ Hc Hi) as (deviceID & _ & He).
    symmetry. eapply Forall2_length, Hev, He.
  - intros Hv Hnd i j p gi gj ei ej Hij Hi Hj Hpi Hpj.
    destruct (Forall2_lookup_r _ _ _ _ _ Hc Hi) as (a & Ha & Hea).
    destruct (Forall2_lookup_r _ _ _ _ _ Hc Hj) as (b & Hb & Heb).
    assert (a <> b) as Hab.
    { intros ->. apply Hij. eapply NoDup_lookup; eauto. }
    destruct (Forall2_lookup_r _ _ _ _ _ (Hev _ _ Hea) Hpi) as (e & He & Hei).
    destruct (Forall2_lookup_r _ _ _ _ _ (Hev _ _ Heb) Hpj) as (e' & He' & Hej).
    assert (e' = e) as -> by congruence.
    eapply expandEvent_distinct; eauto.
  - intros Hv gi gj Hi Hj.
    apply list_elem_of_lookup in Hi as [i Hi], Hj as [j Hj].
    destruct (Forall2_lookup_r _ _ _ _ _ Hc Hi) as (a & _ & Hea).
    destruct (Forall2_lookup_r _ _ _ _ _ Hc Hj) as (b & _ & Heb).
    rewrite (expandEvents_amd re vendor a b group [] Hv) in Hea. congruence.
Qed.

Lemma expandUncoreGroup_clones_witness :
  exists groups,
    expandUncoreGroup chaGroup [0; 1] uncoreRe "GenuineIntel" = (groups, None)
    /\ length groups = 2%nat
    /\ Forall (fun g => length g = 2%nat) groups.
Proof.
  destruct (expandUncoreGroup_clones chaGroup [0; 1] uncoreRe "GenuineIntel")
    as (groups & Hg & Hl & Hn & _).
  - repeat constructor.
  - exists groups. auto.
Defined.

(** ** expandUncoreGroups *)

Section Expansion.

Variable metadata : Metadata.

Lemma expandLoop_None (re : Regexp) (groups acc out : list GroupDefinition) :
  expandLoop metadata re groups acc = Ret (out, None) ->
  exists parts,
    Forall2 (placed metadata re) groups parts /\ out = acc ++ concat parts.
Proof.
  revert acc. induction groups as [|group rest IH]; intros acc;
    cbn [expandLoop].
  - intros [= <-]. exists []. split; [constructor|]. by rewrite app_nil_r.
  - destruct group as [|first tl]; [done|].
    rewrite index_head. cbn [mbind result_bind].
    destruct (slices_Contains (deviceTypes metadata) (Device first)) eqn:Hd.
    + destruct (length (deviceIDs metadata (Device first)) =? 0)%nat eqn:Hk.
      * intros (parts & Hp & ->)%IH. exists ([] :: parts).
        split; [|done]. constructor; [|done].
        exists first. split; [done|]. rewrite Hd.
        apply Nat.eqb_eq in Hk.
        destruct (deviceIDs metadata (Device first)); [constructor|done].
      * destruct (expandUncoreGroup _ _ _ _) as [newGroups [err|]] eqn:He;
          [done|].
        apply expandIds_None in He as (clones & -> & Hc).
        intros (parts & Hp & ->)%IH. exists (clones :: parts).
        split; [|by rewrite <- app_assoc].
        constructor; [|done].
        exists first. split; [done|]. by rewrite Hd.
    + intros (parts & Hp & ->)%IH. exists ([first :: tl] :: parts).
      split; [|by rewrite <- app_assoc].
      constructor; [|done].
      exists first. split; [done|]. by rewrite Hd.
Qed.

(** The expansion goes through when no group is empty and the raw tokens
    of the groups to be cloned fit the pattern. *)
Lemma expandLoop_total (re : Regexp) (groups acc : list GroupDefinition) :
  Forall (fun group => exists first, head group = Some first
            /\ (slices_Contains (deviceTypes metadata) (Device first) = true
                -> Forall (fun e => matchesRe re e = true) group)) groups ->
  exists out, expandLoop metadata re groups acc = Ret (out, None).
Proof.
  revert acc. induction groups as [|group rest IH]; intros acc Hg;
    cbn [expandLoop]; [eauto|].
  apply Forall_cons in Hg as [(first & Hf & Hm) Hrest].
  destruct group as [|first' tl]; [done|]. injection Hf as ->.
  rewrite index_head. cbn [mbind result_bind].
  destruct (slices_Contains (deviceTypes metadata) (Device first)) eqn:Hd;
    [|by apply IH].
  destruct (length (deviceIDs metadata (Device first)) =? 0)%nat;
    [by apply IH|].
  unfold expandUncoreGroup.
  destruct (expandIds_matches re (Vendor metadata) (first :: tl)
              (deviceIDs metadata (Device first)) [] (Hm eq_refl))
    as [newGroups ->].
  by apply IH.
Qed.

End Expansion.

(** C7: when [expandUncoreGroups] returns without an error, its output is
    the concatenation, in the order of the input, of one part per input
    group: the group itself, unchanged, when the device of its first event
    is not a device type of the inventory, and otherwise its clones, one
    per instance id in the order of the inventory. *)
Theorem expandUncoreGroups_in_place (groups : list GroupDefinition)
    (metadata : Metadata) (out : list GroupDefinition) :
  expandUncoreGroups groups metadata = Ret (out, None) ->
  exists parts,
    Forall2 (placed metadata uncoreRe) groups parts /\ out = concat parts.
Proof. intros H. by apply expandLoop_None in H. Qed.

Lemma expandUncoreGroups_in_place_witness :
  expandUncoreGroups mixedGroups intelMetadata = Ret (mixedExpanded, None)
  /\ exists parts,
       Forall2 (placed intelMetadata uncoreRe) mixedGroups parts
       /\ mixedExpanded = concat parts.
Proof.
  assert (expandUncoreGroups mixedGroups intelMetadata
          = Ret (mixedExpanded, None)) as H by (vm_compute; reflexivity).
  split; [exact H|].
  exact (expandUncoreGroups_in_place mixedGroups intelMetadata mixedExpanded H).
Defined.

(** Conversely the expansion returns without an error when no group is
    empty and every group to be cloned fits the pattern. *)
Lemma expandUncoreGroups_total (groups : list GroupDefinition)
    (metadata : Metadata) :
  Forall (fun group => exists first, head group = Some first
            /\ (slices_Contains (deviceTypes metadata) (Device first) = true
                -> Forall (fun e => matchesRe uncoreRe e = true) group))
    groups ->
  exists out, expandUncoreGroups groups metadata = Ret (out, None).
Proof. apply expandLoop_total. Qed.

(** ** LoadEventGroups *)

Lemma get_lt (n : nat) (s : string) :
  (n < String.length s)%nat -> exists c, String.get n s = Some c.
Proof.
  revert n. induction s as [|c t IH]; intros n Hn; simpl in Hn; [lia|].
  destruct n as [|n]; simpl; [eauto|]. apply IH. lia.
Qed.

Lemma slice_dataLine (text record : string) :
  dataLine text = Some record ->
  skipped (TrimSpace text) = false
  /\ slice (TrimSpace text) 0 (len (TrimSpace text) - 1) = Ret record.
Proof.
  unfold dataLine. destruct (skipped (TrimSpace text)) eqn:Hs; [done|].
  intros [= <-]. split; [done|]. unfold slice, len.
  destruct (TrimSpace text) as [|c t]; [done|]. cbn [String.length].
  destruct (Z.leb_spec 0 (Z.of_nat (S (String.length t)) - 1)); [|lia].
  destruct (Z.leb_spec (Z.of_nat (S (String.length t)) - 1)
              (Z.of_nat (S (String.length t)))); [|lia].
  cbn [andb Z.leb Z.compare]. do 2 f_equal. lia.
Qed.

Lemma dataLine_None (text : string) :
  dataLine text = None -> skipped (TrimSpace text) = true.
Proof. unfold dataLine. by destruct (skipped (TrimSpace text)). Qed.

Lemma byteAt_last (line : string) :
  skipped line = false -> exists c, byteAt line (len line - 1) = Ret c.
Proof.
  destruct line as [|c t]; [done|]. intros _. unfold byteAt, len.
  cbn [String.length].
  destruct (Z.leb_spec 0 (Z.of_nat (S (String.length t)) - 1)); [|lia].
  destruct (Z.ltb_spec (Z.of_nat (S (String.length t)) - 1)
              (Z.of_nat (S (String.length t)))); [|lia].
  cbn [andb].
  destruct (get_lt (Z.to_nat (Z.of_nat (S (String.length t)) - 1))
              (String c t)) as [c' ->]; [cbn [String.length]; lia|eauto].
Qed.

Section Loader.

Variables (metadata : Metadata) (flagScope : Scope).

Lemma scanStep_scanned (seen : string -> Prop) (st st' : ScanState)
    (text : string) :
  scanStep metadata flagScope st text = Ret (Next st') ->
  seen text -> scanned metadata flagScope seen st -> scanned metadata flagScope seen st'.
Proof.
  intros Hstep Hseen (Hgs & Hg & Hu). unfold scanStep in Hstep.
  destruct (dataLine text) as [record|] eqn:Hd.
  2:{ apply dataLine_None in Hd. rewrite Hd in Hstep.
      injection Hstep as <-. done. }
  apply slice_dataLine in Hd as Hd'. destruct Hd' as [Hs Hsl].
  rewrite Hs, Hsl in Hstep. cbn [mbind result_bind] in Hstep.
  destruct (parseEventDefinition record) as [[parsed [err|]]|] eqn:Hp;
    cbn [mbind result_bind] in Hstep; try done.
  destruct (byteAt_last _ Hs) as [last Hl]. rewrite Hl in Hstep.
  cbn [mbind result_bind] in Hstep.
  assert (parsedFrom text (abbreviateEvent parsed)) as Hpf
    by (by exists record, parsed).
  destruct (isCollectableEvent (abbreviateEvent parsed) metadata flagScope)
    eqn:Hc; cbn [scanGroups scanGroup scanUncollectable] in Hstep.
  - assert (Forall (catalogEvent metadata flagScope seen)
              (scanGroup st ++ [abbreviateEvent parsed]))
      as Hg'.
    { apply Forall_app. split; [done|]. constructor; [|constructor].
      split; [exact Hc|by exists text]. }
    destruct (Ascii.eqb last ";"); [|by injection Hstep as <-].
    destruct (0 <? length (scanGroup st ++ [abbreviateEvent parsed]))%nat;
      injection Hstep as <-; (split; [|split; [constructor|done]]);
      cbn [scanGroups]; [|done].
    apply Forall_app. split; [done|]. by constructor.
  - assert (forall name,
              name ∈ ({[Name (abbreviateEvent parsed)]} ∪ scanUncollectable st
                      : gset string) ->
              exists text event,
                seen text /\ parsedFrom text event /\ Name event = name
                /\ isCollectableEvent event metadata flagScope = false)
      as Hu'.
    { intros name [->%elem_of_singleton|Hin]%elem_of_union; [|by apply Hu].
      by exists text, (abbreviateEvent parsed). }
    destruct (Ascii.eqb last ";"); [|by injection Hstep as <-].
    destruct (0 <? length (scanGroup st))%nat;
      injection Hstep as <-; (split; [|split; [constructor|done]]);
      cbn [scanGroups]; [|done].
    apply Forall_app. split; [done|]. by constructor.
Qed.

Lemma scanLoop_scanned (seen : string -> Prop) (texts : list string)
    (st st' : ScanState) :
  scanLoop metadata flagScope texts st = Ret (Next st') ->
  Forall seen texts -> scanned metadata flagScope seen st -> scanned metadata flagScope seen st'.
Proof.
  revert st. induction texts as [|text rest IH]; intros st; cbn [scanLoop].
  - by intros [= <-].
  - intros Hloop [Hseen Hrest]%Forall_cons Hst.
    destruct (scanStep metadata flagScope st text) as [[st1|gs err]|] eqn:Hs;
      cbn [mbind result_bind] in Hloop; try done.
    eapply IH; eauto using scanStep_scanned.
Qed.

(** A line the parser answers with a format error ends the loop with
    that error and the groups flushed so far. *)
Lemma scanStep_abort (st : ScanState) (text record : string)
    (parsed : EventDefinition) (err : error) :
  dataLine text = Some record ->
  parseEventDefinition record = Ret (parsed, Some err) ->
  scanStep metadata flagScope st text = Ret (Abort (scanGroups st) err).
Proof.
  intros [Hs Hsl]%slice_dataLine Hp. unfold scanStep.
  rewrite Hs, Hsl. cbn [mbind result_bind]. by rewrite Hp.
Qed.

Lemma scanLoop_app (before rest : list string) (st : ScanState) :
  scanLoop metadata flagScope (before ++ rest) st
  = step ← scanLoop metadata flagScope before st;
    match step with
    | Next st' => scanLoop metadata flagScope rest st'
    | Abort groups err => Ret (Abort groups err)
    end.
Proof.
  revert st. induction before as [|text before IH]; intros st;
    cbn [app scanLoop]; [done|].
  destruct (scanStep metadata flagScope st text) as [[st1|gs err]|];
    cbn [mbind result_bind]; [apply IH|done|done].
Qed.

(** The groups of the output come from the groups assembled by the
    scan: each is one of them or a clone of one of them. *)
Lemma expanded_from (groups out : list GroupDefinition) :
  expandUncoreGroups groups metadata = Ret (out, None) ->
  forall g, g ∈ out ->
    g ∈ groups
    \/ exists g0 deviceID,
         g0 ∈ groups
         /\ expandEvents uncoreRe (Vendor metadata) deviceID g0 [] = inl g.
Proof.
  intros (parts & Hp & ->)%expandLoop_None g Hin. cbn [app] in Hin.
  apply list_elem_of_In, in_concat in Hin as (part & Hpart & Hg).
  apply list_elem_of_In, list_elem_of_lookup in Hpart as [i Hi].
  apply list_elem_of_In in Hg.
  destruct (Forall2_lookup_r _ _ _ _ _ Hp Hi) as (g0 & Hg0 & first & _ & Hpl).
  apply list_elem_of_lookup_2 in Hg0.
  destruct (slices_Contains (deviceTypes metadata) (Device first)).
  - right. apply list_elem_of_lookup in Hg as [j Hj].
    destruct (Forall2_lookup_r _ _ _ _ _ Hpl Hj) as (deviceID & _ & He).
    by exists g0, deviceID.
  - left. subst part. by apply list_elem_of_singleton in Hg as ->.
Qed.

End Loader.

Lemma LoadArmEventGroups_None (fsys : FileSystem) (flagScope : Scope)
    (path : string) (metadata : Metadata) (groups : list GroupDefinition)
    (uncollectableEvents : list string) :
  LoadArmEventGroups fsys flagScope path metadata
  = (groups, uncollectableEvents, None) ->
  exists eventFiles,
    loadArmFiles metadata flagScope eventFiles
    = (groups, uncollectableEvents, None).
Proof.
  unfold LoadArmEventGroups.
  repeat match goal with
         | |- context [match ?x with _ => _ end] => destruct x
         end; try done; eauto.
Qed.

(** C6 (as stated, refuted): with a malformed second line the load returns
    the format error together with the group flushed by the first line: a
    group list from the partial scan comes back with the error. *)
Lemma LoadEventGroups_error_with_partial_groups :
  LoadEventGroups (overrideFile ["instructions;"; "x,yyyyyy;"; "cycles;"])
    scopeSystem "events.txt" intelMetadata
  = Ret ([[mkEvent "instructions" "instructions" "" ""]], [],
         Some "unrecognized event format, name field not found: x,yyyyyy").
Proof. vm_compute. reflexivity. Qed.

(** C6 (amended): when the first line of an x86 catalog that is not parsed
    is one on which [parseEventDefinition] returns its format error, the
    load returns that error with an empty uncollectable list, whatever
    lines follow and whatever the scanner would report: the later lines
    are not processed and no expansion runs.  The group list returned with
    the error is the list of the groups flushed before that line. *)
Theorem LoadEventGroups_fail_fast (fsys : FileSystem) (flagScope : Scope)
    (path : string) (metadata : Metadata) (before after : list string)
    (bad record : string) (scanErr : option error) (st : ScanState)
    (parsed : EventDefinition) (err : error) :
  isArm metadata = false ->
  openCatalog fsys path metadata
  = inl (mkFile (before ++ bad :: after) scanErr) ->
  scanLoop metadata flagScope before (mkScan [] [] ∅) = Ret (Next st) ->
  dataLine bad = Some record ->
  parseEventDefinition record = Ret (parsed, Some err) ->
  LoadEventGroups fsys flagScope path metadata
  = Ret (scanGroups st, [], Some err).
Proof.
  intros Harm Ho Hbefore Hd Hp. unfold LoadEventGroups.
  rewrite Harm, Ho. unfold loadFile. cbn [Lines].
  rewrite scanLoop_app, Hbefore. cbn [mbind result_bind scanLoop].
  by rewrite (scanStep_abort metadata flagScope st bad record parsed err Hd Hp).
Qed.

Lemma LoadEventGroups_fail_fast_witness :
  LoadEventGroups
    (overrideFile ["instructions,"; "cycles;"; "bogus;"; "x,yyyyyy;";
                   "instructions;"])
    scopeSystem "events.txt" intelMetadata
  = Ret ([[mkEvent "instructions" "instructions" "" "";
           mkEvent "cycles" "cycles" "" ""]], [],
         Some "unrecognized event format, name field not found: x,yyyyyy").
Proof.
  apply (LoadEventGroups_fail_fast
           (overrideFile ["instructions,"; "cycles;"; "bogus;"; "x,yyyyyy;";
                          "instructions;"])
           scopeSystem "events.txt" intelMetadata
           ["instructions,"; "cycles;"; "bogus;"] ["instructions;"]
           "x,yyyyyy;" "x,yyyyyy" None
           (mkScan [[mkEvent "instructions" "instructions" "" "";
                     mkEvent "cycles" "cycles" "" ""]] [] {["bogus"]})
           (mkEvent "x,yyyyyy" "" "" "")
           "unrecognized event format, name field not found: x,yyyyyy");
    vm_compute; reflexivity.
Defined.

(** A line on which the parser panics takes the whole load with it: no
    error value is returned. *)
Lemma LoadEventGroups_panics_with_parser :
  LoadEventGroups (overrideFile ["instructions;"; "a,b;"; "cycles;"])
    scopeSystem "events.txt" intelMetadata
  = Panic.
Proof. vm_compute. reflexivity. Qed.

(** * Further properties *)

(** ** Strings, continued *)

Lemma str_app_assoc (s t u : string) : (s +:+ t) +:+ u = s +:+ t +:+ u.
Proof.
  induction s as [|c s IH]; [done|]. rewrite !str_app_cons. by f_equal.
Qed.

Lemma str_app_nil_r (s : string) : s +:+ "" = s.
Proof. induction s as [|c s IH]; [done|]. rewrite str_app_cons. by f_equal. Qed.

Lemma prefix_cons (a b : ascii) (p s : string) :
  String.prefix (String a p) (String b s) = Ascii.eqb a b && String.prefix p s.
Proof.
  simpl. destruct (ascii_dec a b) as [->|Hne].
  - by rewrite Ascii.eqb_refl.
  - apply Ascii.eqb_neq in Hne. by rewrite Hne.
Qed.

Lemma Contains_byte (s : string) (c : ascii) :
  Contains s (String c "") = hasByte c s.
Proof.
  induction s as [|b t IH]; [done|].
  cbn [Contains hasByte]. rewrite prefix_cons, prefix_nil, andb_true_r.
  rewrite (Ascii.eqb_sym c b). destruct (Ascii.eqb b c); [done|]. exact IH.
Qed.

Lemma hasByte_app (c : ascii) (s t : string) :
  hasByte c (s +:+ t) = hasByte c s || hasByte c t.
Proof.
  induction s as [|b s IH]; [done|].
  rewrite str_app_cons. cbn [hasByte]. rewrite IH. by rewrite orb_assoc.
Qed.

Lemma Split_cons_shape (s : string) (sep : ascii) :
  exists f fs, Split s sep = f :: fs.
Proof.
  destruct (Split s sep) as [|f fs] eqn:E; [|eauto].
  by apply Split_nonempty in E.
Qed.

(** Splitting at a separator splits the fields on its two sides. *)
Lemma Split_app_sep (a b : string) (sep : ascii) :
  Split (a +:+ String sep b) sep = Split a sep ++ Split b sep.
Proof.
  induction a as [|c a IH].
  - simpl. by rewrite Ascii.eqb_refl.
  - rewrite str_app_cons. cbn [Split]. rewrite IH.
    destruct (Ascii.eqb c sep); [done|].
    destruct (Split_cons_shape a sep) as (f & fs & ->). reflexivity.
Qed.

(** A text without the separator stays in front of the first field. *)
Lemma Split_app_absent (x y : string) (sep : ascii) :
  hasByte sep x = false ->
  Split (x +:+ y) sep
  = match Split y sep with
    | f :: fs => (x +:+ f) :: fs
    | [] => [x]
    end.
Proof.
  induction x as [|c x IH]; intros H.
  - change ("" +:+ y) with y.
    destruct (Split_cons_shape y sep) as (f & fs & ->). reflexivity.
  - cbn [hasByte] in H. apply orb_false_elim in H as [Hc Hx].
    rewrite str_app_cons. cbn [Split]. rewrite Hc, (IH Hx).
    destruct (Split_cons_shape y sep) as (f & fs & ->). reflexivity.
Qed.

Lemma Split_hasByte_absent (s : string) (sep : ascii) :
  hasByte sep s = false -> Split s sep = [s].
Proof. intros H. apply Split_absent. by rewrite Contains_byte. Qed.

Lemma firstField_app_sep (a b : string) (sep : ascii) :
  hasByte sep a = false -> firstField (a +:+ String sep b) sep = a.
Proof.
  intros H. unfold firstField.
  by rewrite Split_app_sep, (Split_hasByte_absent a sep H).
Qed.

Lemma nth_error_last {A : Type} (x d : A) (xs : list A) :
  nth_error (x :: xs) (length xs) = Some (List.last (x :: xs) d).
Proof.
  revert x. induction xs as [|y ys IH]; intros x; [done|].
  cbn [length nth_error]. rewrite (IH y). by destruct ys.
Qed.

Lemma index_last (fields : list string) :
  fields <> [] ->
  index fields (Z.of_nat (length fields) - 1) = Ret (lastField fields).
Proof.
  intros Hne. unfold index, lastField.
  destruct fields as [|f fs]; [done|]. clear Hne.
  destruct (Z.leb_spec 0 (Z.of_nat (length (f :: fs)) - 1));
    [|cbn [length] in *; lia].
  destruct (Z.ltb_spec (Z.of_nat (length (f :: fs)) - 1)
              (Z.of_nat (length (f :: fs)))); [|lia].
  cbn [andb].
  replace (Z.to_nat (Z.of_nat (length (f :: fs)) - 1))
    with (length fs) by (cbn [length]; lia).
  by rewrite (nth_error_last f EmptyString fs).
Qed.

Lemma substring_app_skip (p s : string) (n : nat) :
  String.substring (String.length p) n (p +:+ s) = String.substring 0 n s.
Proof. induction p as [|c p IH]; [done|]. rewrite str_app_cons. exact IH. Qed.

Lemma substring_app_whole (s t : string) :
  String.substring 0 (String.length s) (s +:+ t) = s.
Proof.
  induction s as [|c s IH]; [by destruct t|].
  rewrite str_app_cons. simpl. by rewrite IH.
Qed.

(** Comparing the first bytes of [s] with [p] is the prefix test, when [s]
    is long enough. *)
Lemma substring_eqb_prefix (p s : string) :
  (String.length p <= String.length s)%nat ->
  String.eqb (String.substring 0 (String.length p) s) p = String.prefix p s.
Proof.
  revert s. induction p as [|a p IH]; intros s Hl.
  - rewrite prefix_nil. by destruct s.
  - destruct s as [|b s]; [simpl in Hl; lia|].
    rewrite prefix_cons. cbn [String.length String.substring String.eqb].
    rewrite (Ascii.eqb_sym a b). destruct (Ascii.eqb b a); [|done].
    apply IH. simpl in Hl. lia.
Qed.

(** ** parseEventDefinition, continued *)

Lemma slice_ok (s : string) (lo hi : Z) :
  0 <= lo -> lo <= hi -> hi <= len s ->
  slice s lo hi = Ret (String.substring (Z.to_nat lo) (Z.to_nat (hi - lo)) s).
Proof.
  intros H1 H2 H3. unfold slice.
  destruct (Z.leb_spec 0 lo); [|lia].
  destruct (Z.leb_spec lo hi); [|lia].
  destruct (Z.leb_spec hi (len s)); [|lia]. reflexivity.
Qed.

Lemma slice_panic (s : string) (lo hi : Z) :
  lo < 0 \/ hi < lo \/ len s < hi -> slice s lo hi = Panic.
Proof.
  intros H. unfold slice.
  destruct (Z.leb_spec 0 lo); [|done].
  destruct (Z.leb_spec lo hi); [|done].
  destruct (Z.leb_spec hi (len s)); [lia|done].
Qed.

(** X1. A record in the perf syntax, [unit/params,name='NAME'/], is parsed
    back into its unit and its name. *)
Theorem parseEventDefinition_record (device params name : string) :
  Contains device "," = false ->
  Contains device "/" = false ->
  Contains name "," = false ->
  parseEventDefinition
    (device +:+ "/" +:+ params +:+ ",name='" +:+ name +:+ "'/")
  = Ret (mkEvent
           (device +:+ "/" +:+ params +:+ ",name='" +:+ name +:+ "'/")
           name device "", None).
Proof.
  rewrite !Contains_byte. intros Hdc Hds Hnc.
  set (nameField := "name='" +:+ name +:+ "'/").
  set (line := device +:+ "/" +:+ params +:+ ",name='" +:+ name +:+ "'/").
  assert (line = (device +:+ String "/" params) +:+ String "," nameField)
    as Hline by (by rewrite str_app_assoc).
  assert (hasByte "," nameField = false) as Hnf.
  { unfold nameField. rewrite !hasByte_app, Hnc. reflexivity. }
  destruct (Split_cons_shape params ",") as (h & hs & Hp).
  assert (Split line "," = (device +:+ String "/" h) :: hs ++ [nameField])
    as Hsplit.
  { rewrite Hline, Split_app_sep, (Split_hasByte_absent nameField "," Hnf).
    rewrite (Split_app_absent device _ "," Hdc). cbn [Split].
    replace (Ascii.eqb "/" ",") with false by reflexivity.
    by rewrite Hp. }
  unfold parseEventDefinition. rewrite Hsplit.
  assert (Z.of_nat (length ((device +:+ String "/" h) :: hs ++ [nameField]))
          = Z.of_nat (length hs) + 2) as Hlen.
  { cbn [length]. rewrite length_app. cbn [length]. lia. }
  destruct (Z.eqb_spec
              (Z.of_nat (length ((device +:+ String "/" h) :: hs ++ [nameField])))
              1) as [E|_]; [lia|].
  destruct (Z.ltb_spec 1
              (Z.of_nat (length ((device +:+ String "/" h) :: hs ++ [nameField]))))
    as [_|E]; [|lia].
  rewrite index_last by done.
  assert (lastField ((device +:+ String "/" h) :: hs ++ [nameField])
          = nameField) as ->.
  { unfold lastField. by rewrite app_comm_cons, last_last. }
  cbn [mbind result_bind].
  assert (len nameField = Z.of_nat (String.length name) + 8) as Hl.
  { unfold len, nameField. rewrite !str_length_app. cbn [String.length]. lia. }
  rewrite slice_ok by lia. cbn [mbind result_bind].
  replace (String.substring (Z.to_nat 0) (Z.to_nat (5 - 0)) nameField)
    with "name=".
  2:{ unfold nameField. symmetry.
      exact (substring_app_whole "name=" ("'" +:+ name +:+ "'/")). }
  cbn [String.eqb Ascii.eqb Bool.eqb negb].
  rewrite slice_ok by lia. cbn [mbind result_bind].
  rewrite index_head. cbn [mbind result_bind].
  rewrite (firstField_app_sep device h "/" Hds).
  replace (String.substring (Z.to_nat 6)
             (Z.to_nat (len nameField - 2 - 6)) nameField) with name;
    [reflexivity|].
  replace (Z.to_nat (len nameField - 2 - 6)) with (String.length name) by lia.
  unfold nameField.
  change (Z.to_nat 6) with (String.length "name='").
  rewrite (substring_app_skip "name='" (name +:+ "'/")).
  by rewrite substring_app_whole.
Qed.

Lemma parseEventDefinition_record_witness :
  parseEventDefinition
    "cha/event=0x35,umask=0xc80ffe01,name='UNC_CHA_TOR_INSERTS.IA_MISS_CRD'/"
  = Ret (mkEvent
           "cha/event=0x35,umask=0xc80ffe01,name='UNC_CHA_TOR_INSERTS.IA_MISS_CRD'/"
           "UNC_CHA_TOR_INSERTS.IA_MISS_CRD" "cha" "", None).
Proof.
  exact (parseEventDefinition_record "cha" "event=0x35,umask=0xc80ffe01"
           "UNC_CHA_TOR_INSERTS.IA_MISS_CRD" eq_refl eq_refl eq_refl).
Defined.

(** X2. The parse panics exactly on the lines of several fields whose last
    field is shorter than the five bytes of the prefix test, or passes the
    test with fewer than the eight bytes the name slice needs. *)
Theorem parseEventDefinition_panic_iff (line : string) :
  parseEventDefinition line = Panic
  <-> (1 < length (Split line ","))%nat
      /\ (len (lastField (Split line ",")) < 5
          \/ (HasPrefix (lastField (Split line ",")) "name=" = true
              /\ len (lastField (Split line ",")) < 8)).
Proof.
  unfold parseEventDefinition.
  destruct (Split_cons_shape line ",") as (f & fs & Hs). rewrite Hs.
  set (fields := f :: fs). set (nameField := lastField fields).
  destruct (Z.eqb_spec (Z.of_nat (length fields)) 1) as [E|E].
  { unfold fields at 1. rewrite index_head. cbn [mbind result_bind].
    split; [done|]. lia. }
  destruct (Z.ltb_spec 1 (Z.of_nat (length fields))) as [Hn|Hn].
  2:{ cbn [fields length] in *. lia. }
  rewrite index_last by done. fold nameField. cbn [mbind result_bind].
  destruct (Z.lt_ge_cases (len nameField) 5) as [H5|H5].
  { rewrite (slice_panic nameField 0 5) by lia. cbn [mbind result_bind].
    split; [|done]. intros _. split; [lia|by left]. }
  rewrite (slice_ok nameField 0 5) by lia. cbn [mbind result_bind].
  change (Z.to_nat 0) with O. change (Z.to_nat (5 - 0)) with (String.length "name=").
  rewrite substring_eqb_prefix by (unfold len in H5; cbn [String.length]; lia).
  unfold HasPrefix.
  destruct (String.prefix "name=" nameField) eqn:Hp; cbn [negb].
  2:{ split; [done|]. intros (_ & [?|[? _]]); [lia|done]. }
  destruct (Z.lt_ge_cases (len nameField) 8) as [H8|H8].
  { rewrite (slice_panic nameField 6) by lia. cbn [mbind result_bind].
    split; [|done]. intros _. split; [lia|right; done]. }
  rewrite (slice_ok nameField 6) by lia. cbn [mbind result_bind].
  unfold fields. rewrite index_head. cbn [mbind result_bind].
  split; [done|]. intros (_ & [?|[_ ?]]); lia.
Qed.

(** X3. Whenever the parse returns, the event carries the line as its raw
    token and no description; with the format error, its name and device
    are empty. *)
Theorem parseEventDefinition_Raw (line : string) (event : EventDefinition)
    (err : option error) :
  parseEventDefinition line = Ret (event, err) ->
  Raw event = line /\ Description event = ""
  /\ (err <> None -> Name event = "" /\ Device event = ""
        /\ err = Some ("unrecognized event format, name field not found: "
                       +:+ line)).
Proof.
  unfold parseEventDefinition.
  destruct (Split_cons_shape line ",") as (f & fs & Hs). rewrite Hs.
  destruct (Z.eqb_spec (Z.of_nat (length (f :: fs))) 1) as [E|E].
  { rewrite index_head. cbn [mbind result_bind]. by intros [= <- <-]. }
  destruct (Z.ltb_spec 1 (Z.of_nat (length (f :: fs)))) as [Hn|Hn].
  2:{ cbn [length] in *. lia. }
  destruct (index (f :: fs) (Z.of_nat (length (f :: fs)) - 1))
    as [nameField|]; cbn [mbind result_bind]; [|done].
  destruct (slice nameField 0 5) as [pre|]; cbn [mbind result_bind]; [|done].
  destruct (negb (String.eqb pre "name=")).
  { by intros [= <- <-]. }
  destruct (slice nameField 6 (len nameField - 2)) as [name|];
    cbn [mbind result_bind]; [|done].
  rewrite index_head. cbn [mbind result_bind]. by intros [= <- <-].
Qed.

Lemma parseEventDefinition_Raw_witness :
  Raw (mkEvent "x,yyyyyy" "" "" "") = "x,yyyyyy"
  /\ Description (mkEvent "x,yyyyyy" "" "" "") = ""
  /\ (Some ("unrecognized event format, name field not found: x,yyyyyy")
      <> None ->
      Name (mkEvent "x,yyyyyy" "" "" "") = ""
      /\ Device (mkEvent "x,yyyyyy" "" "" "") = ""
      /\ Some ("unrecognized event format, name field not found: x,yyyyyy")
         = Some ("unrecognized event format, name field not found: "
                 +:+ "x,yyyyyy")).
Proof.
  exact (parseEventDefinition_Raw "x,yyyyyy" (mkEvent "x,yyyyyy" "" "" "")
           (Some "unrecognized event format, name field not found: x,yyyyyy")
           eq_refl).
Defined.


(** ** abbreviateEventName, continued *)

Lemma prefix_app_r (p s t : string) :
  String.prefix p s = true -> String.prefix p (s +:+ t) = true.
Proof.
  revert s. induction p as [|a p IH]; intros s; [by rewrite !prefix_nil|].
  destruct s as [|b s]; [done|].
  rewrite str_app_cons, !prefix_cons. intros [-> H]%andb_prop.
  by rewrite (IH s H).
Qed.

Lemma prefix_trans (p q s : string) :
  String.prefix p q = true -> String.prefix q s = true ->
  String.prefix p s = true.
Proof.
  revert q s. induction p as [|a p IH]; intros q s; [by rewrite !prefix_nil|].
  destruct q as [|b q]; [done|]. destruct s as [|c s]; [done|].
  rewrite !prefix_cons. intros [Hab Hp]%andb_prop [Hbc Hq]%andb_prop.
  apply Ascii.eqb_eq in Hab as ->. rewrite Hbc. exact (IH q s Hp Hq).
Qed.

(** A word none of whose bytes begins a long or a short form is a prefix
    of the replaced event exactly when it is one of the event. *)
Lemma replace_from_prefix_foreign (c d : ascii) (o n w s : string) :
  hasByte c w = false -> hasByte d w = false ->
  String.prefix w (replace_from (String c o) (String d n) O s)
  = String.prefix w s.
Proof.
  revert s. induction w as [|x w IH]; intros s Hc Hd;
    [by rewrite !prefix_nil|].
  cbn [hasByte] in Hc, Hd.
  apply orb_false_elim in Hc as [Hxc Hc], Hd as [Hxd Hd].
  destruct s as [|a s]; [done|]. cbn [replace_from].
  destruct (String.prefix (String c o) (String a s)) eqn:Hp.
  - rewrite prefix_cons in Hp. apply andb_prop in Hp as [Hca _].
    apply Ascii.eqb_eq in Hca as <-.
    rewrite str_app_cons, !prefix_cons, Hxd, Hxc. done.
  - rewrite !prefix_cons. by rewrite (IH s Hc Hd).
Qed.

Lemma Replace_UNC (s : string) (abbr : string * string) :
  keepsUNC abbr = true ->
  HasPrefix (Replace s (fst abbr) (snd abbr)) "UNC" = HasPrefix s "UNC".
Proof.
  destruct abbr as [[|c o] [|d n]]; try done. cbn [fst snd]. unfold keepsUNC.
  cbn [fst snd]. intros H.
  apply andb_prop in H as [H HU]. apply andb_prop in H as [H HdC].
  apply andb_prop in H as [H HdN]. apply andb_prop in H as [HcN HcC].
  apply negb_true_iff in HcN, HcC, HdN, HdC.
  unfold HasPrefix, Replace. destruct s as [|a s]; [done|].
  cbn [replace_from].
  destruct (String.prefix (String c o) (String a s)) eqn:Hp.
  - apply orb_prop in HU as [HU|HU].
    + apply andb_prop in HU as [HcU HdU]. apply negb_true_iff in HcU, HdU.
      rewrite prefix_cons in Hp. apply andb_prop in Hp as [Hca _].
      apply Ascii.eqb_eq in Hca as <-.
      rewrite str_app_cons, !prefix_cons.
      rewrite (Ascii.eqb_sym "U" d), (Ascii.eqb_sym "U" c), HcU, HdU. done.
    + apply andb_prop in HU as [Ho Hn].
      rewrite (prefix_app_r _ _ _ Hn). symmetry.
      exact (prefix_trans _ _ _ Ho Hp).
  - rewrite !prefix_cons. f_equal.
    apply replace_from_prefix_foreign; cbn [hasByte].
    + by rewrite (Ascii.eqb_sym "N" c), (Ascii.eqb_sym "C" c), HcN, HcC.
    + by rewrite (Ascii.eqb_sym "N" d), (Ascii.eqb_sym "C" d), HdN, HdC.
Qed.

Lemma abbreviateWith_UNC (table : list (string * string)) (s : string) :
  forallb keepsUNC table = true ->
  HasPrefix (abbreviateWith table s) "UNC" = HasPrefix s "UNC".
Proof.
  revert s. induction table as [|abbr table IH]; intros s; [done|].
  cbn [forallb]. intros [Hk Hrest]%andb_prop.
  unfold abbreviateWith. cbn [fold_left].
  etransitivity; [apply (IH _ Hrest)|]. by apply Replace_UNC.
Qed.

(** X4. The abbreviation neither removes nor creates the prefix [UNC] by
    which uncore events are recognised. *)
Theorem abbreviateEventName_UNC (s : string) :
  HasPrefix (abbreviateEventName s) "UNC" = HasPrefix s "UNC".
Proof. apply abbreviateWith_UNC. by vm_compute. Qed.

(** X5. The abbreviation never lengthens an event, and shortens it exactly
    when the event holds a long form of the table. *)
Theorem abbreviateEventName_length (s : string) :
  (String.length (abbreviateEventName s) <= String.length s)%nat
  /\ ((String.length (abbreviateEventName s) < String.length s)%nat
      <-> noLongForm abbreviations s = false).
Proof.
  assert (shortening abbreviations = true) as Hs by (by vm_compute).
  split; [by apply abbreviateWith_length|]. split.
  - intros Hlt. destruct (noLongForm abbreviations s) eqn:Hno; [|done].
    unfold abbreviateEventName in Hlt.
    rewrite (abbreviateWith_fixed _ _ Hno) in Hlt. lia.
  - by apply abbreviateWith_shorter.
Qed.

Lemma prefix_hasByte (c : ascii) (p s : string) :
  String.prefix p s = true -> hasByte c p = true -> hasByte c s = true.
Proof.
  revert s. induction p as [|a p IH]; intros s; [done|].
  destruct s as [|b s]; [done|].
  rewrite prefix_cons. intros [Hab Hp]%andb_prop. cbn [hasByte].
  apply Ascii.eqb_eq in Hab as ->.
  destruct (Ascii.eqb b c); [done|]. cbn [orb]. by apply IH.
Qed.

Lemma Contains_hasByte (c : ascii) (s sub : string) :
  Contains s sub = true -> hasByte c sub = true -> hasByte c s = true.
Proof.
  induction s as [|b s IH]; cbn [Contains].
  - destruct (String.prefix sub "") eqn:Hp; [|done].
    intros _. by apply prefix_hasByte.
  - destruct (String.prefix sub (String b s)) eqn:Hp.
    + intros _. by apply prefix_hasByte.
    + intros Hc Hs. cbn [hasByte]. rewrite (IH Hc Hs). by rewrite orb_true_r.
Qed.

(** X6. Every long form of the table holds an underscore, so an event without
    one (as [instructions] or [cpu-cycles]) is left as it is. *)
Theorem abbreviateEventName_no_underscore (s : string) :
  Contains s "_" = false -> abbreviateEventName s = s.
Proof.
  rewrite Contains_byte. intros Hs. apply abbreviateWith_fixed.
  unfold noLongForm. apply forallb_forall. intros abbr Hin.
  apply negb_true_iff. destruct (Contains s (fst abbr)) eqn:Hc; [|done].
  assert (hasByte "_" (fst abbr) = true) as Hu.
  { assert (forallb (fun ab => hasByte "_" (fst ab)) abbreviations = true)
      as Hall by (by vm_compute).
    rewrite forallb_forall in Hall. by apply Hall. }
  by rewrite (Contains_hasByte "_" s (fst abbr) Hc Hu) in Hs.
Qed.

Lemma abbreviateEventName_no_underscore_witness :
  abbreviateEventName "cpu-cycles" = "cpu-cycles".
Proof. exact (abbreviateEventName_no_underscore "cpu-cycles" eq_refl). Defined.


(** ** isCollectableEvent, continued *)

(** X7. An event that can be collected for a process or a cgroup can be
    collected system-wide. *)
Theorem isCollectableEvent_scope (event : EventDefinition)
    (metadata : Metadata) (flagScope : Scope) :
  isCollectableEvent event metadata flagScope = true ->
  isCollectableEvent event metadata scopeSystem = true.
Proof.
  destruct flagScope; [done| |]; unfold isCollectableEvent, isOffcore;
    cbn [processOrCgroup]; intros H; filter_cases.
Qed.

Lemma isCollectableEvent_scope_witness :
  isCollectableEvent (mkEvent "instructions" "instructions" "" "")
    intelMetadata scopeSystem = true.
Proof.
  exact (isCollectableEvent_scope
           (mkEvent "instructions" "instructions" "" "") intelMetadata
           scopeProcess eq_refl).
Defined.

(** X8. A capability never costs an event: what can be collected on a
    platform can be collected on one that has more capabilities and the
    same [perf list] output and inventory. *)
Theorem isCollectableEvent_capabilities (event : EventDefinition)
    (small big : Metadata) (flagScope : Scope) :
  capabilitiesLe small big ->
  isCollectableEvent event small flagScope = true ->
  isCollectableEvent event big flagScope = true.
Proof.
  intros (H1 & H2 & H3 & H4 & H5 & Hp & Hi).
  unfold isCollectableEvent, deviceTypes, isOffcore. rewrite <- Hp, <- Hi.
  destruct (SupportsFixedTMA small); [rewrite (H1 eq_refl)|clear H1];
  destruct (SupportsPEBS small); [rewrite (H2 eq_refl)|clear H2| |];
    try rewrite (H2 eq_refl); try clear H2;
  (destruct (SupportsOCR small); [rewrite (H3 eq_refl)|clear H3]);
  (destruct (SupportsUncore small); [rewrite (H4 eq_refl)|clear H4]);
  (destruct (SupportsRefCycles small); [rewrite (H5 eq_refl)|clear H5]);
  cbn [andb orb negb]; intros H; filter_cases.
Qed.

Lemma isCollectableEvent_capabilities_witness :
  isCollectableEvent
    (mkEvent "cha/event=0x1,umask=0x2,name='PERF_METRICS'/" "PERF_METRICS"
       "cha" "")
    intelMetadata scopeSystem = true.
Proof.
  apply (isCollectableEvent_capabilities _ noFixedTMAMetadata intelMetadata).
  - repeat split; done.
  - reflexivity.
Defined.

(** X9. For a core event the filter looks at the name, at the fixed TMA,
    PEBS, OCR and uncore capabilities and at the scope, and at nothing
    else: not at the raw token, the [perf list] output, the inventory or
    the ref-cycles capability. *)
Theorem isCollectableEvent_core (a b : EventDefinition) (m1 m2 : Metadata)
    (flagScope : Scope) :
  Device a = "cpu" -> Device b = "cpu" -> Name a = Name b ->
  SupportsFixedTMA m1 = SupportsFixedTMA m2 ->
  SupportsPEBS m1 = SupportsPEBS m2 ->
  SupportsOCR m1 = SupportsOCR m2 ->
  SupportsUncore m1 = SupportsUncore m2 ->
  isCollectableEvent a m1 flagScope = isCollectableEvent b m2 flagScope.
Proof.
  intros Ha Hb Hn H1 H2 H3 H4. unfold isCollectableEvent.
  rewrite Ha, Hb, Hn, H1, H2, H3, H4. cbn [String.eqb Ascii.eqb Bool.eqb].
  cbn [andb orb negb]. filter_cases.
Qed.

Lemma isCollectableEvent_core_witness :
  isCollectableEvent (mkEvent "CPU_CYCLES" "CPU_CYCLES" "cpu" "") armMetadata
    scopeSystem
  = isCollectableEvent
      (mkEvent "cpu/event=0x11/" "CPU_CYCLES" "cpu" "Counts CPU clock cycles.")
      (mkMetadata "aarch64" "ARM" "Neoverse V2" false false false false true
         "" chaInventory)
      scopeSystem.
Proof.
  exact (isCollectableEvent_core
           (mkEvent "CPU_CYCLES" "CPU_CYCLES" "cpu" "")
           (mkEvent "cpu/event=0x11/" "CPU_CYCLES" "cpu"
              "Counts CPU clock cycles.")
           armMetadata
           (mkMetadata "aarch64" "ARM" "Neoverse V2" false false false false
              true "" chaInventory)
           scopeSystem eq_refl eq_refl eq_refl eq_refl eq_refl eq_refl eq_refl).
Defined.

(** X10. An event without a device is accepted only if its name, up to the
    first colon, occurs in the [perf list] output. *)
Theorem isCollectableEvent_listed (event : EventDefinition)
    (metadata : Metadata) (flagScope : Scope) :
  Device event = "" ->
  isCollectableEvent event metadata flagScope = true ->
  Contains (PerfSupportedEvents metadata) (firstField (Name event) ":")
  = true.
Proof.
  intros Hd. unfold isCollectableEvent. rewrite Hd.
  cbn [String.eqb andb orb negb]. intros H. filter_cases.
Qed.

Lemma isCollectableEvent_listed_witness :
  Contains (PerfSupportedEvents intelMetadata)
    (firstField (Name (mkEvent "cycles:k" "cycles:k" "" "")) ":") = true.
Proof.
  exact (isCollectableEvent_listed (mkEvent "cycles:k" "cycles:k" "" "")
           intelMetadata scopeSystem eq_refl eq_refl).
Defined.


(** ** The expander, continued *)

Lemma prefix_refl (s : string) : String.prefix s s = true.
Proof.
  induction s as [|c s IH]; [done|]. by rewrite prefix_cons, Ascii.eqb_refl.
Qed.

Lemma Contains_prefix (s sub : string) :
  String.prefix sub s = true -> Contains s sub = true.
Proof. intros H. destruct s; cbn [Contains]; by rewrite H. Qed.

Lemma Contains_app_r (a b sub : string) :
  Contains b sub = true -> Contains (a +:+ b) sub = true.
Proof.
  intros H. induction a as [|c a IH]; [done|].
  rewrite str_app_cons. cbn [Contains].
  by destruct (String.prefix sub (String c (a +:+ b))).
Qed.

Lemma Contains_app_here (a sub b : string) :
  Contains (a +:+ sub +:+ b) sub = true.
Proof.
  apply Contains_app_r, Contains_prefix, prefix_app_r, prefix_refl.
Qed.

Lemma Contains_refl (s : string) : Contains s s = true.
Proof. apply Contains_prefix, prefix_refl. Qed.

Lemma expandEvent_cloneOf (re : Regexp) (vendor : string) (deviceID : Z)
    (event clone : EventDefinition) :
  expandEvent re vendor deviceID event = inl clone -> cloneOf event clone.
Proof.
  unfold expandEvent.
  destruct (length (FindStringSubmatch 4 re (Raw event)) =? 0)%nat; [done|].
  set (m1 := nth 1 _ ""). set (m2 := nth 2 _ ""). set (m3 := nth 3 _ "").
  set (m4 := nth 4 _ "").
  destruct (String.eqb vendor "AuthenticAMD"); intros [= <-];
    unfold cloneOf; cbn [Device Description Raw Name];
    (split; [done|]); (split; [done|]); split; [| split | | split].
  - apply (Contains_app_r "amd_"), Contains_app_r.
    exact (Contains_app_here "/" "event" _).
  - do 4 apply Contains_app_r. exact (Contains_app_here "," "umask" _).
  - do 6 apply Contains_app_r. apply Contains_refl.
  - apply (Contains_app_r "uncore_"), Contains_app_r, Contains_app_r,
      Contains_app_r.
    exact (Contains_app_here "/" "event" _).
  - do 6 apply Contains_app_r. exact (Contains_app_here "," "umask" _).
  - do 8 apply Contains_app_r. apply Contains_refl.
Qed.

(** X12. Every event of every group the expander returns is the clone of the
    input event at its position: it keeps the device, drops the
    description, and has a raw token with both fields the filter looks
    for and with its own name. *)
Theorem expandUncoreGroup_cloneOf (group : GroupDefinition) (ids : list Z)
    (re : Regexp) (vendor : string) (groups : list GroupDefinition) :
  expandUncoreGroup group ids re vendor = (groups, None) ->
  Forall (fun newGroup => Forall2 cloneOf group newGroup) groups.
Proof.
  unfold expandUncoreGroup.
  intros (clones & -> & Hc)%expandIds_None. cbn [app].
  apply Forall_lookup. intros i newGroup Hi.
  destruct (Forall2_lookup_r _ _ _ _ _ Hc Hi) as (deviceID & _ & He).
  apply expandEvents_inl in He as (cl & -> & Hcl). cbn [app].
  eapply Forall2_impl; [exact Hcl|].
  intros event clone. apply expandEvent_cloneOf.
Qed.

Lemma expandUncoreGroup_cloneOf_witness :
  Forall (fun newGroup => Forall2 cloneOf chaGroup newGroup)
    [ [ mkEvent "uncore_cha_0/event=0x35,umask=0xc80ffe01,name='UNCCTI.IMC.0'/"
          "UNCCTI.IMC.0" "cha" "";
        mkEvent "uncore_cha_0/event=0x1,umask=0x0,name='UNCCCT.0'/"
          "UNCCCT.0" "cha" "" ];
      [ mkEvent "uncore_cha_1/event=0x35,umask=0xc80ffe01,name='UNCCTI.IMC.1'/"
          "UNCCTI.IMC.1" "cha" "";
        mkEvent "uncore_cha_1/event=0x1,umask=0x0,name='UNCCCT.1'/"
          "UNCCCT.1" "cha" "" ] ].
Proof.
  apply (expandUncoreGroup_cloneOf chaGroup [0; 1] uncoreRe "GenuineIntel").
  vm_compute. reflexivity.
Defined.

(** ** expandUncoreGroups, continued *)

Lemma expandLoop_foreign (metadata : Metadata) (re : Regexp)
    (groups acc : list GroupDefinition) :
  Forall (foreignGroup metadata) groups ->
  expandLoop metadata re groups acc = Ret (acc ++ groups, None).
Proof.
  revert acc. induction groups as [|group rest IH]; intros acc Hf;
    cbn [expandLoop]; [by rewrite app_nil_r|].
  apply Forall_cons in Hf as [(first & Hh & Hd) Hrest].
  destruct group as [|first' tl]; [done|]. injection Hh as ->.
  rewrite index_head. cbn [mbind result_bind]. rewrite Hd.
  rewrite (IH _ Hrest). by rewrite <- app_assoc.
Qed.

(** X13. Groups that do not begin with an event of an inventory device pass
    through the expansion untouched, in particular all groups when the
    inventory is empty. *)
Theorem expandUncoreGroups_foreign (groups : list GroupDefinition)
    (metadata : Metadata) :
  Forall (foreignGroup metadata) groups ->
  expandUncoreGroups groups metadata = Ret (groups, None).
Proof. intros H. exact (expandLoop_foreign metadata uncoreRe groups [] H). Qed.

Lemma expandUncoreGroups_foreign_witness :
  expandUncoreGroups
    [[mkEvent "instructions" "instructions" "" ""]; chaGroup] armMetadata
  = Ret ([[mkEvent "instructions" "instructions" "" ""]; chaGroup], None).
Proof.
  apply expandUncoreGroups_foreign.
  repeat constructor; eexists; (split; [reflexivity|]); vm_compute;
    reflexivity.
Defined.

(** Without an inventory no group is expanded, whatever its events. *)
Lemma foreignGroup_empty_inventory (metadata : Metadata)
    (group : GroupDefinition) :
  UncoreDeviceIDs metadata = ∅ -> group <> [] -> foreignGroup metadata group.
Proof.
  intros He Hg. destruct group as [|first tl]; [done|].
  exists first. split; [done|]. unfold deviceTypes. rewrite He.
  by rewrite map_to_list_empty.
Qed.


(** ** The loaders, continued *)

(** The groups the expander returns have the length of its input. *)
Lemma expandUncoreGroup_lengths (group : GroupDefinition) (ids : list Z)
    (re : Regexp) (vendor : string) (groups : list GroupDefinition) :
  expandUncoreGroup group ids re vendor = (groups, None) ->
  Forall (fun newGroup => length newGroup = length group) groups.
Proof.
  unfold expandUncoreGroup.
  intros (clones & -> & Hc)%expandIds_None. cbn [app].
  apply Forall_lookup. intros i newGroup Hi.
  destruct (Forall2_lookup_r _ _ _ _ _ Hc Hi) as (deviceID & _ & He).
  apply expandEvents_inl in He as (cl & -> & Hcl). cbn [app].
  symmetry. by eapply Forall2_length.
Qed.

Section LoaderFacts.

Variables (metadata : Metadata) (flagScope : Scope).



(** What one line does to the flushed groups: it leaves them or appends
    one non-empty group, and only a line that closes a group appends. *)
Lemma scanStep_groups (st st' : ScanState) (text : string) :
  scanStep metadata flagScope st text = Ret (Next st') ->
  scanGroups st' = scanGroups st
  \/ (endsGroup text = true
      /\ exists group, group <> [] /\ scanGroups st' = scanGroups st ++ [group]).
Proof.
  unfold scanStep, endsGroup.
  destruct (skipped (TrimSpace text)); [intros [= <-]; by left|].
  destruct (slice _ 0 _) as [record|]; cbn [mbind result_bind]; [|done].
  destruct (parseEventDefinition record) as [[parsed [err|]]|];
    cbn [mbind result_bind]; try done.
  destruct (byteAt _ _) as [last|]; cbn [mbind result_bind]; [|done].
  destruct (Ascii.eqb last ";").
  2:{ destruct (isCollectableEvent _ _ _); intros [= <-]; by left. }
  destruct (isCollectableEvent _ _ _);
    cbn [scanGroups scanGroup scanUncollectable].
  - destruct (0 <? length (scanGroup st ++ [abbreviateEvent parsed]))%nat
      eqn:Hl; intros [= <-]; [|by left].
    right. split; [done|]. eexists. split; [|reflexivity].
    by destruct (scanGroup st).
  - destruct (0 <? length (scanGroup st))%nat eqn:Hl; intros [= <-];
      [|by left].
    right. split; [done|]. eexists. split; [|reflexivity].
    by destruct (scanGroup st).
Qed.

Lemma scanStep_Abort (st : ScanState) (text : string)
    (groups : list GroupDefinition) (err : error) :
  scanStep metadata flagScope st text = Ret (Abort groups err) ->
  groups = scanGroups st.
Proof.
  unfold scanStep.
  destruct (skipped (TrimSpace text)); [done|].
  destruct (slice _ 0 _) as [record|]; cbn [mbind result_bind]; [|done].
  destruct (parseEventDefinition record) as [[parsed [e|]]|];
    cbn [mbind result_bind]; try done.
  - by intros [= <- _].
  - destruct (byteAt _ _) as [last|]; cbn [mbind result_bind]; [|done].
    destruct (Ascii.eqb last ";"); destruct (isCollectableEvent _ _ _);
      cbn [scanGroups scanGroup scanUncollectable]; try done;
      by repeat match goal with |- context [if ?b then _ else _] =>
                  destruct b end.
Qed.

Lemma scanStep_Panic (st : ScanState) (text : string) :
  scanStep metadata flagScope st text = Panic ->
  exists record,
    dataLine text = Some record /\ parseEventDefinition record = Panic.
Proof.
  unfold scanStep. destruct (dataLine text) as [record|] eqn:Hd.
  2:{ apply dataLine_None in Hd. by rewrite Hd. }
  apply slice_dataLine in Hd as [Hs Hsl]. rewrite Hs, Hsl.
  cbn [mbind result_bind]. intros Hstep. exists record. split; [done|].
  destruct (parseEventDefinition record) as [[parsed [e|]]|];
    cbn [mbind result_bind] in Hstep; try done.
  destruct (byteAt_last _ Hs) as [last Hl]. rewrite Hl in Hstep.
  cbn [mbind result_bind] in Hstep.
  by repeat match type of Hstep with context [if ?b then _ else _] =>
              destruct b end.
Qed.

Lemma scanLoop_nonempty (texts : list string) (st : ScanState) :
  Forall (fun g => g <> []) (scanGroups st) ->
  match scanLoop metadata flagScope texts st with
  | Ret (Next st') => Forall (fun g => g <> []) (scanGroups st')
  | Ret (Abort groups _) => Forall (fun g => g <> []) groups
  | Panic => True
  end.
Proof.
  revert st. induction texts as [|text rest IH]; intros st Hst; [done|].
  cbn [scanLoop].
  destruct (scanStep metadata flagScope st text) as [[st1|gs err]|] eqn:Hs;
    cbn [mbind result_bind]; [|by apply scanStep_Abort in Hs as ->|done].
  apply IH. apply scanStep_groups in Hs as [->|(_ & group & Hg & ->)];
    [done|].
  apply Forall_app. split; [done|]. by constructor.
Qed.

Lemma scanLoop_Panic (texts : list string) (st : ScanState) :
  scanLoop metadata flagScope texts st = Panic ->
  exists text record,
    text ∈ texts /\ dataLine text = Some record
    /\ parseEventDefinition record = Panic.
Proof.
  revert st. induction texts as [|text rest IH]; intros st; [done|].
  cbn [scanLoop].
  destruct (scanStep metadata flagScope st text) as [[st1|gs err]|] eqn:Hs;
    cbn [mbind result_bind]; [|done|].
  - intros (t & record & Hin & H)%IH. exists t, record.
    split; [by right|done].
  - intros _. apply scanStep_Panic in Hs as (record & H).
    exists text, record. split; [by left|done].
Qed.

(** Lines that close no group leave the flushed groups as they are. *)
Lemma scanLoop_unterminated (tail : list string) (st st' : ScanState) :
  Forall (fun text => endsGroup text = false) tail ->
  scanLoop metadata flagScope tail st = Ret (Next st') ->
  scanGroups st' = scanGroups st.
Proof.
  revert st. induction tail as [|text rest IH]; intros st Ht;
    cbn [scanLoop]; [by intros [= <-]|].
  apply Forall_cons in Ht as [Ht Hrest].
  destruct (scanStep metadata flagScope st text) as [[st1|gs err]|] eqn:Hs;
    cbn [mbind result_bind]; try done.
  intros ->%(IH _ Hrest).
  apply scanStep_groups in Hs as [->|(He & _)]; [done|congruence].
Qed.

(** The expansion of non-empty groups does not panic and returns
    non-empty groups, with or without an error. *)
Lemma expandLoop_nonempty (re : Regexp) (groups acc : list GroupDefinition) :
  Forall (fun g => g <> []) groups -> Forall (fun g => g <> []) acc ->
  exists out err,
    expandLoop metadata re groups acc = Ret (out, err)
    /\ Forall (fun g => g <> []) out.
Proof.
  revert acc. induction groups as [|group rest IH]; intros acc Hg Ha;
    cbn [expandLoop]; [eauto|].
  apply Forall_cons in Hg as [Hne Hrest].
  destruct group as [|first tl]; [done|].
  rewrite index_head. cbn [mbind result_bind].
  destruct (slices_Contains (deviceTypes metadata) (Device first)).
  2:{ apply IH; [done|]. apply Forall_app. split; [done|]. by constructor. }
  destruct (length (deviceIDs metadata (Device first)) =? 0)%nat;
    [by apply IH|].
  destruct (expandUncoreGroup _ _ _ _) as [newGroups [err|]] eqn:He; [eauto|].
  apply IH; [done|]. apply Forall_app. split; [done|].
  apply expandUncoreGroup_lengths in He.
  eapply Forall_impl; [exact He|]. intros g Hl. cbn beta in Hl.
  by destruct g.
Qed.

End LoaderFacts.

(** How [LoadArmEventGroups] can end: with an error of its prologue and
    nothing else, or with what the loop over a directory listing gives. *)
Lemma LoadArmEventGroups_cases (fsys : FileSystem) (flagScope : Scope)
    (path : string) (metadata : Metadata) :
  (exists err,
     LoadArmEventGroups fsys flagScope path metadata = ([], [], Some err))
  \/ exists eventFiles,
       LoadArmEventGroups fsys flagScope path metadata
       = loadArmFiles metadata flagScope eventFiles.
Proof.
  unfold LoadArmEventGroups.
  repeat match goal with
         | |- context [match ?x with _ => _ end] => destruct x
         end; eauto.
Qed.

Lemma armEventsLoop_filter (metadata : Metadata) (flagScope : Scope)
    (armEvents : list ARM64Event) (currentGroup : GroupDefinition)
    (uncollectable : gset string) :
  (armEventsLoop metadata flagScope armEvents currentGroup uncollectable).1
  = currentGroup
    ++ List.filter (fun e => isCollectableEvent e metadata flagScope)
         (List.map armEventOf armEvents).
Proof.
  revert currentGroup uncollectable.
  induction armEvents as [|armEvent rest IH]; intros g u;
    [by rewrite app_nil_r|].
  cbn [armEventsLoop List.map List.filter].
  destruct (isCollectableEvent (armEventOf armEvent) metadata flagScope).
  - rewrite IH. by rewrite <- app_assoc.
  - apply IH.
Qed.

Lemma armFileStep_groups (metadata : Metadata) (flagScope : Scope)
    (st : ArmState) (fileEntry : DirEntry) :
  armGroups (armFileStep metadata flagScope st fileEntry)
  = armGroups st
    ++ match armGroupOf metadata flagScope fileEntry with
       | Some group => [group]
       | None => []
       end.
Proof.
  unfold armFileStep, armGroupOf, isJsonFile.
  destruct (negb (EntryIsDir fileEntry)
            && HasSuffix (ToLower (EntryName fileEntry)) ".json");
    [|by rewrite app_nil_r].
  destruct (EntryFile fileEntry) as [err|err|armEvents];
    try by rewrite app_nil_r.
  pose proof (armEventsLoop_filter metadata flagScope armEvents []
                (armUncollectable st)) as Hf.
  destruct (armEventsLoop _ _ _ _ _) as [currentGroup uncollectable].
  cbn [fst app] in Hf. subst currentGroup.
  destruct (0 <? length _)%nat; [done|by rewrite app_nil_r].
Qed.

Lemma armFiles_fold_groups (metadata : Metadata) (flagScope : Scope)
    (eventFiles : list DirEntry) (st : ArmState) :
  armGroups (fold_left (armFileStep metadata flagScope) eventFiles st)
  = armGroups st ++ omap (armGroupOf metadata flagScope) eventFiles.
Proof.
  revert st. induction eventFiles as [|f fs IH]; intros st;
    [by rewrite app_nil_r|].
  cbn [fold_left]. rewrite IH, armFileStep_groups. cbn [omap list_omap].
  rewrite <- app_assoc. f_equal.
  by destruct (armGroupOf metadata flagScope f).
Qed.

(** X14. The ARM loader returns one group per decoded [*.json] file that has a
    collectable record, in the order of the directory listing, made of the
    collectable records of the file in their order. *)
Theorem loadArmFiles_groups (metadata : Metadata) (flagScope : Scope)
    (eventFiles : list DirEntry) :
  (loadArmFiles metadata flagScope eventFiles).1.1
  = omap (armGroupOf metadata flagScope) eventFiles.
Proof.
  unfold loadArmFiles. cbn [fst]. by rewrite armFiles_fold_groups.
Qed.

Lemma armFileStep_other (metadata : Metadata) (flagScope : Scope)
    (st : ArmState) (fileEntry : DirEntry) :
  isJsonFile fileEntry = false ->
  armFileStep metadata flagScope st fileEntry = st.
Proof. unfold armFileStep, isJsonFile. by intros ->. Qed.

(** X15. Directories and files whose name does not end in [.json], whatever
    the case of the letters, do not count: the load gives the same groups
    and the same error without them. *)
Theorem loadArmFiles_json_only (metadata : Metadata) (flagScope : Scope)
    (eventFiles : list DirEntry) :
  loadArmFiles metadata flagScope eventFiles
  = loadArmFiles metadata flagScope (List.filter isJsonFile eventFiles).
Proof.
  unfold loadArmFiles.
  assert (forall st,
            fold_left (armFileStep metadata flagScope) eventFiles st
            = fold_left (armFileStep metadata flagScope)
                (List.filter isJsonFile eventFiles) st) as H.
  { induction eventFiles as [|f fs IH]; intros st; [done|].
    cbn [fold_left List.filter]. destruct (isJsonFile f) eqn:Hj.
    - cbn [fold_left]. apply IH.
    - rewrite (armFileStep_other _ _ _ _ Hj). apply IH. }
  by rewrite H.
Qed.

(** X16. On the ARM path the list of uncollectable events comes back empty,
    whatever the filter rejected. *)
Theorem LoadEventGroups_arm_uncollectable (fsys : FileSystem)
    (flagScope : Scope) (path : string) (metadata : Metadata)
    (groups : list GroupDefinition) (uncollectableEvents : list string)
    (err : option error) :
  isArm metadata = true ->
  LoadEventGroups fsys flagScope path metadata
  = Ret (groups, uncollectableEvents, err) ->
  uncollectableEvents = [].
Proof.
  unfold LoadEventGroups. intros ->. intros [= H].
  destruct (LoadArmEventGroups_cases fsys flagScope path metadata)
    as [[e He]|[eventFiles He]]; rewrite He in H.
  - by injection H as _ <- _.
  - unfold loadArmFiles in H. by injection H as _ <- _.
Qed.

Lemma LoadEventGroups_arm_uncollectable_witness :
  isCollectableEvent (armEventOf (mkArmEvent "TOPDOWN.SLOTS" "slots"))
    armMetadata scopeSystem = false
  /\ LoadEventGroups
       (armResources
          [mkEntry "topdown.json" false
             (Decoded [mkArmEvent "TOPDOWN.SLOTS" "slots"])])
       scopeSystem "" armMetadata
     = Ret ([], [], None)
  /\ @nil string = [].
Proof.
  split; [reflexivity|]. split; [reflexivity|].
  exact (LoadEventGroups_arm_uncollectable
           (armResources
              [mkEntry "topdown.json" false
                 (Decoded [mkArmEvent "TOPDOWN.SLOTS" "slots"])])
           scopeSystem "" armMetadata [] [] None eq_refl eq_refl).
Defined.

(** X17. Every group a loader returns has at least one event, also when it
    returns an error. *)
Theorem LoadEventGroups_nonempty (fsys : FileSystem) (flagScope : Scope)
    (path : string) (metadata : Metadata) (groups : list GroupDefinition)
    (uncollectableEvents : list string) (err : option error) :
  LoadEventGroups fsys flagScope path metadata
  = Ret (groups, uncollectableEvents, err) ->
  Forall (fun g => g <> []) groups.
Proof.
  unfold LoadEventGroups. destruct (isArm metadata).
  - intros [= H].
    destruct (LoadArmEventGroups_cases fsys flagScope path metadata)
      as [[e He]|[eventFiles He]]; rewrite He in H.
    + injection H as <- _ _. constructor.
    + unfold loadArmFiles in H. injection H as <- _ _.
      rewrite armFiles_fold_groups. cbn [armGroups app].
      apply Forall_forall. intros g (fileEntry & _ & Hf)%list_elem_of_omap.
      unfold armGroupOf in Hf.
      destruct (isJsonFile fileEntry); [|done].
      destruct (EntryFile fileEntry) as [| |armEvents]; try done.
      destruct (0 <? length _)%nat eqn:Hl; [|done]. injection Hf as <-.
      intros Hn. rewrite Hn in Hl. done.
  - destruct (openCatalog fsys path metadata) as [file|e];
      [|intros [= <- _ _]; constructor].
    unfold loadFile.
    pose proof (scanLoop_nonempty metadata flagScope (Lines file)
                  (mkScan [] [] ∅) ltac:(constructor)) as Hs.
    destruct (scanLoop metadata flagScope (Lines file) (mkScan [] [] ∅))
      as [[st|gs e]|]; cbn [mbind result_bind]; [|by intros [= <- _ _]|done].
    destruct (ScanErr file); [by intros [= <- _ _]|].
    destruct (expandLoop_nonempty metadata uncoreRe (scanGroups st) [] Hs
                ltac:(constructor)) as (out & e & He & Hout).
    unfold expandUncoreGroups. rewrite He. cbn [mbind result_bind fst].
    by intros [= <- _ _].
Qed.

Lemma LoadEventGroups_nonempty_witness :
  Forall (fun g => g <> [])
    [[mkEvent "instructions" "instructions" "" ""]].
Proof.
  exact (LoadEventGroups_nonempty
           (overrideFile ["instructions;"; "bogus;"; "x,yyyyyy;"])
           scopeSystem "events.txt" intelMetadata _ [] _ eq_refl).
Defined.

(** X18. The load panics only where the parser does: on a line of the catalog
    whose record makes [parseEventDefinition] panic. *)
Theorem LoadEventGroups_panic (fsys : FileSystem) (flagScope : Scope)
    (path : string) (metadata : Metadata) :
  LoadEventGroups fsys flagScope path metadata = Panic ->
  exists file text record,
    openCatalog fsys path metadata = inl file
    /\ text ∈ Lines file
    /\ dataLine text = Some record
    /\ parseEventDefinition record = Panic.
Proof.
  unfold LoadEventGroups. destruct (isArm metadata); [done|].
  destruct (openCatalog fsys path metadata) as [file|e]; [|done].
  unfold loadFile.
  pose proof (scanLoop_nonempty metadata flagScope (Lines file)
                (mkScan [] [] ∅) ltac:(constructor)) as Hs.
  destruct (scanLoop metadata flagScope (Lines file) (mkScan [] [] ∅))
    as [[st|gs e]|] eqn:Hscan; cbn [mbind result_bind]; [|done|].
  - destruct (ScanErr file); [done|].
    destruct (expandLoop_nonempty metadata uncoreRe (scanGroups st) [] Hs
                ltac:(constructor)) as (out & e & He & _).
    unfold expandUncoreGroups. by rewrite He.
  - intros _. apply scanLoop_Panic in Hscan as (text & record & H).
    by exists file, text, record.
Qed.

Lemma LoadEventGroups_panic_witness :
  exists file text record,
    openCatalog (overrideFile ["instructions;"; "a,b;"; "cycles;"])
      "events.txt" intelMetadata = inl file
    /\ text ∈ Lines file
    /\ dataLine text = Some record
    /\ parseEventDefinition record = Panic.
Proof.
  exact (LoadEventGroups_panic
           (overrideFile ["instructions;"; "a,b;"; "cycles;"]) scopeSystem
           "events.txt" intelMetadata eq_refl).
Defined.


(** X20. The events after the last line that closes a group are dropped
    without a word: a catalog that loads with such lines at its end loads
    the same groups without them. *)
Theorem loadFile_unterminated (metadata : Metadata) (flagScope : Scope)
    (texts tail : list string) (groups : list GroupDefinition)
    (uncollectableEvents : list string) :
  Forall (fun text => endsGroup text = false) tail ->
  loadFile metadata flagScope (mkFile (texts ++ tail) None)
  = Ret (groups, uncollectableEvents, None) ->
  exists uncollectableEvents',
    loadFile metadata flagScope (mkFile texts None)
    = Ret (groups, uncollectableEvents', None).
Proof.
  intros Ht. unfold loadFile. cbn [Lines ScanErr]. rewrite scanLoop_app.
  destruct (scanLoop metadata flagScope texts (mkScan [] [] ∅))
    as [[st1|gs e]|]; cbn [mbind result_bind]; [|done|done].
  destruct (scanLoop metadata flagScope tail st1) as [[st2|gs e]|] eqn:Hs;
    cbn [mbind result_bind]; [|done|done].
  rewrite (scanLoop_unterminated metadata flagScope tail st1 st2 Ht Hs).
  destruct (expandUncoreGroups (scanGroups st1) metadata) as [[out e]|];
    cbn [mbind result_bind fst snd]; [|done].
  intros [= <- _ <-]. eauto.
Qed.

Lemma loadFile_unterminated_witness :
  exists uncollectableEvents',
    loadFile intelMetadata scopeSystem (mkFile ["instructions;"] None)
    = Ret ([[mkEvent "instructions" "instructions" "" ""]],
           uncollectableEvents', None).
Proof.
  apply (loadFile_unterminated intelMetadata scopeSystem ["instructions;"]
           ["cycles,"; "bogus,"] _ ["bogus"]).
  - repeat constructor.
  - vm_compute. reflexivity.
Defined.


(** X11. An event on a device other than the core is accepted only in the
    system-wide scope, only with its device in the inventory, and only
    with ["umask"] or ["event"] in its raw token (one of the two is
    enough). *)
Theorem isCollectableEvent_uncore (event : EventDefinition)
    (metadata : Metadata) (flagScope : Scope) :
  Device event <> "" -> Device event <> "cpu" ->
  isCollectableEvent event metadata flagScope = true ->
  flagScope = scopeSystem
  /\ is_Some (UncoreDeviceIDs metadata !! Device event)
  /\ Contains (Raw event) "umask" || Contains (Raw event) "event" = true.
Proof.
  intros Hne Hncpu H.
  destruct flagScope;
    [|by rewrite uncore_rejected_outside_system in H..].
  split; [done|].
  destruct (uncore_accepted_system metadata event Hne Hncpu H) as [Hd Hr].
  split; [by apply deviceTypes_spec|done].
Qed.

Lemma isCollectableEvent_uncore_witness :
  scopeSystem = scopeSystem
  /\ is_Some (UncoreDeviceIDs intelMetadata !! "cha")
  /\ Contains "cha/event=0x1,umask=0x0,name='UNCCCT'/" "umask"
     || Contains "cha/event=0x1,umask=0x0,name='UNCCCT'/" "event" = true.
Proof.
  apply (isCollectableEvent_uncore
           (mkEvent "cha/event=0x1,umask=0x0,name='UNCCCT'/" "UNCCCT" "cha" "")
           intelMetadata scopeSystem); done.
Defined.

(** ** The perf binary and the perf command *)

Lemma string_of_uint_bytes (d : Decimal.uint) (c : ascii) :
  hasByte c "0123456789" = false ->
  hasByte c (NilEmpty.string_of_uint d) = false.
Proof.
  cbn [hasByte]. intros H.
  repeat (apply orb_false_elim in H as [? H]).
  induction d as [|d IH|d IH|d IH|d IH|d IH|d IH|d IH|d IH|d IH|d IH];
    cbn [NilEmpty.string_of_uint hasByte]; [done|..];
    rewrite IH, orb_false_r; assumption.
Qed.

Lemma itoa_uint (n : Z) :
  0 <= n ->
  exists d, d <> Decimal.Nil /\ itoa n = NilEmpty.string_of_uint d
            /\ Z.of_uint d = n.
Proof.
  intros Hn. unfold itoa.
  pose proof (DecimalZ.of_to n) as Hof.
  destruct n as [|p|p]; [| |lia]; cbn [Z.to_int] in *.
  - exists Decimal.zero. done.
  - exists (Pos.to_uint p). split; [apply DecimalPos.Unsigned.to_uint_nonnil|].
    done.
Qed.

Lemma itoa_bytes (n : Z) (c : ascii) :
  0 <= n -> hasByte c "0123456789" = false -> hasByte c (itoa n) = false.
Proof.
  intros Hn Hc. destruct (itoa_uint n Hn) as (d & _ & -> & _).
  by apply string_of_uint_bytes.
Qed.

(** Reading back what [%d] printed. *)
Lemma Atoi_itoa (n : Z) : 0 <= n <= maxInt -> Atoi (itoa n) = (n, None).
Proof.
  intros [Hn Hmax]. destruct (itoa_uint n Hn) as (d & Hd & -> & Hv).
  unfold Atoi.
  assert (exists c t, NilEmpty.string_of_uint d = String c t
                      /\ Ascii.eqb c "-" = false /\ Ascii.eqb c "+" = false)
    as (c & t & Hs & Hm & Hp).
  { destruct d; [done|..]; cbn [NilEmpty.string_of_uint]; eauto. }
  pose proof (NilEmpty.usu d) as Hu. rewrite Hs in *.
  assert ((match String c t with
           | String "-" t0 => (true, t0)
           | String "+" t0 => (false, t0)
           | _ => (false, String c t)
           end) = (false, String c t)) as ->.
  { apply Ascii.eqb_neq in Hm, Hp.
    destruct c as [[] [] [] [] [] [] [] []]; try reflexivity; done. }
  rewrite Hu, Hv.
  destruct (Z.ltb_spec maxInt n); [lia|].
  destruct (Z.ltb_spec n minInt); [unfold minInt in *; lia|]. done.
Qed.

Lemma index_second {A : Type} (x y : A) (xs : list A) :
  index (x :: y :: xs) 1 = Ret y.
Proof.
  unfold index.
  destruct (Z.ltb_spec 1 (Z.of_nat (length (x :: y :: xs)))) as [_|Hle];
    [reflexivity|].
  cbn [length] in Hle. lia.
Qed.

Lemma index_panic_iff {A : Type} (xs : list A) (i : Z) :
  index xs i = Panic <-> i < 0 \/ Z.of_nat (length xs) <= i.
Proof.
  unfold index.
  destruct (Z.leb_spec 0 i); [|split; [lia|done]].
  destruct (Z.ltb_spec i (Z.of_nat (length xs))); [|split; [lia|done]].
  cbn [andb].
  destruct (nth_error xs (Z.to_nat i)) eqn:E; [split; [done|lia]|].
  apply nth_error_None in E. lia.
Qed.

(** The version test on the output [perf version MAJOR.MINOR...]. *)
Lemma hasPerf_version (output suffix : string) (major minor : Z) :
  Contains output "perf version" = true ->
  TrimSpace output
  = "perf version " +:+ itoa major +:+ "." +:+ itoa minor +:+ suffix ->
  0 <= major <= maxInt -> 0 <= minor <= maxInt ->
  Contains suffix " " = false ->
  (suffix = "" \/ exists rest, suffix = "." +:+ rest) ->
  hasPerf output None = Ret (atLeast61 major minor).
Proof.
  intros Hc Ht HM Hm Hsp Hsuf. rewrite Contains_byte in Hsp.
  unfold hasPerf. rewrite Hc, Ht.
  set (version := itoa major +:+ "." +:+ itoa minor +:+ suffix).
  assert (hasByte " " version = false) as Hv.
  { unfold version. rewrite !hasByte_app, Hsp.
    rewrite !itoa_bytes by (lia || reflexivity). reflexivity. }
  assert (Split ("perf version " +:+ version) " "
          = ["perf"; "version"; version]) as ->.
  { change ("perf version " +:+ version)
      with ("perf" +:+ String " " ("version" +:+ String " " version)).
    rewrite !Split_app_sep, (Split_hasByte_absent version " " Hv).
    reflexivity. }
  change (index ["perf"; "version"; version] 2) with (Ret version).
  cbn [mbind result_bind].
  assert (exists more,
            Split version "." = itoa major :: itoa minor :: more)
    as (more & ->).
  { unfold version.
    change (itoa major +:+ "." +:+ itoa minor +:+ suffix)
      with (itoa major +:+ String "." (itoa minor +:+ suffix)).
    rewrite Split_app_sep.
    rewrite (Split_hasByte_absent (itoa major) ".")
      by (apply itoa_bytes; [lia|reflexivity]).
    destruct Hsuf as [->|[rest ->]].
    - rewrite str_app_nil_r.
      rewrite (Split_hasByte_absent (itoa minor) ".")
        by (apply itoa_bytes; [lia|reflexivity]).
      by exists [].
    - change (itoa minor +:+ "." +:+ rest)
        with (itoa minor +:+ String "." rest).
      rewrite Split_app_sep.
      rewrite (Split_hasByte_absent (itoa minor) ".")
        by (apply itoa_bytes; [lia|reflexivity]).
      by exists (Split rest "."). }
  destruct (Z.leb_spec 2 (Z.of_nat (length (itoa major :: itoa minor :: more))))
    as [_|Hl]; [|cbn [length] in Hl; lia].
  rewrite index_head, index_second. cbn [mbind result_bind].
  by rewrite !Atoi_itoa.
Qed.

(** X21. On a remote target that prints [perf version MAJOR.MINOR], possibly
    followed by a dot and more, the perf of the target is used exactly
    when the version is 6.1 or later; otherwise the local binary is
    pushed. *)
Theorem getPerfPath_version (path_Join : string -> string -> string)
    (myTarget : Target) (localPerfPath suffix : string) (major minor : Z) :
  IsLocalTarget myTarget = false ->
  (RunPerfVersion myTarget).2 = None ->
  Contains (RunPerfVersion myTarget).1 "perf version" = true ->
  TrimSpace (RunPerfVersion myTarget).1
  = "perf version " +:+ itoa major +:+ "." +:+ itoa minor +:+ suffix ->
  0 <= major <= maxInt -> 0 <= minor <= maxInt ->
  Contains suffix " " = false ->
  (suffix = "" \/ exists rest, suffix = "." +:+ rest) ->
  getPerfPath path_Join myTarget localPerfPath
  = if atLeast61 major minor then Ret ("perf", None)
    else pushPerf path_Join myTarget localPerfPath.
Proof.
  intros Hl He Hc Ht HM Hm Hs Hsuf. unfold getPerfPath. rewrite Hl, He.
  by rewrite (hasPerf_version _ suffix major minor Hc Ht HM Hm Hs Hsuf).
Qed.

Lemma getPerfPath_version_witness :
  let remote (output : string) :=
    mkTarget false (output, None) "/tmp/perfspect"
      (fun _ _ => None) in
  getPerfPath (fun dir file => dir +:+ "/" +:+ file)
    (remote ("perf version 6.8.12" +:+ newline)) "/opt/perfspect/perf"
  = Ret ("perf", None)
  /\ getPerfPath (fun dir file => dir +:+ "/" +:+ file)
       (remote "perf version 5.15.0") "/opt/perfspect/perf"
     = Ret ("/tmp/perfspect/perf", None).
Proof.
  intros remote. split.
  - refine (eq_trans
              (getPerfPath_version _ (remote ("perf version 6.8.12" +:+ newline)) "/opt/perfspect/perf" ".12" 6 8 eq_refl eq_refl eq_refl eq_refl _ _
                 eq_refl _) eq_refl); try done.
    right. by exists "12".
  - refine (eq_trans
              (getPerfPath_version _ (remote "perf version 5.15.0")
                 "/opt/perfspect/perf" ".0" 5 15 eq_refl eq_refl eq_refl
                 eq_refl _ _ eq_refl _) eq_refl); try done.
    right. by exists "0".
Defined.

Lemma hasPerf_panic_iff (output : string) (err : option error) :
  hasPerf output err = Panic
  <-> err = None /\ Contains output "perf version" = true
      /\ (length (Split (TrimSpace output) " ") < 3)%nat.
Proof.
  unfold hasPerf. destruct err as [e|]; [split; [done|by intros [? _]]|].
  destruct (Contains output "perf version");
    [|split; [done|by intros (_ & ? & _)]].
  destruct (index (Split (TrimSpace output) " ") 2) as [version|] eqn:Hi.
  - cbn [mbind result_bind].
    assert (~ (length (Split (TrimSpace output) " ") < 3)%nat) as Hlen.
    { intros Hl.
      assert (index (Split (TrimSpace output) " ") 2 = Panic) as Hp
        by (apply index_panic_iff; lia).
      congruence. }
    split; [|by intros (_ & _ & ?)]. intros H. exfalso.
    destruct (Split version ".") as [|a [|b more]];
      [by simpl in H|by simpl in H|].
    destruct (2 <=? Z.of_nat (length (a :: b :: more))); [|done].
    rewrite index_head, index_second in H. done.
  - cbn [mbind result_bind]. apply index_panic_iff in Hi.
    split; [|done]. intros _. repeat split. lia.
Qed.

(** X22. [getPerfPath] panics in two cases only, both on a remote target: the
    output of [perf --version] holds [perf version] and has fewer than
    three fields, or the version test fails and the target has no
    temporary directory. *)
Theorem getPerfPath_panic_iff (path_Join : string -> string -> string)
    (myTarget : Target) (localPerfPath : string) :
  getPerfPath path_Join myTarget localPerfPath = Panic
  <-> IsLocalTarget myTarget = false
      /\ (((RunPerfVersion myTarget).2 = None
           /\ Contains (RunPerfVersion myTarget).1 "perf version" = true
           /\ (length (Split (TrimSpace (RunPerfVersion myTarget).1) " ") < 3)%nat)
          \/ (hasPerf (RunPerfVersion myTarget).1 (RunPerfVersion myTarget).2
              = Ret false
              /\ GetTempDirectory myTarget = "")).
Proof.
  unfold getPerfPath. destruct (IsLocalTarget myTarget);
    [split; [done|by intros [? _]]|].
  pose proof (hasPerf_panic_iff (RunPerfVersion myTarget).1
                (RunPerfVersion myTarget).2) as Hp.
  destruct (hasPerf _ _) as [[|]|]; cbn [mbind result_bind].
  - split; [done|]. intros [_ [H%Hp|[H _]]]; done.
  - unfold pushPerf.
    destruct (String.eqb_spec (GetTempDirectory myTarget) "") as [Ht|Ht].
    + split; [|done]. intros _. split; [done|]. by right.
    + split.
      * by destruct (PushFile myTarget localPerfPath (GetTempDirectory myTarget)).
      * intros [_ [H%Hp|[_ H]]]; done.
  - split; [|done]. intros _. split; [done|]. left. by apply Hp.
Qed.

(** X23. The timeout decides nothing when the command runs an application or
    counts per cgroup: [getPerfCommand] then gives the same command
    whatever the duration, the refresh period and the list of pids are,
    and its last arguments are the application's or the event list. *)
Theorem getPerfCommand_timeout (flags flags' : Flags) (flagScope : Scope)
    (perfPath : string) (eventGroups : list GroupDefinition)
    (pids cids : list string) (numGPCounters : Z) :
  flagPerfPrintInterval flags = flagPerfPrintInterval flags' ->
  flagGranularity flags = flagGranularity flags' ->
  argsApplication flags = argsApplication flags' ->
  argsApplication flags <> [] \/ flagScope = scopeCgroup ->
  getPerfCommand flags flagScope perfPath eventGroups pids cids numGPCounters
  = getPerfCommand flags' flagScope perfPath eventGroups pids cids
      numGPCounters.
Proof.
  intros Hi Hg Ha Hcase. unfold getPerfCommand, getPerfCommandArgs.
  rewrite <- Hi, <- Hg, <- Ha.
  destruct (argsApplication flags) as [|a app] eqn:Happ; [|done].
  destruct Hcase as [?| ->]; done.
Qed.

Lemma getPerfCommand_timeout_witness :
  getPerfCommand (mkFlags 5 granularitySystem [] 60 30 []) scopeCgroup "perf"
    [chaGroup] [] ["docker/abc"] 8
  = getPerfCommand (mkFlags 5 granularitySystem [] 0 10 ["1"]) scopeCgroup
      "perf" [chaGroup] [] ["docker/abc"] 8.
Proof.
  apply getPerfCommand_timeout; try done. by right.
Defined.

(** ** The loaders and the filter together *)

Lemma collectable_deviceAllowed (metadata : Metadata) (flagScope : Scope)
    (event : EventDefinition) :
  isCollectableEvent event metadata flagScope = true ->
  deviceAllowed metadata flagScope event.
Proof.
  intros H. unfold deviceAllowed.
  destruct (String.eqb_spec (Device event) "") as [|Hne]; [by left|].
  destruct (String.eqb_spec (Device event) "cpu") as [|Hncpu];
    [by right; left|].
  right. right.
  destruct flagScope;
    [|by rewrite uncore_rejected_outside_system in H..].
  split; [done|].
  destruct (uncore_accepted_system metadata event Hne Hncpu H) as [Hd _].
  by apply deviceTypes_spec.
Qed.

(** X24. Every event a successful load returns is a core event, an event
    without a device, or, in the system-wide scope only, an event of a
    device type of the inventory: a catalog loaded for a process or a
    cgroup, or on a platform without uncore devices, holds no uncore
    event. *)
Theorem LoadEventGroups_devices (fsys : FileSystem) (flagScope : Scope)
    (path : string) (metadata : Metadata) (groups : list GroupDefinition)
    (uncollectableEvents : list string) :
  LoadEventGroups fsys flagScope path metadata
  = Ret (groups, uncollectableEvents, None) ->
  Forall (Forall (deviceAllowed metadata flagScope)) groups.
Proof.
  unfold LoadEventGroups. destruct (isArm metadata).
  - intros [= (eventFiles & Hl)%LoadArmEventGroups_None].
    pose proof (loadArmFiles_collectable metadata flagScope eventFiles) as Hc.
    rewrite Hl in Hc. cbn [fst] in Hc.
    eapply Forall_impl; [exact Hc|]. intros g Hg. cbn beta in Hg.
    eapply Forall_impl; [exact Hg|]. intros e.
    apply collectable_deviceAllowed.
  - destruct (openCatalog fsys path metadata) as [file|err]; [|done].
    unfold loadFile.
    destruct (scanLoop metadata flagScope (Lines file) (mkScan [] [] ∅))
      as [[st|gs err]|] eqn:Hscan; cbn [mbind result_bind]; try done.
    destruct (ScanErr file); [done|].
    destruct (expandUncoreGroups (scanGroups st) metadata)
      as [[out [err|]]|] eqn:He; cbn [mbind result_bind fst snd]; try done.
    intros [= <- _].
    assert (scanned metadata flagScope (fun _ => True) st) as (Hgs & _ & _).
    { eapply scanLoop_scanned; [exact Hscan| |].
      - by apply Forall_forall.
      - split; [constructor|split; [constructor|]].
        intros name Hin. by apply elem_of_empty in Hin. }
    assert (Forall (Forall (deviceAllowed metadata flagScope)) (scanGroups st))
      as Hd.
    { eapply Forall_impl; [exact Hgs|]. intros g Hg. cbn beta in Hg.
      eapply Forall_impl; [exact Hg|]. intros e [Hc _].
      by apply collectable_deviceAllowed. }
    apply Forall_forall. intros g Hg.
    destruct (expanded_from metadata _ _ He g Hg)
      as [Hin|(g0 & deviceID & Hin & Hex)].
    + exact (proj1 (Forall_forall _ _) Hd g Hin).
    + pose proof (proj1 (Forall_forall _ _) Hd g0 Hin) as Hg0.
      apply expandEvents_inl in Hex as (cl & -> & Hcl). cbn [app].
      apply Forall_lookup. intros i clone Hi.
      destruct (Forall2_lookup_r _ _ _ _ _ Hcl Hi) as (e & He0 & Hce).
      apply expandEvent_cloneOf in Hce as (Hdev & _).
      pose proof (proj1 (Forall_lookup _ _) Hg0 i e He0) as Hde.
      unfold deviceAllowed in *. by rewrite Hdev.
Qed.

Lemma LoadEventGroups_devices_witness :
  Forall (Forall (deviceAllowed intelMetadata scopeProcess))
    [[mkEvent "instructions" "instructions" "" ""]].
Proof.
  exact (LoadEventGroups_devices
           (overrideFile
              ["instructions;";
               "cha/event=0x1,umask=0x0,name='UNC_CHA_CLOCKTICKS'/;"])
           scopeProcess "events.txt" intelMetadata _ ["UNCCCT"] eq_refl).
Defined.

Section Reporting.

Variables (metadata : Metadata) (flagScope : Scope).

(** The rejected event of a line is in the set once the line is read, and
    the set only grows. *)
Lemma scanStep_reports (st st' : ScanState) (text : string) :
  scanStep metadata flagScope st text = Ret (Next st') ->
  scanUncollectable st ⊆ scanUncollectable st'
  /\ forall event,
       parsedFrom text event ->
       isCollectableEvent event metadata flagScope = false ->
       Name event ∈ scanUncollectable st'.
Proof.
  unfold scanStep. destruct (dataLine text) as [record|] eqn:Hd.
  2:{ apply dataLine_None in Hd as Hs. rewrite Hs. intros [= <-].
      split; [done|]. intros event (r & p & Hr & _). congruence. }
  apply slice_dataLine in Hd as Hd'. destruct Hd' as [Hs Hsl].
  rewrite Hs, Hsl. cbn [mbind result_bind].
  destruct (parseEventDefinition record) as [[parsed [err|]]|] eqn:Hp;
    cbn [mbind result_bind]; try done.
  destruct (byteAt_last _ Hs) as [last ->]. cbn [mbind result_bind].
  destruct (isCollectableEvent (abbreviateEvent parsed) metadata flagScope)
    eqn:Hc; cbn [scanGroups scanGroup scanUncollectable]; intros Hstep.
  - assert (scanUncollectable st' = scanUncollectable st) as ->.
    { repeat match type of Hstep with
             | context [if ?b then _ else _] => destruct b
             end; by injection Hstep as <-. }
    split; [done|].
    intros event (r & p & Hr & Hpe & ->) Hrej.
    assert (p = parsed) as -> by congruence. congruence.
  - assert (scanUncollectable st'
            = {[Name (abbreviateEvent parsed)]} ∪ scanUncollectable st) as ->.
    { repeat match type of Hstep with
             | context [if ?b then _ else _] => destruct b
             end; by injection Hstep as <-. }
    split; [apply union_subseteq_r|].
    intros event (r & p & Hr & Hpe & ->) Hrej.
    assert (p = parsed) as -> by congruence.
    by apply elem_of_union_l, elem_of_singleton.
Qed.

Lemma scanLoop_reports (texts : list string) (st st' : ScanState) :
  scanLoop metadata flagScope texts st = Ret (Next st') ->
  scanUncollectable st ⊆ scanUncollectable st'
  /\ forall text event,
       text ∈ texts -> parsedFrom text event ->
       isCollectableEvent event metadata flagScope = false ->
       Name event ∈ scanUncollectable st'.
Proof.
  revert st. induction texts as [|text rest IH]; intros st; cbn [scanLoop].
  - intros [= <-]. split; [done|]. intros t e Hin. by apply elem_of_nil in Hin.
  - destruct (scanStep metadata flagScope st text) as [[st1|gs err]|] eqn:Hs;
      cbn [mbind result_bind]; try done.
    intros (Hsub & Hrest)%IH.
    apply scanStep_reports in Hs as (Hsub1 & Hhere).
    split; [by etransitivity|].
    intros t e [->|Hin]%elem_of_cons Hp Hrej.
    + apply Hsub. by apply Hhere.
    + by eapply Hrest.
Qed.

End Reporting.

(** X25. No rejected event goes unreported on the x86 path: after a successful
    load the name of every event that was parsed from a line of the
    catalog and failed the filter is in the uncollectable list. *)
Theorem LoadEventGroups_reports (fsys : FileSystem) (flagScope : Scope)
    (path : string) (metadata : Metadata) (groups : list GroupDefinition)
    (uncollectableEvents : list string) (file : File) (text : string)
    (event : EventDefinition) :
  isArm metadata = false ->
  LoadEventGroups fsys flagScope path metadata
  = Ret (groups, uncollectableEvents, None) ->
  openCatalog fsys path metadata = inl file ->
  text ∈ Lines file ->
  parsedFrom text event ->
  isCollectableEvent event metadata flagScope = false ->
  Name event ∈ uncollectableEvents.
Proof.
  intros Harm Hload Ho Hin Hp Hrej. unfold LoadEventGroups in Hload.
  rewrite Harm, Ho in Hload. unfold loadFile in Hload.
  destruct (scanLoop metadata flagScope (Lines file) (mkScan [] [] ∅))
    as [[st|gs err]|] eqn:Hscan; cbn [mbind result_bind] in Hload; try done.
  destruct (ScanErr file); [done|].
  destruct (expandUncoreGroups (scanGroups st) metadata) as [[out e]|];
    cbn [mbind result_bind fst snd] in Hload; [|done].
  injection Hload as _ <- _. apply elem_of_elements.
  apply scanLoop_reports in Hscan as [_ H]. by eapply H.
Qed.

Lemma LoadEventGroups_reports_witness :
  "bogus" ∈ ["bogus"].
Proof.
  exact (LoadEventGroups_reports
           (overrideFile ["instructions;"; "bogus;"]) scopeSystem "events.txt"
           intelMetadata [[mkEvent "instructions" "instructions" "" ""]]
           ["bogus"] (mkFile ["instructions;"; "bogus;"] None) "bogus;"
           (mkEvent "bogus" "bogus" "" "") eq_refl eq_refl eq_refl
           ltac:(by right; left)
           ltac:(by exists "bogus", (mkEvent "bogus" "bogus" "" ""))
           eq_refl).
Defined.

(** ** Errors of the expansion *)

Lemma expandEvents_mismatch (re : Regexp) (vendor : string) (deviceID : Z)
    (pre post acc : GroupDefinition) (bad : EventDefinition) :
  Forall (fun e => matchesRe re e = true) pre ->
  matchesRe re bad = false ->
  expandEvents re vendor deviceID (pre ++ bad :: post) acc
  = inr ("unexpected raw event format: " +:+ Raw bad).
Proof.
  intros Hpre Hbad. revert acc.
  induction pre as [|e pre IH]; intros acc; cbn [app expandEvents].
  - unfold expandEvent. unfold matchesRe in Hbad.
    apply negb_false_iff in Hbad. by rewrite Hbad.
  - apply Forall_cons in Hpre as [He Hpre].
    destruct (expandEvent_matches re vendor deviceID e He) as [newEvent ->].
    by apply IH.
Qed.

(** X26. With at least one device id, a group with an event that does not fit
    the pattern yields no group at all, and the error names the first
    such event. *)
Theorem expandUncoreGroup_mismatch (re : Regexp) (vendor : string)
    (deviceID : Z) (ids : list Z) (pre post : GroupDefinition)
    (bad : EventDefinition) :
  Forall (fun e => matchesRe re e = true) pre ->
  matchesRe re bad = false ->
  expandUncoreGroup (pre ++ bad :: post) (deviceID :: ids) re vendor
  = ([], Some ("unexpected raw event format: " +:+ Raw bad)).
Proof.
  intros Hpre Hbad. unfold expandUncoreGroup. cbn [expandIds].
  by rewrite (expandEvents_mismatch re vendor deviceID pre post [] bad Hpre Hbad).
Qed.

Lemma expandUncoreGroup_mismatch_witness :
  expandUncoreGroup
    (chaGroup ++ [mkEvent "cha/umask=0x1,name='X'/" "X" "cha" ""])
    [0; 1] uncoreRe "GenuineIntel"
  = ([], Some "unexpected raw event format: cha/umask=0x1,name='X'/").
Proof.
  apply (expandUncoreGroup_mismatch uncoreRe "GenuineIntel" 0 [1] chaGroup []
           (mkEvent "cha/umask=0x1,name='X'/" "X" "cha" ""));
    [repeat constructor|reflexivity].
Defined.

Lemma expandLoop_app (metadata : Metadata) (re : Regexp)
    (before rest acc : list GroupDefinition) :
  expandLoop metadata re (before ++ rest) acc
  = match expandLoop metadata re before acc with
    | Ret (out, None) => expandLoop metadata re rest out
    | other => other
    end.
Proof.
  revert acc. induction before as [|group before IH]; intros acc;
    cbn [app expandLoop]; [done|].
  destruct (index group 0) as [first|]; cbn [mbind result_bind]; [|done].
  destruct (slices_Contains (deviceTypes metadata) (Device first));
    [|apply IH].
  destruct (length (deviceIDs metadata (Device first)) =? 0)%nat; [apply IH|].
  destruct (expandUncoreGroup _ _ _ _) as [newGroups [err|]]; [done|apply IH].
Qed.

(** X27. A group of an inventory device with an event that does not fit the
    pattern stops the expansion: the error comes back with the
    expansions of the groups before it, and the groups after it are not
    looked at. *)
Theorem expandUncoreGroups_abort (metadata : Metadata)
    (before after out : list GroupDefinition) (first bad : EventDefinition)
    (pre post : GroupDefinition) :
  expandUncoreGroups before metadata = Ret (out, None) ->
  head (pre ++ bad :: post) = Some first ->
  slices_Contains (deviceTypes metadata) (Device first) = true ->
  deviceIDs metadata (Device first) <> [] ->
  Forall (fun e => matchesRe uncoreRe e = true) pre ->
  matchesRe uncoreRe bad = false ->
  expandUncoreGroups (before ++ (pre ++ bad :: post) :: after) metadata
  = Ret (out, Some ("unexpected raw event format: " +:+ Raw bad)).
Proof.
  intros Hb Hh Hd Hids Hpre Hbad. unfold expandUncoreGroups in *.
  rewrite expandLoop_app, Hb. cbn [expandLoop].
  destruct (pre ++ bad :: post) as [|f tl] eqn:Hg; [done|].
  injection Hh as ->. rewrite index_head. cbn [mbind result_bind].
  rewrite Hd.
  destruct (deviceIDs metadata (Device first)) as [|deviceID ids]; [done|].
  cbn [length Nat.eqb]. rewrite <- Hg.
  by rewrite (expandUncoreGroup_mismatch uncoreRe (Vendor metadata) deviceID
                ids pre post bad Hpre Hbad).
Qed.

Lemma expandUncoreGroups_abort_witness :
  expandUncoreGroups
    ([[mkEvent "instructions" "instructions" "" ""]]
     ++ ([] ++ mkEvent "cha/umask=0x1,name='X'/" "X" "cha" "" :: [])
     :: [chaGroup])
    intelMetadata
  = Ret ([[mkEvent "instructions" "instructions" "" ""]],
         Some ("unexpected raw event format: " +:+ "cha/umask=0x1,name='X'/")).
Proof.
  apply (expandUncoreGroups_abort intelMetadata
           [[mkEvent "instructions" "instructions" "" ""]] [chaGroup] _
           (mkEvent "cha/umask=0x1,name='X'/" "X" "cha" "")); try done.
Defined.

(** ** Catalog selection *)

(** X28. The packaged x86 catalog is chosen by the label before the first
    underscore: the variants of one microarchitecture share a catalog. *)
Theorem eventFileName_variant (metadata : Metadata) (base variant : string) :
  Contains base "_" = false ->
  Microarchitecture metadata = base +:+ "_" +:+ variant ->
  eventFileName metadata
  = eventFileName (withMicroarchitecture metadata base).
Proof.
  rewrite Contains_byte. intros Hb Hm. unfold eventFileName.
  cbn [Microarchitecture SupportsFixedTMA withMicroarchitecture]. rewrite Hm.
  change (base +:+ "_" +:+ variant) with (base +:+ String "_" variant).
  rewrite (firstField_app_sep base variant "_" Hb).
  assert (firstField base "_" = base) as ->; [|done].
  unfold firstField. by rewrite (Split_hasByte_absent base "_" Hb).
Qed.

Lemma eventFileName_variant_witness :
  eventFileName
    (mkMetadata "x86_64" "GenuineIntel" "SPR_XCC" false true true true true
       "" ∅)
  = eventFileName
      (withMicroarchitecture
         (mkMetadata "x86_64" "GenuineIntel" "SPR_XCC" false true true true
            true "" ∅) "SPR").
Proof.
  exact (eventFileName_variant
           (mkMetadata "x86_64" "GenuineIntel" "SPR_XCC" false true true true
              true "" ∅) "SPR" "XCC" eq_refl eq_refl).
Defined.

Lemma armEventsLoop_label (metadata : Metadata) (label : string)
    (flagScope : Scope) (armEvents : list ARM64Event)
    (currentGroup : GroupDefinition) (uncollectable : gset string) :
  armEventsLoop (withMicroarchitecture metadata label) flagScope armEvents
    currentGroup uncollectable
  = armEventsLoop metadata flagScope armEvents currentGroup uncollectable.
Proof.
  revert currentGroup uncollectable.
  induction armEvents as [|armEvent rest IH]; intros g u; [done|].
  cbn [armEventsLoop].
  change (isCollectableEvent (armEventOf armEvent)
            (withMicroarchitecture metadata label) flagScope)
    with (isCollectableEvent (armEventOf armEvent) metadata flagScope).
  destruct (isCollectableEvent _ _ _); apply IH.
Qed.

Lemma loadArmFiles_label (metadata : Metadata) (label : string)
    (flagScope : Scope) (eventFiles : list DirEntry) :
  loadArmFiles (withMicroarchitecture metadata label) flagScope eventFiles
  = loadArmFiles metadata flagScope eventFiles.
Proof.
  unfold loadArmFiles.
  assert (forall st,
            fold_left (armFileStep (withMicroarchitecture metadata label)
                         flagScope) eventFiles st
            = fold_left (armFileStep metadata flagScope) eventFiles st) as H.
  { induction eventFiles as [|f fs IH]; intros st; [done|].
    cbn [fold_left]. rewrite IH. f_equal. unfold armFileStep.
    destruct (negb (EntryIsDir f) && HasSuffix (ToLower (EntryName f)) ".json");
      [|done].
    destruct (EntryFile f); try done. by rewrite armEventsLoop_label. }
  by rewrite H.
Qed.

(** X29. Without an override the ARM loader knows the microarchitecture
    [Neoverse V2] only: under any other label it returns the lookup error
    and nothing else, whatever the file system holds. *)
Theorem LoadArmEventGroups_unknown (fsys : FileSystem) (flagScope : Scope)
    (metadata : Metadata) :
  Microarchitecture metadata <> "Neoverse V2" ->
  LoadArmEventGroups fsys flagScope "" metadata
  = ([], [], Some ("failed to lookup ARM variant: unknown ARM variant: "
                   +:+ Microarchitecture metadata)).
Proof.
  intros Hm%String.eqb_neq. unfold LoadArmEventGroups, lookupArmVariant.
  cbn [String.eqb negb]. by rewrite Hm.
Qed.

Lemma LoadArmEventGroups_unknown_witness :
  LoadArmEventGroups (armResources [generalJson]) scopeSystem ""
    (withMicroarchitecture armMetadata "Neoverse N1")
  = ([], [], Some ("failed to lookup ARM variant: unknown ARM variant: "
                   +:+ "Neoverse N1")).
Proof.
  exact (LoadArmEventGroups_unknown (armResources [generalJson]) scopeSystem
           (withMicroarchitecture armMetadata "Neoverse N1")
           ltac:(discriminate)).
Defined.

(** X30. An override directory is loaded without a look at the
    microarchitecture: the ARM loader gives the same result under every
    label. *)
Theorem LoadArmEventGroups_override (fsys : FileSystem) (flagScope : Scope)
    (path : string) (metadata : Metadata) (label : string) :
  path <> "" ->
  LoadArmEventGroups fsys flagScope path (withMicroarchitecture metadata label)
  = LoadArmEventGroups fsys flagScope path metadata.
Proof.
  intros Hp%String.eqb_neq. unfold LoadArmEventGroups. rewrite Hp.
  cbn [negb].
  destruct (os_Stat fsys path) as [[|]|]; try done.
  destruct (os_ReadDir fsys path); [|done]. apply loadArmFiles_label.
Qed.

Lemma LoadArmEventGroups_override_witness :
  let fsys :=
    mkFS (fun _ => inr "file does not exist")
      (fun _ => inr "file does not exist")
      (fun path => if String.eqb path "events" then inl true
                   else inr "file does not exist")
      (fun path => if String.eqb path "events" then inl [generalJson]
                   else inr "file does not exist")
      (fun _ => inr "file does not exist") in
  LoadArmEventGroups fsys scopeSystem "events"
    (withMicroarchitecture armMetadata "Neoverse N1")
  = ([[mkEvent "CPU_CYCLES" "CPU_CYCLES" "cpu" "Counts CPU clock cycles."]],
     [], None).
Proof.
  intros fsys.
  refine (eq_trans
            (LoadArmEventGroups_override fsys scopeSystem "events" armMetadata
               "Neoverse N1" ltac:(discriminate)) _).
  vm_compute. reflexivity.
Defined.

(** ** The filter after the expansion *)

(** On an uncore device the filter is the conjunction of its name rules,
    the scope, the inventory and the test of the raw token. *)
Lemma isCollectableEvent_onUncoreDevice (event : EventDefinition)
    (metadata : Metadata) (flagScope : Scope) :
  onUncoreDevice event = true ->
  isCollectableEvent event metadata flagScope
  = negb (nameExcluded metadata (Name event))
    && negb (processOrCgroup flagScope)
    && slices_Contains (deviceTypes metadata) (Device event)
    && (Contains (Raw event) "umask" || Contains (Raw event) "event").
Proof.
  unfold onUncoreDevice, isCollectableEvent, nameExcluded.
  intros [Hcpu Hnil]%andb_prop.
  apply negb_true_iff in Hcpu, Hnil. rewrite Hcpu, Hnil. cbn [andb negb].
  destruct (SupportsFixedTMA metadata), (SupportsPEBS metadata),
    (SupportsUncore metadata),
    (String.eqb (Name event) "TOPDOWN.SLOTS"),
    (HasPrefix (Name event) "PERF_METRICS."),
    (slices_Contains pebsEventNames (Name event)),
    (HasPrefix (Name event) "UNC"),
    (processOrCgroup flagScope),
    (slices_Contains (deviceTypes metadata) (Device event)),
    (Contains (Raw event) "umask"), (Contains (Raw event) "event");
    reflexivity.
Qed.

(** An accepted event on an uncore device keeps the filter's answer
    under the name rules alone, and so does its clone. *)
Lemma collectable_onUncoreDevice (event : EventDefinition)
    (metadata : Metadata) (flagScope : Scope) :
  collectable metadata flagScope event ->
  onUncoreDevice event = true ->
  nameExcluded metadata (Name event) = false
  /\ processOrCgroup flagScope = false
  /\ slices_Contains (deviceTypes metadata) (Device event) = true.
Proof.
  unfold collectable. intros Hc Hu.
  rewrite (isCollectableEvent_onUncoreDevice _ _ _ Hu) in Hc.
  apply andb_prop in Hc as [[[Hn Hs]%andb_prop Hd]%andb_prop _].
  by apply negb_true_iff in Hn, Hs.
Qed.

Lemma clone_onUncoreDevice (event clone : EventDefinition)
    (metadata : Metadata) (flagScope : Scope) :
  collectable metadata flagScope event ->
  cloneOf event clone ->
  onUncoreDevice clone = true ->
  isCollectableEvent clone metadata flagScope
  = negb (nameExcluded metadata (Name clone)).
Proof.
  intros Hc (Hdev & _ & Hev & _) Hu.
  assert (onUncoreDevice event = true) as Hue
    by (unfold onUncoreDevice in *; by rewrite <- Hdev).
  destruct (collectable_onUncoreDevice _ _ _ Hc Hue) as (_ & Hs & Hd).
  rewrite (isCollectableEvent_onUncoreDevice _ _ _ Hu).
  rewrite Hs, Hdev, Hd, Hev.
  cbn [negb andb]. by rewrite orb_true_r, !andb_true_r.
Qed.

(** The groups of the output come from the groups assembled by the
    scan: each is one of them, or the clone of one of them for an
    instance id of the device of its first event. *)
Lemma expanded_from_device (metadata : Metadata)
    (groups out : list GroupDefinition) :
  expandUncoreGroups groups metadata = Ret (out, None) ->
  forall g, g ∈ out ->
    g ∈ groups
    \/ exists g0 first deviceID,
         g0 ∈ groups
         /\ head g0 = Some first
         /\ deviceID ∈ deviceIDs metadata (Device first)
         /\ expandEvents uncoreRe (Vendor metadata) deviceID g0 [] = inl g.
Proof.
  intros (parts & Hp & ->)%expandLoop_None g Hin. cbn [app] in Hin.
  apply list_elem_of_In, in_concat in Hin as (part & Hpart & Hg).
  apply list_elem_of_In, list_elem_of_lookup in Hpart as [i Hi].
  apply list_elem_of_In in Hg.
  destruct (Forall2_lookup_r _ _ _ _ _ Hp Hi) as (g0 & Hg0 & first & Hf & Hpl).
  apply list_elem_of_lookup_2 in Hg0.
  destruct (slices_Contains (deviceTypes metadata) (Device first)).
  - right. apply list_elem_of_lookup in Hg as [j Hj].
    destruct (Forall2_lookup_r _ _ _ _ _ Hpl Hj) as (deviceID & Hid & He).
    apply list_elem_of_lookup_2 in Hid.
    by exists g0, first, deviceID.
  - left. subst part. by apply list_elem_of_singleton in Hg as ->.
Qed.

(** The answer of the filter on the events of a clone. *)
Lemma clones_onUncoreDevice (metadata : Metadata) (flagScope : Scope)
    (seen : string -> Prop) (deviceID : Z) (group clones : GroupDefinition) :
  Forall (catalogEvent metadata flagScope seen) group ->
  expandEvents uncoreRe (Vendor metadata) deviceID group [] = inl clones ->
  forall clone, clone ∈ clones -> onUncoreDevice clone = true ->
    isCollectableEvent clone metadata flagScope
    = negb (nameExcluded metadata (Name clone)).
Proof.
  intros Hg (cl & -> & Hcl)%expandEvents_inl clone Hin Hu. cbn [app] in Hin.
  apply list_elem_of_lookup in Hin as [i Hi].
  destruct (Forall2_lookup_r _ _ _ _ _ Hcl Hi) as (event & He & Hce).
  apply expandEvent_cloneOf in Hce.
  destruct (proj1 (Forall_lookup _ _) Hg i event He) as [Hc _].
  by apply (clone_onUncoreDevice event).
Qed.

(** In the per-process and per-cgroup scopes nothing is cloned, unless
    the inventory names the core or the empty device. *)
Lemma expandLoop_outside_system (metadata : Metadata) (flagScope : Scope)
    (groups acc : list GroupDefinition) :
  processOrCgroup flagScope = true ->
  slices_Contains (deviceTypes metadata) "cpu" = false ->
  slices_Contains (deviceTypes metadata) "" = false ->
  Forall (fun g => g <> []) groups ->
  Forall (Forall (collectable metadata flagScope)) groups ->
  expandLoop metadata uncoreRe groups acc = Ret (acc ++ groups, None).
Proof.
  intros Hs Hcpu Hnil. revert acc.
  induction groups as [|group rest IH]; intros acc Hne Hc; cbn [expandLoop].
  - by rewrite app_nil_r.
  - apply Forall_cons in Hne as [Hg Hne]. apply Forall_cons in Hc as [Hcg Hc].
    destruct group as [|first tl]; [done|].
    rewrite index_head. cbn [mbind result_bind].
    apply Forall_cons in Hcg as [Hf _].
    assert (slices_Contains (deviceTypes metadata) (Device first) = false)
      as ->.
    { destruct (String.eqb_spec (Device first) "cpu") as [->|Hn1]; [done|].
      destruct (String.eqb_spec (Device first) "") as [->|Hn2]; [done|].
      unfold collectable in Hf.
      by rewrite (uncore_rejected_outside_system metadata first flagScope)
        in Hf. }
    rewrite IH by done.
    by rewrite <- app_assoc.
Qed.

(** C3 (as stated, refuted): the event named [PERF_METRICS] on the device
    [cha] passes the filter on a platform without fixed TMA counters, and
    the load succeeds; its clone in the returned groups is named
    [PERF_METRICS.0], carries the fixed-metrics prefix, and fails the
    filter under the same metadata and scope. *)
Lemma LoadEventGroups_returns_uncollectable_clone :
  let clone (id : string) :=
    mkEvent ("uncore_cha_" +:+ id
             +:+ "/event=0x1,umask=0x2,name='PERF_METRICS." +:+ id +:+ "'/")
      ("PERF_METRICS." +:+ id) "cha" "" in
  isCollectableEvent
    (mkEvent "cha/event=0x1,umask=0x2,name='PERF_METRICS'/" "PERF_METRICS"
       "cha" "")
    noFixedTMAMetadata scopeSystem = true
  /\ LoadEventGroups
       (overrideFile ["cha/event=0x1,umask=0x2,name='PERF_METRICS'/;"])
       scopeSystem "events.txt" noFixedTMAMetadata
     = Ret ([[clone "0"]; [clone "1"]], [], None)
  /\ isCollectableEvent (clone "0") noFixedTMAMetadata scopeSystem = false.
Proof. repeat split; vm_compute; reflexivity. Qed.

(** C3 (amended): after a successful load,
    - on the ARM path every returned event satisfies the filter under the
      same metadata and scope, and so does every returned event of a load
      for a process or a cgroup (nothing is cloned there, the inventory
      naming neither the core nor the empty device);
    - on the x86 path every returned group is a group of the catalog,
      whose events were parsed from lines of the catalog and satisfy the
      filter, or the clone of such a group, made by the uncore expansion
      for one instance id of the device of its first event; the clones
      are not passed through the filter again;
    - every returned event on an uncore device, clone or not, satisfies
      the filter exactly when its name falls under none of the name rules
      of a capability the platform lacks, and so whenever the platform
      has the fixed TMA counters, PEBS and the uncore devices;
    - every name in the returned uncollectable list is the name of an
      event parsed from a line of the catalog on which the filter
      answered false. *)
Theorem LoadEventGroups_checked (fsys : FileSystem) (flagScope : Scope)
    (path : string) (metadata : Metadata) (groups : list GroupDefinition)
    (uncollectableEvents : list string) :
  LoadEventGroups fsys flagScope path metadata
  = Ret (groups, uncollectableEvents, None) ->
  (isArm metadata = true
   \/ (processOrCgroup flagScope = true
       /\ slices_Contains (deviceTypes metadata) "cpu" = false
       /\ slices_Contains (deviceTypes metadata) "" = false) ->
   Forall (Forall (collectable metadata flagScope)) groups)
  /\ (isArm metadata = false ->
      exists file,
        openCatalog fsys path metadata = inl file
        /\ forall g, g ∈ groups ->
             Forall (catalogEvent metadata flagScope
                       (fun text => text ∈ Lines file)) g
             \/ cloneOfCatalogGroup metadata flagScope
                  (fun text => text ∈ Lines file) g)
  /\ (forall g event, g ∈ groups -> event ∈ g ->
        onUncoreDevice event = true ->
        isCollectableEvent event metadata flagScope
        = negb (nameExcluded metadata (Name event)))
  /\ (forall name, name ∈ uncollectableEvents ->
        exists file text event,
          openCatalog fsys path metadata = inl file
          /\ text ∈ Lines file
          /\ parsedFrom text event
          /\ Name event = name
          /\ isCollectableEvent event metadata flagScope = false).
Proof.
  unfold LoadEventGroups. destruct (isArm metadata) eqn:Harm.
  - intros [= (eventFiles & Hl)%LoadArmEventGroups_None].
    pose proof (loadArmFiles_collectable metadata flagScope eventFiles) as Hc.
    rewrite Hl in Hc. cbn [fst] in Hc.
    assert (uncollectableEvents = []) as ->.
    { pose proof (loadArmFiles_uncollectable metadata flagScope eventFiles) as Hu.
      by rewrite Hl in Hu. }
    split; [intros _; exact Hc|]. split; [done|]. split.
    + intros g event Hg He Hu.
      pose proof (proj1 (Forall_forall _ _)
                    (proj1 (Forall_forall _ _) Hc g Hg) event He) as Hce.
      destruct (collectable_onUncoreDevice _ _ _ Hce Hu) as (-> & _).
      exact Hce.
    + intros name Hin. by apply elem_of_nil in Hin.
  - destruct (openCatalog fsys path metadata) as [file|err] eqn:Ho; [|done].
    unfold loadFile.
    destruct (scanLoop metadata flagScope (Lines file) (mkScan [] [] ∅))
      as [[st|gs err]|] eqn:Hscan; cbn [mbind result_bind]; try done.
    destruct (ScanErr file); [done|].
    destruct (expandUncoreGroups (scanGroups st) metadata)
      as [[out [err|]]|] eqn:He; cbn [mbind result_bind fst snd]; try done.
    intros [= <- <-].
    assert (scanned metadata flagScope (fun text => text ∈ Lines file) st)
      as (Hgs & _ & Hu).
    { eapply scanLoop_scanned; [exact Hscan| |].
      - by apply Forall_forall.
      - split; [constructor|split; [constructor|]].
        intros name Hin. by apply elem_of_empty in Hin. }
    assert (forall g, g ∈ out ->
              Forall (catalogEvent metadata flagScope
                        (fun text => text ∈ Lines file)) g
              \/ cloneOfCatalogGroup metadata flagScope
                   (fun text => text ∈ Lines file) g) as Hfrom.
    { intros g Hg.
      destruct (expanded_from_device metadata _ _ He g Hg)
        as [Hin|(g0 & first & deviceID & Hin & Hf & Hid & Hex)].
      - left. exact (proj1 (Forall_forall _ _) Hgs g Hin).
      - right. exists g0, first, deviceID.
        split; [exact (proj1 (Forall_forall _ _) Hgs g0 Hin)|done]. }
    split; [|split; [intros _; by exists file|split]].
    + intros [?|(Hs & Hcpu & Hnil)]; [done|].
      assert (Forall (Forall (collectable metadata flagScope)) (scanGroups st))
        as Hc.
      { eapply Forall_impl; [exact Hgs|]. intros g Hg. cbn beta in Hg.
        eapply Forall_impl; [exact Hg|]. by intros e [Hce _]. }
      assert (Forall (fun g => g <> []) (scanGroups st)) as Hne.
      { pose proof (scanLoop_nonempty metadata flagScope (Lines file)
                      (mkScan [] [] ∅)) as Hn.
        rewrite Hscan in Hn. apply Hn. constructor. }
      unfold expandUncoreGroups in He.
      rewrite (expandLoop_outside_system metadata flagScope _ [] Hs Hcpu Hnil
                 Hne Hc) in He.
      by injection He as <-.
    + intros g event Hg Hev Hud.
      destruct (Hfrom g Hg) as [Hcat|(g0 & first & deviceID & Hg0 & _ & _ & Hex)].
      * destruct (proj1 (Forall_forall _ _) Hcat event Hev) as [Hce _].
        destruct (collectable_onUncoreDevice _ _ _ Hce Hud) as (-> & _).
        exact Hce.
      * exact (clones_onUncoreDevice metadata flagScope _ deviceID g0 g Hg0
                 Hex event Hev Hud).
    + intros name Hin%elem_of_elements.
      destruct (Hu name Hin) as (text & event & Hseen & Hpf & Hn & Hc).
      by exists file, text, event.
Qed.

Lemma LoadEventGroups_checked_witness :
  let texts :=
    [ "# core events"; "instructions;"; "bogus;";
      "cha/event=0x1,umask=0x0,name='UNC_CHA_CLOCKTICKS'/;" ] in
  let clone (id : string) :=
    mkEvent ("uncore_cha_" +:+ id +:+ "/event=0x1,umask=0x0,name='UNCCCT."
             +:+ id +:+ "'/")
      ("UNCCCT." +:+ id) "cha" "" in
  let groups :=
    [ [mkEvent "instructions" "instructions" "" ""];
      [clone "0"]; [clone "1"] ] in
  LoadEventGroups (overrideFile texts) scopeSystem "events.txt" intelMetadata
  = Ret (groups, ["bogus"], None)
  /\ isCollectableEvent (clone "1") intelMetadata scopeSystem
     = negb (nameExcluded intelMetadata "UNCCCT.1")
  /\ forall name, name ∈ ["bogus"] ->
       exists file text event,
         openCatalog (overrideFile texts) "events.txt" intelMetadata = inl file
         /\ text ∈ Lines file
         /\ parsedFrom text event
         /\ Name event = name
         /\ isCollectableEvent event intelMetadata scopeSystem = false.
Proof.
  intros texts clone groups.
  assert (LoadEventGroups (overrideFile texts) scopeSystem "events.txt"
            intelMetadata = Ret (groups, ["bogus"], None)) as H
    by (vm_compute; reflexivity).
  destruct (LoadEventGroups_checked _ _ _ _ _ _ H) as (_ & _ & Hclone & Hun).
  split; [exact H|]. split; [|exact Hun].
  apply (Hclone [clone "1"] (clone "1")); [|by apply list_elem_of_singleton|done].
  unfold groups. by do 2 apply list_elem_of_further; apply list_elem_of_here.
Defined.

(** ** Trimming, on ASCII ends *)

Lemma len_cons (c : ascii) (s : string) : len (String c s) = len s + 1.
Proof. unfold len. cbn [String.length]. lia. Qed.

Lemma len_app (s t : string) : len (s +:+ t) = len s + len t.
Proof. unfold len. rewrite str_length_app. lia. Qed.

Lemma len_nonneg (s : string) : 0 <= len s.
Proof. unfold len. lia. Qed.

Lemma substring_whole (s : string) (n : nat) :
  (String.length s <= n)%nat -> String.substring 0 n s = s.
Proof.
  revert n. induction s as [|c s IH]; intros n Hn; [by destruct n|].
  destruct n as [|n]; [cbn [String.length] in Hn; lia|].
  cbn [String.substring]. rewrite IH; [done|]. cbn [String.length] in Hn. lia.
Qed.

Lemma substring_end (s : string) (n : nat) :
  String.substring (String.length s) n s = "".
Proof. induction s as [|c s IH]; [by destruct n|]. exact IH. Qed.

Lemma substr_whole (s : string) : substr s 0 (len s) = s.
Proof.
  unfold substr, len. apply substring_whole. lia.
Qed.

Lemma substr_app_l (s t : string) : substr (s +:+ t) 0 (len s) = s.
Proof.
  unfold substr, len. rewrite Z.sub_0_r, Nat2Z.id. apply substring_app_whole.
Qed.

Lemma substr_app_r (s t : string) (hi : Z) :
  len s + len t <= hi -> substr (s +:+ t) (len s) hi = t.
Proof.
  intros Hhi. unfold substr, len in *. rewrite Nat2Z.id, substring_app_skip.
  apply substring_whole. lia.
Qed.

Lemma byteZ_cons_0 (c : ascii) (s : string) : byteZ (String c s) 0 = byteOf c.
Proof. reflexivity. Qed.

Lemma byteZ_app_r (s t : string) (i : Z) :
  0 <= i -> byteZ (s +:+ t) (len s + i) = byteZ t i.
Proof.
  intros Hi. unfold byteZ, len.
  destruct (Z.ltb_spec (Z.of_nat (String.length s) + i) 0); [lia|].
  destruct (Z.ltb_spec i 0); [lia|].
  replace (Z.to_nat (Z.of_nat (String.length s) + i))
    with (Z.to_nat i + String.length s)%nat by lia.
  by rewrite <- append_correct2.
Qed.

Lemma byteZ_app_l (s t : string) (i : Z) :
  0 <= i < len s -> byteZ (s +:+ t) i = byteZ s i.
Proof.
  intros Hi. unfold byteZ, len in *.
  destruct (Z.ltb_spec i 0); [lia|].
  rewrite <- append_correct1; [done|lia].
Qed.

Lemma utf8_first_ascii (b : Z) : b < RuneSelf -> utf8_first b = None.
Proof.
  unfold RuneSelf, utf8_first. intros Hb.
  repeat match goal with
         | |- context [?x <=? ?y] => destruct (Z.leb_spec x y); try lia
         | |- context [?x =? ?y] => destruct (Z.eqb_spec x y); try lia
         end; reflexivity.
Qed.

Lemma IsSpace_ascii (b : Z) : b < RuneSelf -> IsSpace b = asciiSpace b.
Proof.
  unfold RuneSelf, IsSpace, asciiSpace. intros Hb.
  destruct (Z.leb_spec b 255); [|lia].
  destruct (Z.eqb_spec b 133); [lia|]. destruct (Z.eqb_spec b 160); [lia|].
  by rewrite !orb_false_r.
Qed.

Lemma graphic_spec (c : ascii) :
  graphic c = true -> byteOf c < RuneSelf /\ asciiSpace (byteOf c) = false
                      /\ IsSpace (byteOf c) = false.
Proof.
  unfold graphic. intros [Hb Hs]%andb_prop. apply Z.ltb_lt in Hb.
  apply negb_true_iff in Hs. by rewrite IsSpace_ascii.
Qed.

Lemma DecodeRuneInString_ascii (c : ascii) (s : string) :
  byteOf c < RuneSelf -> DecodeRuneInString (String c s) = (byteOf c, 1).
Proof.
  intros Hb. unfold DecodeRuneInString. rewrite (utf8_first_ascii _ Hb).
  by destruct (Z.ltb_spec (byteOf c) RuneSelf); [|lia].
Qed.

(** The last byte of a text, when the text has one. *)
Lemma lastGraphic_spec (s : string) :
  lastGraphic s = true ->
  exists front c, s = front +:+ String c "" /\ graphic c = true.
Proof.
  induction s as [|a s IH]; [done|]. unfold lastGraphic.
  replace (String.length (String a s) - 1)%nat with (String.length s)
    by (cbn [String.length]; lia).
  destruct s as [|b s].
  - cbn. intros Hg. by exists "", a.
  - cbn [String.length String.get]. intros Hg.
    destruct IH as (front & c & -> & Hc).
    { unfold lastGraphic.
      replace (String.length (String b s) - 1)%nat with (String.length s)
        by (cbn [String.length]; lia).
      exact Hg. }
    exists (String a front), c. by rewrite str_app_cons.
Qed.

Lemma firstGraphic_spec (s : string) :
  firstGraphic s = true -> exists c t, s = String c t /\ graphic c = true.
Proof. destruct s as [|c t]; [done|]. intros H. by exists c, t. Qed.

Lemma substr_cons (c : ascii) (s : string) (lo hi : Z) :
  1 <= lo -> substr (String c s) lo hi = substr s (lo - 1) (hi - 1).
Proof.
  intros Hlo. unfold substr.
  replace (Z.to_nat lo) with (S (Z.to_nat (lo - 1))) by lia.
  cbn [String.substring]. f_equal. lia.
Qed.

Lemma trimStart_step (fuel : nat) (s : string) (start : Z) :
  trimStart (S fuel) s start
  = if start <? len s then
      let c := byteZ s start in
      if RuneSelf <=? c then TrimFunc (substr s start (len s)) IsSpace
      else if negb (asciiSpace c)
      then trimStop (String.length s) s start (len s)
      else trimStart fuel s (start + 1)
    else trimStop (String.length s) s start (len s).
Proof. reflexivity. Qed.

Lemma trimStop_step (fuel : nat) (s : string) (start stop : Z) :
  trimStop (S fuel) s start stop
  = if start <? stop then
      let c := byteZ s (stop - 1) in
      if RuneSelf <=? c then TrimRightFunc (substr s start stop) IsSpace
      else if negb (asciiSpace c) then substr s start stop
      else trimStop fuel s start (stop - 1)
    else substr s start stop.
Proof. reflexivity. Qed.

(** A text between two blanks, with no white space at its own ends, is
    what [TrimSpace] leaves of it. *)
Lemma TrimSpace_between_blanks (s : string) :
  firstGraphic s = true -> lastGraphic s = true ->
  TrimSpace (" " +:+ s +:+ " ") = s.
Proof.
  intros (c0 & t & Hs0 & Hc0)%firstGraphic_spec
         (front & c1 & Hs1 & Hc1)%lastGraphic_spec.
  apply graphic_spec in Hc0 as (Hb0 & Ha0 & _).
  apply graphic_spec in Hc1 as (Hb1 & Ha1 & _).
  set (whole := " " +:+ s +:+ " ").
  assert (len whole = len s + 2) as Hlen.
  { unfold whole. rewrite !len_app. change (len " ") with 1. lia. }
  pose proof (len_nonneg s) as Hs.
  assert (1 <= len s) as Hs'.
  { rewrite Hs0, len_cons. pose proof (len_nonneg t). lia. }
  assert (byteZ whole 0 = 32) as Hw0 by reflexivity.
  assert (byteZ whole 1 = byteOf c0) as Hw1.
  { unfold whole. rewrite Hs0. reflexivity. }
  assert (byteZ whole (len s + 1) = 32) as Hw2.
  { unfold whole.
    change (" " +:+ s +:+ " ") with (String " " (s +:+ " ")).
    rewrite <- (str_app_cons " " s " ").
    replace (len s + 1) with (len (String " " s) + 0)
      by (rewrite len_cons; lia).
    by rewrite byteZ_app_r. }
  assert (byteZ whole (len s) = byteOf c1) as Hw3.
  { assert (whole = String " " front +:+ String c1 " ") as ->.
    { unfold whole. rewrite Hs1, str_app_cons, str_app_assoc.
      by rewrite str_app_cons. }
    assert (len s = len (String " " front) + 0) as ->.
    { rewrite Hs1, len_app, !len_cons. change (len "") with 0. lia. }
    by rewrite byteZ_app_r. }
  assert (substr whole 1 (len s + 1) = s) as Hsub.
  { unfold whole. change (" " +:+ s +:+ " ") with (String " " (s +:+ " ")).
    rewrite substr_cons by lia.
    replace (1 - 1) with 0 by lia. replace (len s + 1 - 1) with (len s) by lia.
    apply substr_app_l. }
  unfold TrimSpace.
  assert (exists n, String.length whole = S (S (S n))) as [n Hn].
  { exists (String.length t). unfold whole. rewrite Hs0.
    rewrite !str_length_app. cbn [String.length]. lia. }
  rewrite Hn, trimStart_step.
  destruct (Z.ltb_spec 0 (len whole)); [|lia]. cbn zeta. rewrite Hw0.
  change (RuneSelf <=? 32) with false. change (negb (asciiSpace 32)) with false.
  cbn match. rewrite trimStart_step.
  destruct (Z.ltb_spec (0 + 1) (len whole)); [|lia]. cbn zeta.
  change (0 + 1) with 1. rewrite Hw1.
  destruct (Z.leb_spec RuneSelf (byteOf c0)); [lia|]. rewrite Ha0.
  cbn [negb]. rewrite Hn, trimStop_step.
  destruct (Z.ltb_spec 1 (len whole)); [|lia]. cbn zeta.
  replace (len whole - 1) with (len s + 1) by lia. rewrite Hw2.
  change (RuneSelf <=? 32) with false. change (negb (asciiSpace 32)) with false.
  cbn match. rewrite trimStop_step.
  destruct (Z.ltb_spec 1 (len s + 1)); [|lia]. cbn zeta.
  replace (len s + 1 - 1) with (len s) by lia. rewrite Hw3.
  destruct (Z.leb_spec RuneSelf (byteOf c1)); [lia|]. rewrite Ha1.
  cbn [negb]. exact Hsub.
Qed.

Lemma indexLoop_step (fuel : nat) (s : string) (f : Z -> bool) (truth : bool)
    (i : Z) :
  indexLoop (S fuel) s f truth i
  = if i <? len s then
      let (r, size) := DecodeRuneInString (substr s i (len s)) in
      if Bool.eqb (f r) truth then i else indexLoop fuel s f truth (i + size)
    else -1.
Proof. reflexivity. Qed.

Lemma lastIndexLoop_step (fuel : nat) (s : string) (f : Z -> bool)
    (truth : bool) (i : Z) :
  lastIndexLoop (S fuel) s f truth i
  = if 0 <? i then
      let (r, size) := DecodeLastRuneInString (substr s 0 i) in
      if Bool.eqb (f r) truth then i - size
      else lastIndexLoop fuel s f truth (i - size)
    else -1.
Proof. reflexivity. Qed.

Lemma byteZ_last (front : string) (c : ascii) :
  byteZ (front +:+ String c "") (len front) = byteOf c.
Proof.
  rewrite <- (Z.add_0_r (len front)). by rewrite byteZ_app_r.
Qed.

Lemma DecodeLastRuneInString_ascii (front : string) (c : ascii) :
  byteOf c < RuneSelf ->
  DecodeLastRuneInString (front +:+ String c "") = (byteOf c, 1).
Proof.
  intros Hb. unfold DecodeLastRuneInString.
  rewrite len_app, len_cons. change (len "") with 0.
  pose proof (len_nonneg front).
  destruct (Z.eqb_spec (len front + (0 + 1)) 0); [lia|].
  replace (len front + (0 + 1) - 1) with (len front) by lia.
  rewrite byteZ_last.
  by destruct (Z.ltb_spec (byteOf c) RuneSelf); [|lia].
Qed.

(** The blank after a text that ends in no white space is what
    [TrimRightFunc] takes off. *)
Lemma TrimRightFunc_blank (s : string) :
  lastGraphic s = true -> TrimRightFunc (s +:+ " ") IsSpace = s.
Proof.
  intros (front & c & Hs & Hc)%lastGraphic_spec.
  apply graphic_spec in Hc as (Hb & _ & Hsp).
  pose proof (len_nonneg front) as Hf.
  assert (len s = len front + 1) as Hlen.
  { rewrite Hs, len_app, len_cons. change (len "") with 0. lia. }
  assert (len (s +:+ " ") = len s + 1) as Hlen'.
  { rewrite len_app. change (len " ") with 1. lia. }
  assert (lastIndexFunc (s +:+ " ") IsSpace false = len front) as Hi.
  { unfold lastIndexFunc.
    assert (String.length (s +:+ " ") = S (S (String.length front))) as ->.
    { rewrite Hs, !str_length_app. cbn [String.length]. lia. }
    rewrite lastIndexLoop_step, Hlen'.
    destruct (Z.ltb_spec 0 (len s + 1)); [|lia].
    rewrite <- Hlen', substr_whole.
    rewrite (DecodeLastRuneInString_ascii s " ") by done.
    change (Bool.eqb (IsSpace (byteOf " ")) false) with false. cbn match.
    rewrite lastIndexLoop_step, Hlen'.
    replace (len s + 1 - 1) with (len s) by lia.
    destruct (Z.ltb_spec 0 (len s)); [|lia].
    rewrite substr_app_l. rewrite Hs at 1.
    rewrite (DecodeLastRuneInString_ascii front c Hb), Hsp.
    cbn [Bool.eqb]. lia. }
  unfold TrimRightFunc. rewrite Hi.
  assert (byteZ (s +:+ " ") (len front) = byteOf c) as ->.
  { rewrite byteZ_app_l by lia. rewrite Hs. apply byteZ_last. }
  destruct (Z.leb_spec 0 (len front)); [|lia].
  destruct (Z.leb_spec RuneSelf (byteOf c)); [lia|]. cbn [andb].
  rewrite <- Hlen. apply substr_app_l.
Qed.

(** The blank before a text that begins with no white space is what
    [TrimLeftFunc] takes off. *)
Lemma TrimLeftFunc_blank (s : string) :
  firstGraphic s = true -> TrimLeftFunc (" " +:+ s) IsSpace = s.
Proof.
  intros (c & t & Hs & Hc)%firstGraphic_spec.
  apply graphic_spec in Hc as (Hb & _ & Hsp).
  pose proof (len_nonneg t) as Ht.
  change (" " +:+ s) with (String " " s).
  assert (len (String " " s) = len t + 2) as Hlen.
  { rewrite Hs, !len_cons. lia. }
  assert (substr (String " " s) 1 (len (String " " s)) = s) as Hsub.
  { rewrite substr_cons by lia. rewrite len_cons.
    replace (1 - 1) with 0 by lia. replace (len s + 1 - 1) with (len s) by lia.
    apply substr_whole. }
  assert (indexFunc (String " " s) IsSpace false = 1) as Hi.
  { unfold indexFunc.
    assert (String.length (String " " s) = S (S (String.length t))) as ->
      by (by rewrite Hs).
    rewrite indexLoop_step.
    destruct (Z.ltb_spec 0 (len (String " " s))); [|lia].
    rewrite substr_whole, (DecodeRuneInString_ascii " " s) by done.
    change (Bool.eqb (IsSpace (byteOf " ")) false) with false. cbn match.
    rewrite indexLoop_step.
    destruct (Z.ltb_spec (0 + 1) (len (String " " s))); [|lia].
    change (0 + 1) with 1. rewrite Hsub. rewrite Hs at 1.
    by rewrite (DecodeRuneInString_ascii c t Hb), Hsp. }
  unfold TrimLeftFunc. rewrite Hi. change (1 =? -1) with false. cbn match.
  exact Hsub.
Qed.

(** ** transformConditional, continued *)

Section ConditionalFacts.

Import Conditional.

Lemma prefix_app_sep (sep : ascii) (p x y : string) :
  hasByte sep p = false ->
  String.prefix p (x +:+ String sep y) = String.prefix p x.
Proof.
  revert x. induction p as [|a p IH]; intros x Hp; [by rewrite !prefix_nil|].
  cbn [hasByte] in Hp. apply orb_false_elim in Hp as [Ha Hp].
  destruct x as [|b x].
  - change ("" +:+ String sep y) with (String sep y).
    rewrite prefix_cons, Ha. reflexivity.
  - rewrite str_app_cons, !prefix_cons, IH by done. reflexivity.
Qed.

Lemma dropPrefix_None (p s : string) :
  String.prefix p s = false -> dropPrefix p s = None.
Proof.
  revert s. induction p as [|a p IH]; intros s; [by rewrite prefix_nil|].
  destruct s as [|b s]; [done|]. rewrite prefix_cons. cbn [dropPrefix].
  destruct (Ascii.eqb a b); [exact (IH s)|done].
Qed.

Lemma Contains_false (c : ascii) (s sub : string) :
  Contains (String c s) sub = false ->
  String.prefix sub (String c s) = false /\ Contains s sub = false.
Proof.
  cbn [Contains]. by destruct (String.prefix sub (String c s)).
Qed.

Lemma Contains_false_prefix (s sub : string) :
  Contains s sub = false -> String.prefix sub s = false.
Proof.
  destruct s as [|c s]; [|by intros [? _]%Contains_false].
  cbn [Contains]. by destruct (String.prefix sub "").
Qed.

Lemma Contains_app_sep (sep : ascii) (x y sub : string) :
  sub <> "" -> hasByte sep sub = false ->
  Contains (x +:+ String sep y) sub = Contains x sub || Contains y sub.
Proof.
  intros Hne Hsub.
  assert (String.prefix sub "" = false) as Hnil by (by destruct sub).
  induction x as [|c x IH].
  - change ("" +:+ String sep y) with (String sep y). cbn [Contains].
    rewrite Hnil. cbn [orb].
    pose proof (prefix_app_sep sep sub "" y Hsub) as Hp.
    change ("" +:+ String sep y) with (String sep y) in Hp.
    by rewrite Hp, Hnil.
  - rewrite str_app_cons. cbn [Contains]. rewrite <- str_app_cons.
    rewrite prefix_app_sep by done.
    destruct (String.prefix sub (String c x)); [done|]. exact IH.
Qed.

(** A keyword is not found in a text that does not hold its letters, up
    to the blank that follows the text. *)
Lemma keywordAt_absent (kw : string) (prev : option ascii) (x y : string) :
  hasByte " " kw = false ->
  Contains x kw = false ->
  keywordAt kw prev (x +:+ String " " y) = false.
Proof.
  intros Hkw Hx%Contains_false_prefix. unfold keywordAt.
  rewrite dropPrefix_None; [apply andb_false_r|].
  by rewrite prefix_app_sep.
Qed.

Lemma deepestIf_absent (prev : option ascii) (s : string) (depth pos : nat)
    (best : option (nat * nat)) :
  Contains s "if" = false -> deepestIf prev s depth pos best = best.
Proof.
  revert prev depth pos. induction s as [|c s IH]; intros prev depth pos Hs.
  - cbn [deepestIf]. unfold keywordAt. cbn [dropPrefix].
    by rewrite andb_false_r.
  - apply Contains_false in Hs as [Hp Hs]. cbn [deepestIf].
    unfold keywordAt. rewrite (dropPrefix_None _ _ Hp), andb_false_r.
    by apply IH.
Qed.

Lemma findIf_None (s : string) : Contains s "if" = false -> findIf s = None.
Proof. intros Hs. unfold findIf. by rewrite deepestIf_absent. Qed.

Lemma deepestIf_cons (prev : option ascii) (c : ascii) (t : string)
    (depth pos : nat) (best : option (nat * nat)) :
  deepestIf prev (String c t) depth pos best
  = deepestIf (Some c) t
      (if Ascii.eqb c "(" then S depth
       else if Ascii.eqb c ")" then Nat.pred depth else depth)
      (S pos)
      (if keywordAt "if" prev (String c t) then
         match best with
         | Some (d, _) => if (d <? depth)%nat then Some (depth, pos) else best
         | None => Some (depth, pos)
         end
       else best).
Proof. reflexivity. Qed.

(** The only [if] token of a text is the innermost one. *)
Lemma deepestIf_app (prev : option ascii) (a r : string) (depth pos : nat) :
  Contains a "if" = false -> Contains r "if" = false ->
  option_map snd
    (deepestIf prev (a +:+ String " " ("if" +:+ String " " r)) depth pos None)
  = Some (pos + String.length a + 1)%nat.
Proof.
  revert prev depth pos. induction a as [|c a IH]; intros prev depth pos Ha Hr.
  - change ("" +:+ String " " ("if" +:+ String " " r))
      with (String " " (String "i" (String "f" (String " " r)))).
    rewrite deepestIf_cons.
    assert (keywordAt "if" prev
              (String " " (String "i" (String "f" (String " " r)))) = false)
      as ->.
    { unfold keywordAt. cbn [dropPrefix Ascii.eqb Bool.eqb].
      apply andb_false_r. }
    change (Ascii.eqb " " "(") with false.
    change (Ascii.eqb " " ")") with false. cbn match.
    rewrite deepestIf_cons.
    assert (keywordAt "if" (Some " "%char)
              (String "i" (String "f" (String " " r))) = true) as ->
      by reflexivity.
    rewrite deepestIf_absent.
    + cbn [option_map snd String.length]. f_equal. lia.
    + cbn [Contains]. rewrite !prefix_cons. cbn [Ascii.eqb Bool.eqb andb].
      exact Hr.
  - pose proof Ha as Hc. apply Contains_false in Ha as [_ Ha].
    rewrite str_app_cons, deepestIf_cons.
    rewrite <- (str_app_cons c a).
    rewrite (keywordAt_absent "if" prev (String c a)) by done.
    rewrite IH by done. f_equal. cbn [String.length]. lia.
Qed.

(** The [else] token after a text without parentheses and without the
    letters [else]. *)
Lemma findElse_app (prev : option ascii) (x r : string) (pos : nat) :
  hasByte "(" x = false -> hasByte ")" x = false ->
  Contains x "else" = false ->
  findElse prev (x +:+ String " " ("else" +:+ String " " r)) 0 pos
  = Some (pos + String.length x + 1)%nat.
Proof.
  revert prev pos. induction x as [|c x IH]; intros prev pos Ho Hc Hx.
  - change ("" +:+ String " " ("else" +:+ String " " r))
      with (String " " ("else" +:+ String " " r)).
    cbn [findElse Nat.eqb andb].
    pose proof (keywordAt_absent "else" prev "" ("else" +:+ String " " r)
                  eq_refl eq_refl) as Hk.
    change ("" +:+ String " " ("else" +:+ String " " r))
      with (String " " ("else" +:+ String " " r)) in Hk.
    rewrite Hk.
    change (Ascii.eqb " " "(") with false.
    change (Ascii.eqb " " ")") with false. cbn match.
    change ("else" +:+ String " " r)
      with (String "e" (String "l" (String "s" (String "e" (String " " r))))).
    cbn [findElse Nat.eqb andb].
    assert (keywordAt "else" (Some " "%char)
              (String "e" (String "l" (String "s" (String "e" (String " " r)))))
            = true) as -> by reflexivity.
    f_equal. cbn [String.length]. lia.
  - pose proof Hx as Hx'. apply Contains_false in Hx as [_ Hx].
    cbn [hasByte] in Ho, Hc.
    apply orb_false_elim in Ho as [Ho1 Ho], Hc as [Hc1 Hc].
    rewrite str_app_cons. cbn [findElse Nat.eqb andb].
    rewrite <- str_app_cons.
    rewrite (keywordAt_absent "else" prev (String c x)) by done.
    rewrite Ho1, Hc1. rewrite IH by done. f_equal. cbn [String.length]. lia.
Qed.

Lemma scopeEnd_plain (s : string) (depth pos : nat) :
  hasByte "(" s = false -> hasByte ")" s = false ->
  scopeEnd s depth pos = (pos + String.length s)%nat.
Proof.
  revert pos. induction s as [|c s IH]; intros pos Ho Hc.
  - cbn [scopeEnd String.length]. lia.
  - cbn [hasByte] in Ho, Hc.
    apply orb_false_elim in Ho as [Ho1 Ho], Hc as [Hc1 Hc].
    cbn [scopeEnd]. rewrite Ho1, Hc1, IH by done. cbn [String.length]. lia.
Qed.

Lemma scopeBack_plain (chars : list ascii) (depth n : nat) :
  Forall (fun c => Ascii.eqb c ")" = false /\ Ascii.eqb c "(" = false) chars ->
  scopeBack chars depth n = (n + length chars)%nat.
Proof.
  revert n. induction chars as [|c chars IH]; intros n Hf.
  - cbn [scopeBack length]. lia.
  - apply Forall_cons in Hf as [[Hc Ho] Hf]. cbn [scopeBack].
    rewrite Hc, Ho, IH by done. cbn [length]. lia.
Qed.

Lemma hasByte_chars (s : string) :
  hasByte "(" s = false -> hasByte ")" s = false ->
  Forall (fun c => Ascii.eqb c ")" = false /\ Ascii.eqb c "(" = false)
    (list_ascii_of_string s).
Proof.
  induction s as [|c s IH]; intros Ho Hc; [constructor|].
  cbn [hasByte] in Ho, Hc.
  apply orb_false_elim in Ho as [Ho1 Ho], Hc as [Hc1 Hc].
  cbn [list_ascii_of_string]. constructor; [done|by apply IH].
Qed.

Lemma length_chars (s : string) :
  length (list_ascii_of_string s) = String.length s.
Proof. induction s as [|c s IH]; [done|]. cbn. by rewrite IH. Qed.

End ConditionalFacts.

Section PlainConditional.

Import Conditional.

Variables a b c : string.

Hypothesis Ha : plainOperand a = true.
Hypothesis Hb : plainOperand b = true.
Hypothesis Hc : plainOperand c = true.
Hypothesis Helse : Contains b "else" = false.

Lemma plainOperand_spec (s : string) :
  plainOperand s = true ->
  firstGraphic s = true /\ lastGraphic s = true
  /\ hasByte "(" s = false /\ hasByte ")" s = false
  /\ Contains s "if" = false.
Proof.
  unfold plainOperand.
  intros [[[[H1 H2]%andb_prop H3]%andb_prop H4]%andb_prop H5]%andb_prop.
  by apply negb_true_iff in H3, H4, H5.
Qed.


Lemma plain_findIf :
  findIf (plainConditional a b c) = Some (String.length a + 1)%nat.
Proof.
  destruct (plainOperand_spec a Ha) as (_ & _ & _ & _ & Hia).
  destruct (plainOperand_spec b Hb) as (_ & _ & _ & _ & Hib).
  destruct (plainOperand_spec c Hc) as (_ & _ & _ & _ & Hic).
  unfold findIf, plainConditional, afterPlainIf.
  rewrite deepestIf_app; [done|done|].
  rewrite !Contains_app_sep by done. by rewrite Hib, Hic.
Qed.

Lemma plain_before :
  String.substring 0 (String.length a + 1) (plainConditional a b c) = a +:+ " ".
Proof.
  unfold plainConditional.
  change (a +:+ String " " ("if" +:+ (afterPlainIf b c)))
    with (a +:+ " " +:+ ("if" +:+ (afterPlainIf b c))).
  rewrite <- str_app_assoc.
  replace (String.length a + 1)%nat with (String.length (a +:+ " "))
    by (rewrite str_length_app; reflexivity).
  apply substring_app_whole.
Qed.

Lemma plain_afterIf :
  String.substring (String.length a + 1 + 2) (String.length (plainConditional a b c)) (plainConditional a b c)
  = (afterPlainIf b c).
Proof.
  unfold plainConditional.
  change (a +:+ String " " ("if" +:+ (afterPlainIf b c)))
    with (a +:+ " if" +:+ (afterPlainIf b c)).
  rewrite <- str_app_assoc.
  replace (String.length a + 1 + 2)%nat with (String.length (a +:+ " if"))
    by (rewrite str_length_app; cbn [String.length]; lia).
  rewrite substring_app_skip. apply substring_whole.
  rewrite str_length_app. lia.
Qed.

Lemma plain_findElse :
  findElse (Some "f"%char) (afterPlainIf b c) 0 0 = Some (String.length b + 2)%nat.
Proof.
  destruct (plainOperand_spec b Hb) as (_ & _ & Ho & Hcl & _).
  unfold afterPlainIf. rewrite <- str_app_cons.
  rewrite findElse_app.
  - f_equal. cbn [String.length]. lia.
  - cbn [hasByte]. by rewrite Ho.
  - cbn [hasByte]. by rewrite Hcl.
  - cbn [Contains]. rewrite prefix_cons. exact Helse.
Qed.

Lemma plain_condition :
  TrimSpace (String.substring 0 (String.length b + 2) (afterPlainIf b c)) = b.
Proof.
  destruct (plainOperand_spec b Hb) as (Hf & Hl & _).
  unfold afterPlainIf.
  change (String " " (b +:+ String " " ("else" +:+ String " " c)))
    with (" " +:+ b +:+ " " +:+ ("else" +:+ String " " c)).
  rewrite <- (str_app_assoc b), <- (str_app_assoc " ").
  replace (String.length b + 2)%nat
    with (String.length (" " +:+ (b +:+ " ")))
    by (rewrite !str_length_app; cbn [String.length]; lia).
  rewrite substring_app_whole. by apply TrimSpace_between_blanks.
Qed.

Lemma plain_afterElse :
  String.substring (String.length b + 2 + 4) (String.length (afterPlainIf b c)) (afterPlainIf b c)
  = String " " c.
Proof.
  unfold afterPlainIf.
  change (String " " (b +:+ String " " ("else" +:+ String " " c)))
    with (" " +:+ b +:+ " else" +:+ String " " c).
  rewrite <- (str_app_assoc b), <- (str_app_assoc " ").
  replace (String.length b + 2 + 4)%nat
    with (String.length (" " +:+ (b +:+ " else")))
    by (rewrite !str_length_app; cbn [String.length]; lia).
  rewrite substring_app_skip. apply substring_whole.
  rewrite !str_length_app. lia.
Qed.

Lemma plain_rewriteFirst :
  rewriteFirst (plainConditional a b c) = Some (inl (b +:+ " ? " +:+ a +:+ " : " +:+ c)).
Proof.
  destruct (plainOperand_spec a Ha) as (_ & Hla & Hoa & Hca & _).
  destruct (plainOperand_spec c Hc) as (Hfc & _ & Hoc & Hcc & _).
  unfold rewriteFirst. rewrite plain_findIf, plain_afterIf, plain_findElse.
  rewrite plain_condition, plain_afterElse, plain_before.
  assert (scopeEnd (String " " c) 0 0 = String.length (String " " c)) as ->.
  { rewrite scopeEnd_plain; [done| |]; cbn [hasByte]; [by rewrite Hoc|by rewrite Hcc]. }
  assert (scopeBack (List.rev (list_ascii_of_string (a +:+ " "))) 0 0
          = String.length a + 1)%nat as ->.
  { rewrite scopeBack_plain.
    - rewrite length_rev, length_chars, str_length_app. reflexivity.
    - apply Forall_rev, hasByte_chars; rewrite hasByte_app;
        [by rewrite Hoa|by rewrite Hca]. }
  rewrite Nat.sub_diag, Nat.sub_0_r, plain_before.
  rewrite (substring_whole (String " " c)) by done.
  rewrite substring_end.
  rewrite (TrimRightFunc_blank a Hla).
  change (String " " c) with (" " +:+ c).
  rewrite (TrimLeftFunc_blank c Hfc).
  assert (String.substring 0 0 (plainConditional a b c) = "") as ->
    by (by destruct (plainConditional a b c)).
  cbn [spaceBy].
  change ("" +:+ "" +:+ b +:+ " ? " +:+ a +:+ " : " +:+ c +:+ "" +:+ "")
    with (b +:+ " ? " +:+ a +:+ " : " +:+ c +:+ "").
  by rewrite str_app_nil_r.
Qed.

End PlainConditional.

(** Once no [if] is left the rewriting is over. *)
Lemma rewriteAll_done (fuel : nat) (s : string) :
  Contains s "if" = false -> Conditional.rewriteAll fuel s = inl s.
Proof.
  intros Hs. destruct fuel as [|fuel]; [done|]. cbn [Conditional.rewriteAll].
  unfold Conditional.rewriteFirst. by rewrite findIf_None.
Qed.

Lemma Contains_suffix (s sub : string) (n m : nat) :
  Contains s sub = false -> (String.length s <= m)%nat ->
  Contains (String.substring n m s) sub = false.
Proof.
  revert n. induction s as [|c s IH]; intros n Hs Hm.
  - by destruct n, m.
  - destruct n as [|n]; [by rewrite substring_whole|].
    apply Contains_false in Hs as [_ Hs]. cbn [String.substring].
    apply IH; [done|]. cbn [String.length] in Hm. lia.
Qed.

Lemma findElse_None (prev : option ascii) (s : string) (depth pos : nat) :
  Contains s "else" = false ->
  Conditional.findElse prev s depth pos = None.
Proof.
  revert prev depth pos. induction s as [|c s IH]; intros prev depth pos Hs.
  - cbn [Conditional.findElse]. unfold Conditional.keywordAt.
    cbn [dropPrefix]. by rewrite !andb_false_r.
  - apply Contains_false in Hs as [Hp Hs]. cbn [Conditional.findElse].
    unfold Conditional.keywordAt.
    rewrite (dropPrefix_None _ _ Hp), !andb_false_r.
    destruct (Ascii.eqb c "("); [by apply IH|].
    destruct (Ascii.eqb c ")"); [|by apply IH].
    destruct depth; [done|by apply IH].
Qed.

(** A formula without the letters [if] is returned as it is. *)
Lemma transformConditional_no_if (s : string) :
  Contains s "if" = false -> transformConditional s = inl s.
Proof. apply rewriteAll_done. Qed.

(** An [if] token in a formula without the letters [else] is a syntax
    error that names the formula. *)
Lemma transformConditional_no_else (s : string) (idxIf : nat) :
  Conditional.findIf s = Some idxIf ->
  Contains s "else" = false ->
  transformConditional s = inr ("if without else in expression: " +:+ s).
Proof.
  intros Hif Helse. unfold transformConditional.
  destruct s as [|c s]; [done|]. cbn [String.length Conditional.rewriteAll].
  unfold Conditional.rewriteFirst. rewrite Hif.
  rewrite findElse_None; [done|].
  apply Contains_suffix; [done|lia].
Qed.

(** The plain conditional [a if b else c] becomes [b ? a : c]. *)
Lemma transformConditional_plain (a b c : string) :
  plainOperand a = true -> plainOperand b = true -> plainOperand c = true ->
  Contains b "else" = false ->
  transformConditional (a +:+ " if " +:+ b +:+ " else " +:+ c)
  = inl (b +:+ " ? " +:+ a +:+ " : " +:+ c).
Proof.
  intros Ha Hb Hc Helse.
  change (a +:+ " if " +:+ b +:+ " else " +:+ c)
    with (plainConditional a b c).
  unfold transformConditional.
  assert (exists n, String.length (plainConditional a b c) = S n) as [n ->].
  { unfold plainConditional. rewrite str_length_app. cbn [String.length].
    exists (String.length a + String.length ("if" +:+ afterPlainIf b c))%nat.
    lia. }
  cbn [Conditional.rewriteAll].
  rewrite (plain_rewriteFirst a b c Ha Hb Hc Helse).
  apply rewriteAll_done.
  destruct (plainOperand_spec a Ha) as (_ & _ & _ & _ & Hia).
  destruct (plainOperand_spec b Hb) as (_ & _ & _ & _ & Hib).
  destruct (plainOperand_spec c Hc) as (_ & _ & _ & _ & Hic).
  change (b +:+ " ? " +:+ a +:+ " : " +:+ c)
    with (b +:+ String " " ("?" +:+ String " "
            (a +:+ String " " (":" +:+ String " " c)))).
  rewrite !Contains_app_sep by done.
  by rewrite Hia, Hib, Hic.
Qed.

(** C4: the contract of the conditional transform and the reference
    outputs of [TestTransformConditional].  A formula without the letters
    [if] is returned unchanged; an [if] token without any [else] is a
    syntax error naming the formula; a plain conditional [a if b else c],
    whose operands hold no parentheses and no [if], no [else] in the
    condition, and no white space at their ends, becomes [b ? a : c].
    The five literal cases of the specification follow, with the three
    nested cases of the test, whose outputs keep the extra blanks. *)
Theorem transformConditional_literal_cases :
  (forall s, Contains s "if" = false -> transformConditional s = inl s)
  /\ (forall s idxIf,
        Conditional.findIf s = Some idxIf ->
        Contains s "else" = false ->
        transformConditional s
        = inr ("if without else in expression: " +:+ s))
  /\ (forall a b c,
        plainOperand a = true -> plainOperand b = true ->
        plainOperand c = true -> Contains b "else" = false ->
        transformConditional (a +:+ " if " +:+ b +:+ " else " +:+ c)
        = inl (b +:+ " ? " +:+ a +:+ " : " +:+ c))
  /\ transformConditional "100 * x / y" = inl "100 * x / y"
  /\ (exists err, transformConditional "100 * x / y if z" = inr err)
  /\ transformConditional "a if b else c" = inl "b ? a : c"
  /\ transformConditional "(1 - x / y) if z > 1 else 0"
     = inl "z > 1 ? (1 - x / y) : 0"
  /\ transformConditional "1 - a / b if c > 1 else 0"
     = inl "c > 1 ? 1 - a / b : 0"
  /\ transformConditional "1 - ( (a) if c else d )"
     = inl "1 - ( c ?  (a) : d )"
  /\ transformConditional
       "100 * ( min( ( ( ( a / ( b ) ) - ( min( ( ( ( ( 1 - ( ( ( 19 * ( c * ( 1 + ( d / e ) ) ) + 10 * ( ( f * ( 1 + ( d / e ) ) ) + ( g * ( 1 + ( d / e ) ) ) + ( h * ( 1 + ( d / e ) ) ) ) ) / ( ( 19 * ( c * ( 1 + ( d / e ) ) ) + 10 * ( ( f * ( 1 + ( d / e ) ) ) + ( g * ( 1 + ( d / e ) ) ) + ( h * ( 1 + ( d / e ) ) ) ) ) + ( 25 * ( ( i * ( 1 + ( d / e ) ) ) ) + 33 * ( ( j * ( 1 + ( d / e ) ) ) ) ) ) ) ) ) * ( a / ( b ) ) ) if ( ( 1000000 ) * ( j + i ) > e ) else 0 ) ) , ( 1 ) ) ) ) ) , ( 1 ) ) )"
     = inl "100 * ( min( ( ( ( a / ( b ) ) - ( min( ( ( ( ( 1000000 ) * ( j + i ) > e ) ?  ( ( 1 - ( ( ( 19 * ( c * ( 1 + ( d / e ) ) ) + 10 * ( ( f * ( 1 + ( d / e ) ) ) + ( g * ( 1 + ( d / e ) ) ) + ( h * ( 1 + ( d / e ) ) ) ) ) / ( ( 19 * ( c * ( 1 + ( d / e ) ) ) + 10 * ( ( f * ( 1 + ( d / e ) ) ) + ( g * ( 1 + ( d / e ) ) ) + ( h * ( 1 + ( d / e ) ) ) ) ) + ( 25 * ( ( i * ( 1 + ( d / e ) ) ) ) + 33 * ( ( j * ( 1 + ( d / e ) ) ) ) ) ) ) ) ) * ( a / ( b ) ) ) : 0 )  ) , ( 1 ) ) ) ) ) , ( 1 ) ) )"
  /\ transformConditional
       "100 * ( ( a + ( b / ( c ) ) * ( d - e ) + ( f + ( g / ( h + i + g + j ) ) * k ) ) / ( c ) if ( l < ( d - e ) ) else ( f + ( g / ( h + i + g + j ) ) * k ) / ( c ) )"
     = inl "100 * ( ( l < ( d - e ) ) ?  ( a + ( b / ( c ) ) * ( d - e ) + ( f + ( g / ( h + i + g + j ) ) * k ) ) / ( c ) : ( f + ( g / ( h + i + g + j ) ) * k ) / ( c ) )".
Proof.
  split; [exact transformConditional_no_if|].
  split; [exact transformConditional_no_else|].
  split; [exact transformConditional_plain|].
  split; [by apply transformConditional_no_if|].
  split.
  { eexists. by apply (transformConditional_no_else _ 12%nat). }
  split; [by apply (transformConditional_plain "a" "b" "c")|].
  split; [vm_compute; reflexivity|].
  split; [by apply (transformConditional_plain "1 - a / b" "c > 1" "0")|].
  repeat split; vm_compute; reflexivity.
Qed.

Lemma transformConditional_literal_cases_witness :
  transformConditional "x + 1 if y > 0 else z" = inl "y > 0 ? x + 1 : z".
Proof.
  apply (proj1 (proj2 (proj2 transformConditional_literal_cases))
           "x + 1" "y > 0" "z"); reflexivity.
Defined.

(** ** The loops of the trimming end by themselves

    Each loop of the model is given as many rounds as the string has
    bytes; the lemmas below show that no loop is cut short: with more
    rounds it returns the same. *)

Lemma substring_nonempty (s : string) (n m : nat) :
  (n < String.length s)%nat -> (0 < m)%nat -> String.substring n m s <> "".
Proof.
  revert n. induction s as [|c s IH]; intros n Hn Hm;
    cbn [String.length] in Hn; [lia|].
  destruct n as [|n]; cbn [String.substring].
  - destruct m; [lia|done].
  - apply IH; lia.
Qed.

Lemma DecodeRuneInString_size (s : string) :
  s <> "" -> 1 <= (DecodeRuneInString s).2 <= 4.
Proof.
  destruct s as [|c0 s]; [done|]. intros _. unfold DecodeRuneInString.
  repeat match goal with
         | |- context [match ?x with _ => _ end] => destruct x
         end; cbn [snd]; lia.
Qed.

Lemma runeStartLoop_le (fuel : nat) (s : string) (lim start : Z) :
  runeStartLoop fuel s lim start <= start.
Proof.
  revert start. induction fuel as [|fuel IH]; intros start;
    cbn [runeStartLoop]; [lia|].
  destruct (lim <=? start); [|lia].
  destruct (RuneStart (byteZ s start)); [lia|].
  specialize (IH (start - 1)). lia.
Qed.

Lemma DecodeLastRuneInString_size (s : string) :
  s <> "" -> 1 <= (DecodeLastRuneInString s).2 <= 4.
Proof.
  intros Hs. unfold DecodeLastRuneInString.
  assert (1 <= len s) as Hlen.
  { destruct s as [|c s]; [done|]. rewrite len_cons.
    pose proof (len_nonneg s). lia. }
  destruct (Z.eqb_spec (len s) 0); [lia|].
  destruct (byteZ s (len s - 1) <? RuneSelf); [cbn [snd]; lia|].
  set (start := Z.max (runeStartLoop UTFMax s _ _) 0).
  pose proof (DecodeRuneInString_size (substr s start (len s))) as Hsize.
  destruct (DecodeRuneInString (substr s start (len s))) as [r size].
  cbn [snd] in Hsize.
  destruct (Z.eqb_spec (start + size) (len s)) as [Heq|]; cbn [negb snd];
    [|lia].
  apply Hsize. unfold substr. apply substring_nonempty.
  - pose proof (runeStartLoop_le UTFMax s
                  (Z.max (len s - Z.of_nat UTFMax) 0) (len s - 1 - 1)).
    unfold len in *. unfold start. lia.
  - pose proof (runeStartLoop_le UTFMax s
                  (Z.max (len s - Z.of_nat UTFMax) 0) (len s - 1 - 1)).
    unfold start. lia.
Qed.

Lemma indexLoop_fuel (fuel extra : nat) (s : string) (f : Z -> bool)
    (truth : bool) (i : Z) :
  0 <= i -> len s - i <= Z.of_nat fuel ->
  indexLoop (fuel + extra) s f truth i = indexLoop fuel s f truth i.
Proof.
  revert i. induction fuel as [|fuel IH]; intros i Hi Hfuel.
  - destruct extra as [|extra]; [done|]. cbn [Nat.add indexLoop].
    by destruct (Z.ltb_spec i (len s)); [lia|].
  - cbn [Nat.add indexLoop].
    destruct (Z.ltb_spec i (len s)); [|done].
    pose proof (DecodeRuneInString_size (substr s i (len s))) as Hsize.
    destruct (DecodeRuneInString (substr s i (len s))) as [r size].
    cbn [snd] in Hsize.
    destruct (Bool.eqb (f r) truth); [done|].
    assert (1 <= size <= 4) as Hs.
    { apply Hsize. unfold substr. apply substring_nonempty;
        unfold len in *; lia. }
    apply IH; lia.
Qed.

Lemma lastIndexLoop_fuel (fuel extra : nat) (s : string) (f : Z -> bool)
    (truth : bool) (i : Z) :
  i <= len s -> i <= Z.of_nat fuel ->
  lastIndexLoop (fuel + extra) s f truth i = lastIndexLoop fuel s f truth i.
Proof.
  revert i. induction fuel as [|fuel IH]; intros i Hi Hfuel.
  - destruct extra as [|extra]; [done|]. cbn [Nat.add lastIndexLoop].
    by destruct (Z.ltb_spec 0 i); [lia|].
  - cbn [Nat.add lastIndexLoop].
    destruct (Z.ltb_spec 0 i); [|done].
    pose proof (DecodeLastRuneInString_size (substr s 0 i)) as Hsize.
    destruct (DecodeLastRuneInString (substr s 0 i)) as [r size].
    cbn [snd] in Hsize.
    destruct (Bool.eqb (f r) truth); [done|].
    assert (1 <= size <= 4) as Hs.
    { apply Hsize. unfold substr. apply substring_nonempty;
        unfold len in *; lia. }
    apply IH; lia.
Qed.

Lemma trimStop_fuel (fuel extra : nat) (s : string) (start stop : Z) :
  0 <= start -> stop - start <= Z.of_nat fuel ->
  trimStop (fuel + extra) s start stop = trimStop fuel s start stop.
Proof.
  revert stop. induction fuel as [|fuel IH]; intros stop Hstart Hfuel.
  - destruct extra as [|extra]; [done|]. cbn [Nat.add trimStop].
    by destruct (Z.ltb_spec start stop); [lia|].
  - cbn [Nat.add trimStop].
    destruct (Z.ltb_spec start stop); [|done].
    destruct (RuneSelf <=? byteZ s (stop - 1)); [done|].
    destruct (negb (asciiSpace (byteZ s (stop - 1)))); [done|].
    apply IH; lia.
Qed.

Lemma trimStart_fuel (fuel extra : nat) (s : string) (start : Z) :
  len s - start <= Z.of_nat fuel ->
  trimStart (fuel + extra) s start = trimStart fuel s start.
Proof.
  revert start. induction fuel as [|fuel IH]; intros start Hfuel.
  - destruct extra as [|extra]; [done|]. cbn [Nat.add trimStart].
    by destruct (Z.ltb_spec start (len s)); [lia|].
  - cbn [Nat.add trimStart].
    destruct (Z.ltb_spec start (len s)); [|done].
    destruct (RuneSelf <=? byteZ s start); [done|].
    destruct (negb (asciiSpace (byteZ s start))); [done|].
    apply IH; lia.
Qed.

(** ** White space beyond ASCII *)

(** [TrimSpace] takes the Unicode white space off both ends, and leaves
    a byte that only looks like a part of one. *)
Lemma TrimSpace_unicode :
  TrimSpace (noBreakSpace +:+ " cycles;" +:+ ideographicSpace +:+ newline)
  = "cycles;"
  /\ TrimSpace (noBreakSpace +:+ ideographicSpace) = ""
  /\ TrimSpace ("cycles;" +:+ String "160" "") = "cycles;" +:+ String "160" "".
Proof. repeat split; vm_compute; reflexivity. Qed.

(** In a catalog, a line of white space beyond ASCII is a blank line, and
    such white space after the separator is not part of the record: the
    second line below closes its group, and the record [a,bbb] of the
    third makes the parser panic. *)
Lemma LoadEventGroups_unicode_space :
  LoadEventGroups
    (overrideFile [noBreakSpace; "instructions;" +:+ noBreakSpace; "bogus;";
                   ideographicSpace +:+ "cycles;"])
    scopeSystem "events.txt" intelMetadata
  = Ret ([[mkEvent "instructions" "instructions" "" ""];
          [mkEvent "cycles" "cycles" "" ""]], ["bogus"], None)
  /\ LoadEventGroups (overrideFile ["a,bbb;" +:+ noBreakSpace])
       scopeSystem "events.txt" intelMetadata
     = Panic.
Proof. split; vm_compute; reflexivity. Qed.

(** The version test trims the output of [perf --version] in the same
    way. *)
Lemma hasPerf_unicode_space :
  hasPerf ("perf version " +:+ noBreakSpace) None = Panic
  /\ hasPerf ("perf version 6.8" +:+ noBreakSpace) None = Ret true.
Proof. split; vm_compute; reflexivity. Qed.
